(** * Family relationship graph engine: path search and kinship classifier

    A shallow embedding of [findRelationshipPath] and
    [deriveComplexRelationship] (utils/graphPathfinder.ts) together with the
    data model of types.ts, and the properties of the kinship graph builder,
    the breadth-first search and the classifier.

    Conventions of the embedding:
    - a JS string is a [string]; [startsWith] and [includes] are byte-wise,
      which agrees with JS on every ASCII needle the source uses;
    - [Map<string, ...>] is a [gmap string ...], [Set<string>] a [gset string];
    - an optional field ([relationshipToNext?]) is an [option];
    - [adj.get(k)!.push(e)] raises a TypeError when the key is absent: the
      builder therefore lives in [option], [None] standing for the exception;
    - the [while] loop of the search is driven by a fuel counter; the result
      type [outcome] keeps "ran out of fuel" and "threw" apart from a normal
      return, and the fuel chosen by [findRelationshipPath] is shown to be
      enough on every input. *)

From Stdlib Require Import Ascii.
From stdpp Require Import gmap strings list fin_maps sorting.

Open Scope string_scope.
Open Scope list_scope.
Open Scope nat_scope.

Set Warnings "-clear-no-such-hyp".

(** ** Data model (types.ts) *)

Inductive Gender := male | female | other | unknown.

Module Person.
Record t := mk {
  id : string;
  name : string;
  gender : Gender;
  birthDate : option string;
  profilePicUrl : option string
}.
End Person.

Inductive DirectRelationshipType := FATHER | MOTHER | SPOUSE | SIBLING.

Module StoredRelationship.
Record t := mk {
  id : string;
  fromPersonId : string;
  toPersonId : string;
  type : DirectRelationshipType
}.
End StoredRelationship.

Module PathSegment.
Record t := mk {
  person : Person.t;
  relationshipToNext : option string;
  relationshipId : option string
}.
End PathSegment.

Abbreviation RelationshipPath := (list PathSegment.t) (only parsing).

(** The anonymous record type of the adjacency lists,
    [{ personId; relationshipLabel; relationshipId? }]. *)
Module Neighbor.
Record t := mk {
  personId : string;
  relationshipLabel : string;
  relationshipId : option string
}.
End Neighbor.

#[global] Instance Gender_eq_dec : EqDecision Gender.
Proof. solve_decision. Defined.
#[global] Instance DirectRelationshipType_eq_dec : EqDecision DirectRelationshipType.
Proof. solve_decision. Defined.
#[global] Instance Person_eq_dec : EqDecision Person.t.
Proof. solve_decision. Defined.
#[global] Instance PathSegment_eq_dec : EqDecision PathSegment.t.
Proof. solve_decision. Defined.
#[global] Instance Neighbor_eq_dec : EqDecision Neighbor.t.
Proof. solve_decision. Defined.

(** What a call can do: return a value, throw, or (in the model only)
    exhaust the fuel of its loop. *)
Inductive outcome (A : Type) :=
  | Returned (a : A)
  | Thrown
  | OutOfFuel.
Arguments Returned {A} a.
Arguments Thrown {A}.
Arguments OutOfFuel {A}.

(** ** String primitives *)

(** [s.startsWith(needle)] *)
Definition startsWith (s needle : string) : bool := String.prefix needle s.

(** [s.includes(needle)] *)
Fixpoint includes (s needle : string) : bool :=
  String.prefix needle s ||
  match s with
  | EmptyString => false
  | String _ s' => includes s' needle
  end.

(** [o?.startsWith(needle)] and [o?.includes(needle)] used as conditions:
    [undefined] is falsy. *)
Definition opt_startsWith (o : option string) (needle : string) : bool :=
  match o with Some s => startsWith s needle | None => false end.
Definition opt_includes (o : option string) (needle : string) : bool :=
  match o with Some s => includes s needle | None => false end.

(** Truthiness of an optional string: [undefined] and the empty string are
    falsy. *)
Definition truthy (o : option string) : bool :=
  match o with
  | Some EmptyString => false
  | Some _ => true
  | None => false
  end.

(** ** Kinship graph builder *)

(** [people.find(p => p.id === pid)] *)
Definition find_person (people : list Person.t) (pid : string) : option Person.t :=
  find (fun p => String.eqb (Person.id p) pid) people.

(** [for (const person of people) adj.set(person.id, [])] *)
Definition adj_init (people : list Person.t) : gmap string (list Neighbor.t) :=
  foldl (fun adj person => <[Person.id person := []]> adj) ∅ people.

(** [adj.get(k)!.push(e)]; [None] is the TypeError of pushing on
    [undefined]. *)
Definition adj_push (k : string) (e : Neighbor.t)
    (adj : gmap string (list Neighbor.t)) : option (gmap string (list Neighbor.t)) :=
  match adj !! k with
  | Some l => Some (<[k := l ++ [e]]> adj)
  | None => None
  end.

Definition forwardLabel (ty : DirectRelationshipType) : string :=
  match ty with
  | FATHER => "is father of"
  | MOTHER => "is mother of"
  | SPOUSE => "is spouse of"
  | SIBLING => "is sibling of"
  end.

Definition reverseLabel (ty : DirectRelationshipType) (fromName : string) : string :=
  match ty with
  | FATHER => "is child of (father: " +:+ fromName +:+ ")"
  | MOTHER => "is child of (mother: " +:+ fromName +:+ ")"
  | SPOUSE => "is spouse of"
  | SIBLING => "is sibling of"
  end.

(** The entry pushed on the list of [rel.fromPersonId] and the one pushed on
    the list of [rel.toPersonId] by every case of the [switch]. *)
Definition forwardEntry (rel : StoredRelationship.t) : Neighbor.t :=
  Neighbor.mk (StoredRelationship.toPersonId rel)
              (forwardLabel (StoredRelationship.type rel))
              (Some (StoredRelationship.id rel)).

Definition reverseEntry (rel : StoredRelationship.t) (fromPerson : Person.t) : Neighbor.t :=
  Neighbor.mk (StoredRelationship.fromPersonId rel)
              (reverseLabel (StoredRelationship.type rel) (Person.name fromPerson))
              (Some (StoredRelationship.id rel)).

(** One iteration of [for (const rel of relationships)]. *)
Definition add_relationship (people : list Person.t)
    (adj : gmap string (list Neighbor.t)) (rel : StoredRelationship.t)
    : option (gmap string (list Neighbor.t)) :=
  match find_person people (StoredRelationship.fromPersonId rel),
        find_person people (StoredRelationship.toPersonId rel) with
  | Some fromPerson, Some toPerson =>
      match StoredRelationship.type rel with
      | FATHER =>
          adj1 ← adj_push (StoredRelationship.fromPersonId rel)
                   (Neighbor.mk (StoredRelationship.toPersonId rel) "is father of"
                      (Some (StoredRelationship.id rel))) adj;
          adj_push (StoredRelationship.toPersonId rel)
            (Neighbor.mk (StoredRelationship.fromPersonId rel)
               ("is child of (father: " +:+ Person.name fromPerson +:+ ")")
               (Some (StoredRelationship.id rel))) adj1
      | MOTHER =>
          adj1 ← adj_push (StoredRelationship.fromPersonId rel)
                   (Neighbor.mk (StoredRelationship.toPersonId rel) "is mother of"
                      (Some (StoredRelationship.id rel))) adj;
          adj_push (StoredRelationship.toPersonId rel)
            (Neighbor.mk (StoredRelationship.fromPersonId rel)
               ("is child of (mother: " +:+ Person.name fromPerson +:+ ")")
               (Some (StoredRelationship.id rel))) adj1
      | SPOUSE =>
          adj1 ← adj_push (StoredRelationship.fromPersonId rel)
                   (Neighbor.mk (StoredRelationship.toPersonId rel) "is spouse of"
                      (Some (StoredRelationship.id rel))) adj;
          adj_push (StoredRelationship.toPersonId rel)
            (Neighbor.mk (StoredRelationship.fromPersonId rel) "is spouse of"
               (Some (StoredRelationship.id rel))) adj1
      | SIBLING =>
          adj1 ← adj_push (StoredRelationship.fromPersonId rel)
                   (Neighbor.mk (StoredRelationship.toPersonId rel) "is sibling of"
                      (Some (StoredRelationship.id rel))) adj;
          adj_push (StoredRelationship.toPersonId rel)
            (Neighbor.mk (StoredRelationship.fromPersonId rel) "is sibling of"
               (Some (StoredRelationship.id rel))) adj1
      end
  | _, _ => Some adj
  end.

Fixpoint add_relationships (people : list Person.t)
    (relationships : list StoredRelationship.t)
    (adj : gmap string (list Neighbor.t)) : option (gmap string (list Neighbor.t)) :=
  match relationships with
  | [] => Some adj
  | rel :: rest =>
      adj' ← add_relationship people adj rel;
      add_relationships people rest adj'
  end.

(** The adjacency map as it stands when the search starts. *)
Definition buildAdj (people : list Person.t)
    (relationships : list StoredRelationship.t) : option (gmap string (list Neighbor.t)) :=
  add_relationships people relationships (adj_init people).

(** ** Shortest path search *)

(** [{ person }] *)
Definition bareSegment (person : Person.t) : PathSegment.t :=
  PathSegment.mk person None None.

(** [[...currentPath.slice(0, -1), updatedLastSegment, { person: neighborPerson }]].
    The queue never holds an empty path (lemma [extendPath_nonempty] and the
    queue invariant below), so the [None] branch is dead; there JS would
    spread [undefined] into a segment without a person, which the typed
    model cannot hold. *)
Definition extendPath (currentPath : RelationshipPath) (neighbor : Neighbor.t)
    (neighborPerson : Person.t) : RelationshipPath :=
  match last currentPath with
  | Some lastSegmentInPath =>
      removelast currentPath ++
      [ PathSegment.mk (PathSegment.person lastSegmentInPath)
          (Some (Neighbor.relationshipLabel neighbor))
          (Neighbor.relationshipId neighbor);
        bareSegment neighborPerson ]
  | None => [ bareSegment neighborPerson ]
  end.

(** [for (const neighbor of neighbors) { ... }], threading the queue and the
    visited set. *)
Fixpoint visit_neighbors (people : list Person.t) (currentPath : RelationshipPath)
    (neighbors : list Neighbor.t)
    (queue : list (string * RelationshipPath)) (visited : gset string)
    : list (string * RelationshipPath) * gset string :=
  match neighbors with
  | [] => (queue, visited)
  | neighbor :: rest =>
      if decide (Neighbor.personId neighbor ∈ visited)
      then visit_neighbors people currentPath rest queue visited
      else
        let visited' := visited ∪ {[ Neighbor.personId neighbor ]} in
        match find_person people (Neighbor.personId neighbor) with
        | Some neighborPerson =>
            visit_neighbors people currentPath rest
              (queue ++ [ (Neighbor.personId neighbor,
                           extendPath currentPath neighbor neighborPerson) ])
              visited'
        | None => visit_neighbors people currentPath rest queue visited'
        end
  end.

(** [while (queue.length > 0) { ... } return null] *)
Fixpoint bfs_loop (fuel : nat) (people : list Person.t)
    (adj : gmap string (list Neighbor.t)) (endPersonId : string)
    (queue : list (string * RelationshipPath)) (visited : gset string)
    : outcome (option RelationshipPath) :=
  match fuel with
  | O => OutOfFuel
  | S fuel' =>
      match queue with
      | [] => Returned None
      | (personId, currentPath) :: rest =>
          if String.eqb personId endPersonId then Returned (Some currentPath)
          else
            let neighbors := default [] (adj !! personId) in
            let '(queue', visited') :=
              visit_neighbors people currentPath neighbors rest visited in
            bfs_loop fuel' people adj endPersonId queue' visited'
      end
  end.

Definition findRelationshipPath_fuel (fuel : nat)
    (startPersonId endPersonId : string)
    (people : list Person.t) (relationships : list StoredRelationship.t)
    : outcome (option RelationshipPath) :=
  if String.eqb startPersonId endPersonId then
    match find_person people startPersonId with
    | Some person => Returned (Some [ bareSegment person ])
    | None => Returned None
    end
  else
    match buildAdj people relationships with
    | None => Thrown
    | Some adj =>
        match find_person people startPersonId with
        | None => Returned None
        | Some startNode =>
            bfs_loop fuel people adj endPersonId
              [ (startPersonId, [ bareSegment startNode ]) ] {[ startPersonId ]}
        end
    end.

(** Every iteration of the loop dequeues one entry, and an id is enqueued at
    most once; [S (length people)] iterations are always enough
    (theorem [findRelationshipPath_fuel_enough]). *)
Definition findRelationshipPath (startPersonId endPersonId : string)
    (people : list Person.t) (relationships : list StoredRelationship.t)
    : outcome (option RelationshipPath) :=
  findRelationshipPath_fuel (S (length people)) startPersonId endPersonId
    people relationships.

(** ** Relationship classifier *)

Definition isParentLabel (o : option string) : bool :=
  opt_includes o "is father of" || opt_includes o "is mother of".
Definition isChildLabel (o : option string) : bool :=
  opt_startsWith o "is child of".
Definition isSpouseLabel (o : option string) : bool :=
  opt_includes o "is spouse of".
Definition isSiblingLabel (o : option string) : bool :=
  opt_includes o "is sibling of".

(** [g === 'male' ? m : g === 'female' ? f : n] *)
Definition genderTerm (g : Gender) (m f n : string) : string :=
  match g with
  | male => m
  | female => f
  | _ => n
  end.

(** [`${startPerson.name} is ${genderTerm} of ${endPerson.name}.`] *)
Definition sentence (startPerson endPerson : Person.t) (term : string) : string :=
  Person.name startPerson +:+ " is " +:+ term +:+ " of " +:+ Person.name endPerson +:+ ".".

Definition deriveComplexRelationship (path : option RelationshipPath)
    (allPeople : list Person.t) : option string :=
  match path with
  | None => None
  | Some [] => None
  | Some [ _ ] => None
  | Some [ p1Segment; endSegment ] =>
      let startPerson := PathSegment.person p1Segment in
      let endPerson := PathSegment.person endSegment in
      match PathSegment.relationshipToNext p1Segment with
      | Some label =>
          if truthy (Some label) then
            if startsWith label "is child of" then
              Some (Person.name startPerson +:+ " is child of " +:+ Person.name endPerson +:+ ".")
            else if includes label "is sibling of" then
              Some (Person.name startPerson +:+ " and " +:+ Person.name endPerson +:+ " are siblings.")
            else
              Some (Person.name startPerson +:+ " " +:+ label +:+ " " +:+ Person.name endPerson +:+ ".")
          else None
      | None => None
      end
  | Some [ p1Segment; p2Segment; endSegment ] =>
      let startPerson := PathSegment.person p1Segment in
      let endPerson := PathSegment.person endSegment in
      let p1RelToP2 := PathSegment.relationshipToNext p1Segment in
      let p2RelToP3 := PathSegment.relationshipToNext p2Segment in
      if (opt_includes p1RelToP2 "is father of" || opt_includes p1RelToP2 "is mother of") &&
         (opt_includes p2RelToP3 "is father of" || opt_includes p2RelToP3 "is mother of")
      then Some (sentence startPerson endPerson
                   (genderTerm (Person.gender startPerson) "grandfather" "grandmother" "grandparent"))
      else if opt_startsWith p1RelToP2 "is child of" && opt_startsWith p2RelToP3 "is child of"
      then Some (sentence startPerson endPerson
                   (genderTerm (Person.gender startPerson) "grandson" "granddaughter" "grandchild"))
      else if (opt_includes p1RelToP2 "is father of" || opt_includes p1RelToP2 "is mother of") &&
              opt_includes p2RelToP3 "is spouse of"
      then Some (sentence startPerson endPerson
                   (genderTerm (Person.gender startPerson) "father-in-law" "mother-in-law" "parent-in-law"))
      else if opt_includes p1RelToP2 "is spouse of" && opt_startsWith p2RelToP3 "is child of"
      then Some (sentence startPerson endPerson
                   (genderTerm (Person.gender startPerson) "son-in-law" "daughter-in-law" "child-in-law"))
      else if opt_includes p1RelToP2 "is sibling of" &&
              (opt_includes p2RelToP3 "is father of" || opt_includes p2RelToP3 "is mother of")
      then Some (sentence startPerson endPerson
                   (genderTerm (Person.gender startPerson) "uncle" "aunt" "aunt/uncle"))
      else if opt_startsWith p1RelToP2 "is child of" && opt_includes p2RelToP3 "is sibling of"
      then Some (sentence startPerson endPerson
                   (genderTerm (Person.gender startPerson) "nephew" "niece" "nephew/niece"))
      else None
  | Some _ => None
  end.

(** Number of hops of a path: one less than its number of segments. *)
Definition hops (path : RelationshipPath) : nat := length path - 1.

(** ** Sample data (constants.ts) *)

Definition person (i n : string) (g : Gender) : Person.t :=
  Person.mk i n g None None.

Definition INITIAL_PEOPLE : list Person.t :=
  [ Person.mk "1" "John Doe" male (Some "1970-05-15") None;
    Person.mk "2" "Jane Smith" female (Some "1972-08-20") None;
    Person.mk "3" "Mike Doe" male (Some "1995-01-10") None;
    Person.mk "4" "Sarah Doe" female (Some "1998-11-25") None;
    Person.mk "5" "Robert Roe" male (Some "1996-07-01") None;
    Person.mk "6" "Emily Poe" female (Some "2020-03-03") None;
    Person.mk "7" "Chris Doe" male (Some "1992-06-01") None ].

Definition INITIAL_RELATIONSHIPS : list StoredRelationship.t :=
  [ StoredRelationship.mk "r1" "1" "2" SPOUSE;
    StoredRelationship.mk "r2" "1" "3" FATHER;
    StoredRelationship.mk "r3" "1" "4" FATHER;
    StoredRelationship.mk "r9" "1" "7" FATHER;
    StoredRelationship.mk "r4" "2" "3" MOTHER;
    StoredRelationship.mk "r5" "2" "4" MOTHER;
    StoredRelationship.mk "r10" "2" "7" MOTHER;
    StoredRelationship.mk "r6" "4" "5" SPOUSE;
    StoredRelationship.mk "r7" "5" "6" FATHER;
    StoredRelationship.mk "r8" "4" "6" MOTHER;
    StoredRelationship.mk "s1" "3" "4" SIBLING;
    StoredRelationship.mk "s2" "3" "7" SIBLING;
    StoredRelationship.mk "s3" "4" "7" SIBLING ].


(** ** Auxiliary definitions for the statements *)

(** The entries that the relationship [rel] contributes to the adjacency
    list of person [u]: nothing when an endpoint is unknown, otherwise the
    forward entry if [u] is the source and the reverse entry if [u] is the
    target (both, in that order, for a self-edge). *)
Definition entriesAt (people : list Person.t) (u : string)
    (rel : StoredRelationship.t) : list Neighbor.t :=
  match find_person people (StoredRelationship.fromPersonId rel),
        find_person people (StoredRelationship.toPersonId rel) with
  | Some fromPerson, Some _ =>
      (if decide (StoredRelationship.fromPersonId rel = u) then [forwardEntry rel] else []) ++
      (if decide (StoredRelationship.toPersonId rel = u) then [reverseEntry rel fromPerson] else [])
  | _, _ => []
  end.

Definition edgesOf (people : list Person.t)
    (relationships : list StoredRelationship.t) (u : string) : list Neighbor.t :=
  relationships ≫= entriesAt people u.

(** [u] has an adjacency entry leading to [v]. *)
Definition adjacentIn (adj : gmap string (list Neighbor.t)) (u v : string) : Prop :=
  ∃ l entry, adj !! u = Some l ∧ entry ∈ l ∧ Neighbor.personId entry = v.

(** A walk of [n] hops in the adjacency structure. *)
Inductive walkIn (adj : gmap string (list Neighbor.t)) (u : string) : string → nat → Prop :=
  | walkIn_here : walkIn adj u u 0
  | walkIn_hop v w n : walkIn adj u v n → adjacentIn adj v w → walkIn adj u w (S n).

(** The same over the graph built from the stored records. *)
Definition adjacent (people : list Person.t)
    (relationships : list StoredRelationship.t) (u v : string) : Prop :=
  ∃ adj, buildAdj people relationships = Some adj ∧ adjacentIn adj u v.

Definition walk (people : list Person.t)
    (relationships : list StoredRelationship.t) (u v : string) (n : nat) : Prop :=
  ∃ adj, buildAdj people relationships = Some adj ∧ walkIn adj u v n.

Definition reachable (people : list Person.t)
    (relationships : list StoredRelationship.t) (u v : string) : Prop :=
  ∃ n, walk people relationships u v n.

(** An undirected link between two known people, read off the records. *)
Definition linked (people : list Person.t)
    (relationships : list StoredRelationship.t) (u v : string) : Prop :=
  ∃ rel, rel ∈ relationships ∧
    is_Some (find_person people (StoredRelationship.fromPersonId rel)) ∧
    is_Some (find_person people (StoredRelationship.toPersonId rel)) ∧
    ((StoredRelationship.fromPersonId rel = u ∧ StoredRelationship.toPersonId rel = v) ∨
     (StoredRelationship.toPersonId rel = u ∧ StoredRelationship.fromPersonId rel = v)).

(** The ids of the people of a path, in order. *)
Definition pathIds (path : RelationshipPath) : list string :=
  (fun seg => Person.id (PathSegment.person seg)) <$> path.

(** A map that holds, for exactly the known ids, some list [f u]. *)
Definition adj_holds (people : list Person.t) (f : string → list Neighbor.t)
    (adj : gmap string (list Neighbor.t)) : Prop :=
  ∀ u, adj !! u = if find_person people u is Some _ then Some (f u) else None.

(** The neighbours that the [for] loop finds unvisited, in order: an entry
    is kept when its person is neither in [visited] nor the person of an
    entry kept before it. *)
Fixpoint fresh (visited : gset string) (neighbors : list Neighbor.t) : list Neighbor.t :=
  match neighbors with
  | [] => []
  | neighbor :: rest =>
      if decide (Neighbor.personId neighbor ∈ visited) then fresh visited rest
      else neighbor :: fresh (visited ∪ {[ Neighbor.personId neighbor ]}) rest
  end.

(** What the loop body appends to the queue for an unvisited neighbour. *)
Definition enqueued (people : list Person.t) (currentPath : RelationshipPath)
    (neighbor : Neighbor.t) : list (string * RelationshipPath) :=
  match find_person people (Neighbor.personId neighbor) with
  | Some neighborPerson =>
      [ (Neighbor.personId neighbor, extendPath currentPath neighbor neighborPerson) ]
  | None => []
  end.

(** [entry] is the first entry of [l] that leads to its person. *)
Definition first_toward (l : list Neighbor.t) (entry : Neighbor.t) : Prop :=
  ∃ l1 l2, l = l1 ++ entry :: l2 ∧
    ∀ earlier, earlier ∈ l1 → Neighbor.personId earlier ≠ Neighbor.personId entry.

(** Consecutive segments are joined by an adjacency entry of the earlier
    person that leads to the later one, the first such entry of that
    person's list, and the earlier segment carries the label and the
    relationship id of that entry; the final segment carries neither. *)
Fixpoint segments_linked (adj : gmap string (list Neighbor.t))
    (path : RelationshipPath) : Prop :=
  match path with
  | [] => True
  | seg :: rest =>
      match rest with
      | [] => PathSegment.relationshipToNext seg = None ∧
              PathSegment.relationshipId seg = None
      | next :: _ =>
          (∃ l entry,
              adj !! Person.id (PathSegment.person seg) = Some l ∧
              entry ∈ l ∧ first_toward l entry ∧
              Neighbor.personId entry = Person.id (PathSegment.person next) ∧
              PathSegment.relationshipToNext seg = Some (Neighbor.relationshipLabel entry) ∧
              PathSegment.relationshipId seg = Neighbor.relationshipId entry) ∧
          segments_linked adj rest
      end
  end.

(** ** Exploration order *)

(** The position in [l] of the first entry that leads to [w]. *)
Fixpoint rankIn (l : list Neighbor.t) (w : string) : nat :=
  match l with
  | [] => 0
  | entry :: rest =>
      if decide (Neighbor.personId entry = w) then 0 else S (rankIn rest w)
  end.

(** Lexicographic order on sequences of positions. *)
Inductive lex_lt : list nat → list nat → Prop :=
  | lex_lt_nil y b : lex_lt [] (y :: b)
  | lex_lt_head x y a b : x < y → lex_lt (x :: a) (y :: b)
  | lex_lt_tail x a b : lex_lt a b → lex_lt (x :: a) (x :: b).

Definition lex_le (a b : list nat) : Prop := a = b ∨ lex_lt a b.

(** ** Definitions for the analysis of the search loop *)

(** [adj.get(personId) || []] *)
Definition neighborsOf (adj : gmap string (list Neighbor.t)) (u : string)
    : list Neighbor.t :=
  default [] (adj !! u).

(** One iteration of the [while] loop on a non-empty queue whose head is not
    the target. *)
Definition next_queue (people : list Person.t) (adj : gmap string (list Neighbor.t))
    (u : string) (currentPath : RelationshipPath)
    (rest : list (string * RelationshipPath)) (visited : gset string)
    : list (string * RelationshipPath) :=
  rest ++ (fresh visited (neighborsOf adj u) ≫= enqueued people currentPath).

Definition next_visited (adj : gmap string (list Neighbor.t))
    (u : string) (visited : gset string) : gset string :=
  visited ∪ list_to_set (Neighbor.personId <$> fresh visited (neighborsOf adj u)).

(** The ids of the person set. *)
Definition idset (people : list Person.t) : gset string :=
  list_to_set (Person.id <$> people).

(** The paths the loop can build: the start alone, or a route extended along
    an adjacency entry of its last person, the first one of that person's
    list that leads where it leads. *)
Inductive route (people : list Person.t) (adj : gmap string (list Neighbor.t))
    (startId : string) (startNode : Person.t) : string → RelationshipPath → Prop :=
  | route_start : route people adj startId startNode startId [ bareSegment startNode ]
  | route_hop u path entry neighborPerson :
      route people adj startId startNode u path →
      entry ∈ neighborsOf adj u →
      first_toward (neighborsOf adj u) entry →
      find_person people (Neighbor.personId entry) = Some neighborPerson →
      route people adj startId startNode (Neighbor.personId entry)
        (extendPath path entry neighborPerson).

(** What a route looks like, without reference to how it was built. *)
Definition well_formed (people : list Person.t) (adj : gmap string (list Neighbor.t))
    (startId : string) (u : string) (path : RelationshipPath) : Prop :=
  head (pathIds path) = Some startId ∧
  last (pathIds path) = Some u ∧
  segments_linked adj path ∧
  Forall (fun seg =>
            find_person people (Person.id (PathSegment.person seg)) =
            Some (PathSegment.person seg)) path.

(** A queued path is a route to the queued id, visits no person twice, and
    only goes through visited ids. *)
Definition queue_inv (people : list Person.t) (adj : gmap string (list Neighbor.t))
    (startId : string) (startNode : Person.t)
    (queue : list (string * RelationshipPath)) (visited : gset string) : Prop :=
  ∀ u path, (u, path) ∈ queue →
    route people adj startId startNode u path ∧
    NoDup (pathIds path) ∧ ∀ x, x ∈ pathIds path → x ∈ visited.

(** [k] is the least number of hops from the start to [u]. *)
Definition dist (adj : gmap string (list Neighbor.t)) (startId : string)
    (u : string) (k : nat) : Prop :=
  walkIn adj startId u k ∧ ∀ m, walkIn adj startId u m → k ≤ m.

(** The queue consists of paths of [k] hops followed by paths of [S k] hops,
    each to a person at exactly that distance; everything within distance
    [k] has been visited. *)
Definition levels (adj : gmap string (list Neighbor.t)) (startId : string)
    (queue : list (string * RelationshipPath))
    (visited : gset string) (k : nat)
    (q1 q2 : list (string * RelationshipPath)) : Prop :=
  queue = q1 ++ q2 ∧
  (∀ u path, (u, path) ∈ q1 → hops path = k ∧ dist adj startId u k) ∧
  (∀ u path, (u, path) ∈ q2 → hops path = S k ∧ dist adj startId u (S k)) ∧
  (∀ w m, m ≤ k → walkIn adj startId w m → w ∈ visited).

(** A visited id is still queued, or it has been expanded: it is not the
    target and all its neighbours are visited. *)
Definition expanded (adj : gmap string (list Neighbor.t)) (endId : string)
    (queue : list (string * RelationshipPath)) (visited : gset string) : Prop :=
  ∀ w, w ∈ visited →
    w ∈ queue.*1 ∨ (w ≠ endId ∧ ∀ x, adjacentIn adj w x → x ∈ visited).

Definition level_inv (people : list Person.t) (adj : gmap string (list Neighbor.t))
    (endId startId : string) (startNode : Person.t)
    (queue : list (string * RelationshipPath)) (visited : gset string) : Prop :=
  queue_inv people adj startId startNode queue visited ∧
  (∃ k q1 q2, levels adj startId queue visited k q1 q2) ∧
  expanded adj endId queue visited.

(** The positions, in the adjacency list of each id of the sequence, of the
    first entry that leads to the next id. *)
Fixpoint ranks (adj : gmap string (list Neighbor.t)) (ids : list string) : list nat :=
  match ids with
  | [] => []
  | u :: rest =>
      match rest with
      | [] => []
      | v :: _ => rankIn (neighborsOf adj u) v :: ranks adj rest
      end
  end.

(** The position sequences of the walks from the start. *)
Inductive trail (adj : gmap string (list Neighbor.t)) (startId : string)
    : string → list nat → Prop :=
  | trail_start : trail adj startId startId []
  | trail_hop u w rs :
      trail adj startId u rs → adjacentIn adj u w →
      trail adj startId w (rs ++ [ rankIn (neighborsOf adj u) w ]).

(** The queue holds, for each queued person, the walk of least position
    sequence among the walks of the same length, and the queued paths come
    in increasing order of position sequence, those of [S k] hops counted
    before those of [k] hops that are still to be expanded. *)
Definition least (adj : gmap string (list Neighbor.t)) (startId : string)
    (queue : list (string * RelationshipPath)) : Prop :=
  ∀ u path rs, (u, path) ∈ queue → trail adj startId u rs → length rs = hops path →
    lex_le (ranks adj (pathIds path)) rs.

Definition first_inv (people : list Person.t) (adj : gmap string (list Neighbor.t))
    (endId startId : string) (startNode : Person.t)
    (queue : list (string * RelationshipPath)) (visited : gset string) : Prop :=
  queue_inv people adj startId startNode queue visited ∧
  expanded adj endId queue visited ∧
  least adj startId queue ∧
  ∃ k q1 q2,
    levels adj startId queue visited k q1 q2 ∧
    StronglySorted lex_lt
      ((fun item => ranks adj (pathIds item.2)) <$> (q2 ++ q1)).

(** Both endpoints of the record name a person of the person set. *)
Definition endpoints_known (people : list Person.t) (rel : StoredRelationship.t) : Prop :=
  is_Some (find_person people (StoredRelationship.fromPersonId rel)) ∧
  is_Some (find_person people (StoredRelationship.toPersonId rel)).

#[global] Instance endpoints_known_dec people rel : Decision (endpoints_known people rel).
Proof. unfold endpoints_known. apply _. Defined.

(** ** The tables of the specification *)






(** The same table read on the kinds of the hops rather than on the text of
    their labels. A hop runs along a stored record, from its source, or
    against it, from its target; its label is the one the builder writes,
    which against a FATHER or MOTHER record quotes the name of the parent;
    its kind is what section 4.1 of the specification calls the label. *)
Inductive HopKind := ParentOf | ChildOf | SpouseOf | SiblingOf.

#[global] Instance HopKind_eq_dec : EqDecision HopKind.
Proof. solve_decision. Defined.












(** The classifier on a path of two segments, as the specification words
    it: whatever label the first segment carries is classified or echoed. *)
Definition direct_sentence (startPerson endPerson : Person.t) (label : string) : string :=
  if startsWith label "is child of" then
    Person.name startPerson +:+ " is child of " +:+ Person.name endPerson +:+ "."
  else if includes label "is sibling of" then
    Person.name startPerson +:+ " and " +:+ Person.name endPerson +:+ " are siblings."
  else
    Person.name startPerson +:+ " " +:+ label +:+ " " +:+ Person.name endPerson +:+ ".".

(** The order of edges that the specification words: all FATHER records,
    then all MOTHER, SPOUSE and SIBLING records, each group in input
    order. *)
Definition ofKind (ty : DirectRelationshipType)
    (relationships : list StoredRelationship.t) : list StoredRelationship.t :=
  filter (fun rel => StoredRelationship.type rel = ty) relationships.

Definition kindOrder (relationships : list StoredRelationship.t)
    : list StoredRelationship.t :=
  ofKind FATHER relationships ++ ofKind MOTHER relationships ++
  ofKind SPOUSE relationships ++ ofKind SIBLING relationships.

(** ** Scenario data of the specification *)

Definition personA : Person.t := person "a" "A" male.
Definition personB : Person.t := person "b" "B" female.
Definition personC : Person.t := person "c" "C" unknown.
Definition personD : Person.t := person "d" "D" other.

(** A is the father of B, B is the mother of C; D is related to no one. *)
Definition grandparent_people : list Person.t := [ personA; personB; personC; personD ].
Definition grandparent_relationships : list StoredRelationship.t :=
  [ StoredRelationship.mk "r1" "a" "b" FATHER;
    StoredRelationship.mk "r2" "b" "c" MOTHER ].

Definition grandparent_path : RelationshipPath :=
  [ PathSegment.mk personA (Some "is father of") (Some "r1");
    PathSegment.mk personB (Some "is mother of") (Some "r2");
    PathSegment.mk personC None None ].

(** A has a sibling B and a child C, listed in that order; D is the spouse
    of both B and C, so that A reaches D in two hops either way. *)
Definition tie_people : list Person.t := [ personA; personB; personC; personD ].
Definition tie_relationships : list StoredRelationship.t :=
  [ StoredRelationship.mk "s1" "a" "b" SIBLING;
    StoredRelationship.mk "f1" "a" "c" FATHER;
    StoredRelationship.mk "p1" "b" "d" SPOUSE;
    StoredRelationship.mk "p2" "c" "d" SPOUSE ].

(** ** Looking up the id of a relationship (utils/graphPathfinder.ts) *)

(** The predicate handed to [relationships.find] by [findRelationshipId]. *)
Definition relationshipMatches (p1Id p2Id typePrefix : string)
    (r : StoredRelationship.t) : bool :=
  let typeMatches :=
    if includes typePrefix "father" &&
       bool_decide (StoredRelationship.type r = FATHER) then true
    else if includes typePrefix "mother" &&
            bool_decide (StoredRelationship.type r = MOTHER) then true
    else if includes typePrefix "spouse" &&
            bool_decide (StoredRelationship.type r = SPOUSE) then true
    else if includes typePrefix "sibling" &&
            bool_decide (StoredRelationship.type r = SIBLING) then true
    else false in
  if negb typeMatches then false
  else if startsWith typePrefix "is child of" then
    String.eqb (StoredRelationship.toPersonId r) p1Id &&
    String.eqb (StoredRelationship.fromPersonId r) p2Id
  else if bool_decide (StoredRelationship.type r = SIBLING) then
    (String.eqb (StoredRelationship.fromPersonId r) p1Id &&
     String.eqb (StoredRelationship.toPersonId r) p2Id) ||
    (String.eqb (StoredRelationship.fromPersonId r) p2Id &&
     String.eqb (StoredRelationship.toPersonId r) p1Id)
  else
    String.eqb (StoredRelationship.fromPersonId r) p1Id &&
    String.eqb (StoredRelationship.toPersonId r) p2Id.

(** [relationships.find(r => ...)?.id] *)
Definition findRelationshipId (p1Id p2Id typePrefix : string)
    (relationships : list StoredRelationship.t) : option string :=
  StoredRelationship.id <$> find (relationshipMatches p1Id p2Id typePrefix) relationships.

(** ** The state of the application and its handlers (App.tsx) *)

Inductive ActiveView := ManageFamily | FindChain.

Module HighlightedPathInfo.
Record t := mk {
  nodeIds : gset string;
  linkIds : gset string
}.
End HighlightedPathInfo.

(** The [useState] cells of [App]. *)
Module App.
Record t := mk {
  people : list Person.t;
  relationships : list StoredRelationship.t;
  activeView : ActiveView;
  error : option string;
  highlightedPathInfo : option HighlightedPathInfo.t;
  editingPerson : option Person.t;
  isEditModalOpen : bool
}.
Definition setPeople (v : list Person.t) (st : t) : t :=
  mk v (relationships st) (activeView st) (error st) (highlightedPathInfo st)
     (editingPerson st) (isEditModalOpen st).
Definition setRelationships (v : list StoredRelationship.t) (st : t) : t :=
  mk (people st) v (activeView st) (error st) (highlightedPathInfo st)
     (editingPerson st) (isEditModalOpen st).
Definition setActiveView (v : ActiveView) (st : t) : t :=
  mk (people st) (relationships st) v (error st) (highlightedPathInfo st)
     (editingPerson st) (isEditModalOpen st).
Definition setError (v : option string) (st : t) : t :=
  mk (people st) (relationships st) (activeView st) v (highlightedPathInfo st)
     (editingPerson st) (isEditModalOpen st).
Definition setHighlightedPathInfo (v : option HighlightedPathInfo.t) (st : t) : t :=
  mk (people st) (relationships st) (activeView st) (error st) v
     (editingPerson st) (isEditModalOpen st).
Definition setEditingPerson (v : option Person.t) (st : t) : t :=
  mk (people st) (relationships st) (activeView st) (error st) (highlightedPathInfo st)
     v (isEditModalOpen st).
Definition setIsEditModalOpen (v : bool) (st : t) : t :=
  mk (people st) (relationships st) (activeView st) (error st) (highlightedPathInfo st)
     (editingPerson st) v.
End App.

(** [type.toLowerCase()] on the values of the enum. *)
Definition typeLowerCase (type : DirectRelationshipType) : string :=
  match type with
  | FATHER => "father"
  | MOTHER => "mother"
  | SPOUSE => "spouse"
  | SIBLING => "sibling"
  end.

(** The predicate of the duplicate check of [updateRelationship]. *)
Definition duplicates (id fromPersonId toPersonId : string)
    (type : DirectRelationshipType) (r : StoredRelationship.t) : bool :=
  negb (String.eqb (StoredRelationship.id r) id) &&
  ((String.eqb (StoredRelationship.fromPersonId r) fromPersonId &&
    String.eqb (StoredRelationship.toPersonId r) toPersonId &&
    bool_decide (StoredRelationship.type r = type)) ||
   ((bool_decide (type = SPOUSE) || bool_decide (type = SIBLING)) &&
    String.eqb (StoredRelationship.fromPersonId r) toPersonId &&
    String.eqb (StoredRelationship.toPersonId r) fromPersonId &&
    bool_decide (StoredRelationship.type r = type))).

(** The predicate of its parent check. *)
Definition otherParent (id toPersonId : string) (type : DirectRelationshipType)
    (r : StoredRelationship.t) : bool :=
  negb (String.eqb (StoredRelationship.id r) id) &&
  String.eqb (StoredRelationship.toPersonId r) toPersonId &&
  bool_decide (StoredRelationship.type r = type).

(** [r.id === id ? { ...r, fromPersonId, toPersonId, type } : r] *)
Definition rewriteRelationship (id fromPersonId toPersonId : string)
    (type : DirectRelationshipType) (r : StoredRelationship.t) : StoredRelationship.t :=
  if String.eqb (StoredRelationship.id r) id
  then StoredRelationship.mk (StoredRelationship.id r) fromPersonId toPersonId type
  else r.

(** [updateRelationship(id, fromPersonId, toPersonId, type)]: the boolean it
    returns and the state it leaves. The functional update of the
    relationships runs on the list the checks have read. *)
Definition updateRelationship (st : App.t) (id fromPersonId toPersonId : string)
    (type : DirectRelationshipType) : bool * App.t :=
  let st := App.setError None st in
  if String.eqb fromPersonId toPersonId then
    (false, App.setError (Some "Cannot form a relationship with oneself.") st)
  else
    match find (duplicates id fromPersonId toPersonId type) (App.relationships st) with
    | Some _ => (false, App.setError (Some "This relationship already exists.") st)
    | None =>
        let rejected :=
          if bool_decide (type = FATHER) || bool_decide (type = MOTHER) then
            match find (otherParent id toPersonId type) (App.relationships st) with
            | Some existingParent =>
                negb (String.eqb (StoredRelationship.fromPersonId existingParent)
                        fromPersonId)
            | None => false
            end
          else false in
        if rejected then
          (false,
           App.setError
             (Some ("This person already has a " +:+ typeLowerCase type +:+ " assigned."))
             st)
        else
          (true,
           App.setHighlightedPathInfo None
             (App.setRelationships
                (rewriteRelationship id fromPersonId toPersonId type <$>
                 App.relationships st) st))
    end.

(** [deletePerson(personId)]; [confirmed] is the answer of
    [window.confirm]. *)
Definition deletePerson (confirmed : bool) (st : App.t) (personId : string) : App.t :=
  if negb confirmed then st
  else
    App.setIsEditModalOpen false
      (App.setEditingPerson None
         (App.setHighlightedPathInfo None
            (App.setRelationships
               (filter (fun r => StoredRelationship.fromPersonId r ≠ personId ∧
                                 StoredRelationship.toPersonId r ≠ personId)
                  (App.relationships st))
               (App.setPeople
                  (filter (fun p => Person.id p ≠ personId) (App.people st)) st)))).

(** [deleteRelationship(relationshipId)] *)
Definition deleteRelationship (confirmed : bool) (st : App.t)
    (relationshipId : string) : App.t :=
  if negb confirmed then st
  else
    App.setHighlightedPathInfo None
      (App.setRelationships
         (filter (fun r => StoredRelationship.id r ≠ relationshipId)
            (App.relationships st)) st).

(** [handleOpenEditModal(personId)] *)
Definition handleOpenEditModal (st : App.t) (personId : string) : App.t :=
  match find_person (App.people st) personId with
  | Some person =>
      App.setError None (App.setIsEditModalOpen true (App.setEditingPerson (Some person) st))
  | None => App.setError (Some "Could not find person to edit.") st
  end.

(** The body of [path.forEach(segment => ...)]. *)
Definition collectSegment (acc : gset string * gset string) (segment : PathSegment.t)
    : gset string * gset string :=
  let nodeIds := acc.1 ∪ {[ Person.id (PathSegment.person segment) ]} in
  match PathSegment.relationshipId segment with
  | Some relationshipId =>
      if truthy (Some relationshipId)
      then (nodeIds, acc.2 ∪ {[ relationshipId ]})
      else (nodeIds, acc.2)
  | None => (nodeIds, acc.2)
  end.

(** [handleHighlightPath(path)] *)
Definition handleHighlightPath (path : option RelationshipPath) (st : App.t) : App.t :=
  match path with
  | None => App.setHighlightedPathInfo None st
  | Some [] => App.setHighlightedPathInfo None st
  | Some path =>
      let '(nodeIds, linkIds) := foldl collectSegment (∅, ∅) path in
      let linkIds := if length path =? 1 then ∅ else linkIds in
      App.setActiveView ManageFamily
        (App.setHighlightedPathInfo (Some (HighlightedPathInfo.mk nodeIds linkIds)) st)
  end.

(** The fields that [graphNodes] and [graphLinks] give to the nodes and
    links they hand to the renderer. *)
Module GraphNode.
Record t := mk {
  id : string;
  name : string;
  gender : Gender;
  birthDate : option string;
  profilePicUrl : option string;
  isHighlighted : bool;
  radius : nat
}.
End GraphNode.

Module GraphLink.
Record t := mk {
  id : string;
  source : string;
  target : string;
  type : DirectRelationshipType;
  isHighlighted : bool
}.
End GraphLink.

(** [highlightedPathInfo?.nodeIds.has(id) ?? false] *)
Definition nodeHighlighted (st : App.t) (id : string) : bool :=
  match App.highlightedPathInfo st with
  | Some info => bool_decide (id ∈ HighlightedPathInfo.nodeIds info)
  | None => false
  end.

Definition linkHighlighted (st : App.t) (id : string) : bool :=
  match App.highlightedPathInfo st with
  | Some info => bool_decide (id ∈ HighlightedPathInfo.linkIds info)
  | None => false
  end.

Definition graphNodes (st : App.t) : list GraphNode.t :=
  (fun p => GraphNode.mk (Person.id p) (Person.name p) (Person.gender p)
              (Person.birthDate p) (Person.profilePicUrl p)
              (nodeHighlighted st (Person.id p)) 25) <$> App.people st.

Definition graphLinks (st : App.t) : list GraphLink.t :=
  (fun r => GraphLink.mk (StoredRelationship.id r) (StoredRelationship.fromPersonId r)
              (StoredRelationship.toPersonId r) (StoredRelationship.type r)
              (linkHighlighted st (StoredRelationship.id r))) <$> App.relationships st.

Definition hasHighlight (st : App.t) : bool :=
  match App.highlightedPathInfo st with
  | Some info =>
      (0 <? size (HighlightedPathInfo.nodeIds info)) ||
      (0 <? size (HighlightedPathInfo.linkIds info))
  | None => false
  end.

(** ** The relationship editor of a person (components/EditPersonModal.tsx) *)

(** [{ ...r, otherPerson, isFrom }] *)
Module PersonRelationship.
Record t := mk {
  id : string;
  fromPersonId : string;
  toPersonId : string;
  type : DirectRelationshipType;
  otherPerson : option Person.t;
  isFrom : bool
}.
End PersonRelationship.

Definition viewRelationship (personToEdit : Person.t) (people : list Person.t)
    (r : StoredRelationship.t) : PersonRelationship.t :=
  let isFrom := String.eqb (StoredRelationship.fromPersonId r) (Person.id personToEdit) in
  let otherPersonId :=
    if isFrom then StoredRelationship.toPersonId r else StoredRelationship.fromPersonId r in
  PersonRelationship.mk (StoredRelationship.id r) (StoredRelationship.fromPersonId r)
    (StoredRelationship.toPersonId r) (StoredRelationship.type r)
    (find_person people otherPersonId) isFrom.

(** The memo [personRelationships]. *)
Definition personRelationships (personToEdit : option Person.t)
    (relationships : list StoredRelationship.t) (people : list Person.t)
    : list PersonRelationship.t :=
  match personToEdit with
  | None => []
  | Some personToEdit =>
      viewRelationship personToEdit people <$>
      filter (fun r => StoredRelationship.fromPersonId r = Person.id personToEdit ∨
                       StoredRelationship.toPersonId r = Person.id personToEdit)
        relationships
  end.

(** [DirectRelationshipType | 'CHILD'] *)
Inductive EditingRelType := Direct (type : DirectRelationshipType) | CHILD.

(** [startEditingRel(rel)]: the new [editingRelId] and [editingRelType]. *)
Definition startEditingRel (rel : PersonRelationship.t) : option string * EditingRelType :=
  (Some (PersonRelationship.id rel),
   if PersonRelationship.isFrom rel then Direct (PersonRelationship.type rel)
   else if bool_decide (PersonRelationship.type rel = FATHER) ||
           bool_decide (PersonRelationship.type rel = MOTHER)
        then CHILD
        else Direct (PersonRelationship.type rel)).

(** [saveRelEdit(rel)], over the state [S] that the callback
    [onUpdateRelationship] works on: the new [editingRelId] and the state
    the callback leaves. *)
Definition saveRelEdit {S : Type}
    (onUpdateRelationship :
       string → string → string → DirectRelationshipType → S → bool * S)
    (personToEdit : Person.t) (editingRelType : EditingRelType)
    (editingRelId : option string) (rel : PersonRelationship.t) (outer : S)
    : option string * S :=
  match PersonRelationship.otherPerson rel with
  | None => (editingRelId, outer)
  | Some otherPerson =>
      let '(fromId, toId, type) :=
        match editingRelType with
        | CHILD =>
            (Person.id otherPerson, Person.id personToEdit,
             match Person.gender otherPerson with
             | male => FATHER
             | female => MOTHER
             | _ => FATHER
             end)
        | Direct type => (Person.id personToEdit, Person.id otherPerson, type)
        end in
      let '(success, outer') :=
        onUpdateRelationship (PersonRelationship.id rel) fromId toId type outer in
      (if success then None else editingRelId, outer')
  end.

(** ** The chain finder (components/RelationshipChainFinder.tsx) *)

(** The [useState] cells of [RelationshipChainFinder]. *)
Module ChainFinder.
Record t := mk {
  personAId : string;
  personBId : string;
  foundPath : option RelationshipPath;
  derivedRelationship : option string;
  isLoading : bool;
  error : option string
}.
Definition setFoundPath (v : option RelationshipPath) (fs : t) : t :=
  mk (personAId fs) (personBId fs) v (derivedRelationship fs) (isLoading fs) (error fs).
Definition setDerivedRelationship (v : option string) (fs : t) : t :=
  mk (personAId fs) (personBId fs) (foundPath fs) v (isLoading fs) (error fs).
Definition setIsLoading (v : bool) (fs : t) : t :=
  mk (personAId fs) (personBId fs) (foundPath fs) (derivedRelationship fs) v (error fs).
Definition setError (v : option string) (fs : t) : t :=
  mk (personAId fs) (personBId fs) (foundPath fs) (derivedRelationship fs) (isLoading fs) v.
End ChainFinder.

(** [resetSearch()], over the state [S] that the callback [onHighlightPath]
    works on. *)
Definition resetSearch {S : Type} (onHighlightPath : option RelationshipPath → S → S)
    (fs : ChainFinder.t) (outer : S) : ChainFinder.t * S :=
  (ChainFinder.setError None
     (ChainFinder.setDerivedRelationship None (ChainFinder.setFoundPath None fs)),
   onHighlightPath None outer).

(** [handleFindPath()], as the state stands once the timer it sets has
    fired, no other event coming in between. State updates of one handler
    are applied in the order of the calls, the last one to a cell winning. An
    exception of the search escapes the timer callback and leaves the
    handler unfinished. *)
Definition handleFindPath {S : Type} (onHighlightPath : option RelationshipPath → S → S)
    (people : list Person.t) (relationships : list StoredRelationship.t)
    (fs : ChainFinder.t) (outer : S) : outcome (ChainFinder.t * S) :=
  if String.eqb (ChainFinder.personAId fs) "" || String.eqb (ChainFinder.personBId fs) ""
  then
    Returned
      (resetSearch onHighlightPath
         (ChainFinder.setError (Some "Please select both Person A and Person B.") fs)
         outer)
  else
    let '(fs, outer) := resetSearch onHighlightPath fs outer in
    let fs := ChainFinder.setIsLoading true fs in
    if String.eqb (ChainFinder.personAId fs) (ChainFinder.personBId fs) then
      match find_person people (ChainFinder.personAId fs) with
      | Some person =>
          Returned
            (ChainFinder.setIsLoading false
               (ChainFinder.setDerivedRelationship
                  (Some (Person.name person +:+ " is themselves."))
                  (ChainFinder.setFoundPath (Some [ bareSegment person ]) fs)),
             outer)
      | None => Returned (ChainFinder.setIsLoading false fs, outer)
      end
    else
      match findRelationshipPath (ChainFinder.personAId fs) (ChainFinder.personBId fs)
              people relationships with
      | Returned path =>
          let fs := ChainFinder.setFoundPath path fs in
          let fs :=
            match path with
            | Some _ =>
                ChainFinder.setDerivedRelationship
                  (deriveComplexRelationship path people) fs
            | None =>
                ChainFinder.setError
                  (Some "No relationship path found between the selected individuals.")
                  fs
            end in
          Returned (ChainFinder.setIsLoading false fs, outer)
      | Thrown => Thrown
      | OutOfFuel => OutOfFuel
      end.

(** [handleShowOnGraphClick()] *)
Definition handleShowOnGraphClick {S : Type}
    (onHighlightPath : option RelationshipPath → S → S)
    (fs : ChainFinder.t) (outer : S) : S :=
  match ChainFinder.foundPath fs with
  | Some foundPath => onHighlightPath (Some foundPath) outer
  | None => outer
  end.

(** Conditions on a set of relationships that the checks of
    [updateRelationship] are about: nobody is related to themselves; no two
    records with different ids say the same thing (same kind and same pair
    of people, in either order for the symmetric kinds); the FATHER records
    (and the MOTHER records) of one child all carry one id. *)
Definition no_self_edges (relationships : list StoredRelationship.t) : Prop :=
  ∀ r, r ∈ relationships →
    StoredRelationship.fromPersonId r ≠ StoredRelationship.toPersonId r.

Definition same_link (r r' : StoredRelationship.t) : Prop :=
  StoredRelationship.type r' = StoredRelationship.type r ∧
  ((StoredRelationship.fromPersonId r' = StoredRelationship.fromPersonId r ∧
    StoredRelationship.toPersonId r' = StoredRelationship.toPersonId r) ∨
   ((StoredRelationship.type r = SPOUSE ∨ StoredRelationship.type r = SIBLING) ∧
    StoredRelationship.fromPersonId r' = StoredRelationship.toPersonId r ∧
    StoredRelationship.toPersonId r' = StoredRelationship.fromPersonId r)).

Definition no_duplicates (relationships : list StoredRelationship.t) : Prop :=
  ∀ r r', r ∈ relationships → r' ∈ relationships →
    StoredRelationship.id r' ≠ StoredRelationship.id r → ¬ same_link r r'.

Definition single_parents (relationships : list StoredRelationship.t) : Prop :=
  ∀ r r', r ∈ relationships → r' ∈ relationships →
    StoredRelationship.type r = FATHER ∨ StoredRelationship.type r = MOTHER →
    StoredRelationship.type r' = StoredRelationship.type r →
    StoredRelationship.toPersonId r' = StoredRelationship.toPersonId r →
    StoredRelationship.id r' = StoredRelationship.id r.

(** [App] hands [updateRelationship] to the editor as its
    [onUpdateRelationship], and [handleHighlightPath] to the chain finder as
    its [onHighlightPath]. *)
Definition onUpdateRelationship (id fromPersonId toPersonId : string)
    (type : DirectRelationshipType) (st : App.t) : bool * App.t :=
  updateRelationship st id fromPersonId toPersonId type.

(** A listed relationship is opened for editing and saved with the kind as
    [startEditingRel] has set it. *)
Definition saveUnchanged (personToEdit : Person.t) (rel : PersonRelationship.t)
    (st : App.t) : option string * App.t :=
  let '(editingRelId, editingRelType) := startEditingRel rel in
  saveRelEdit onUpdateRelationship personToEdit editingRelType editingRelId rel st.

(** The sentences for two people joined by one stored relationship, read
    from the side of its source and from the side of its target. *)
Definition forwardSentence (type : DirectRelationshipType) (x y : Person.t) : string :=
  match type with
  | SIBLING => Person.name x +:+ " and " +:+ Person.name y +:+ " are siblings."
  | _ => Person.name x +:+ " " +:+ forwardLabel type +:+ " " +:+ Person.name y +:+ "."
  end.

Definition reverseSentence (type : DirectRelationshipType) (x y : Person.t) : string :=
  match type with
  | FATHER | MOTHER => Person.name x +:+ " is child of " +:+ Person.name y +:+ "."
  | SPOUSE => Person.name x +:+ " is spouse of " +:+ Person.name y +:+ "."
  | SIBLING => Person.name x +:+ " and " +:+ Person.name y +:+ " are siblings."
  end.

(** The state from which [App] starts. *)
Definition initialApp : App.t :=
  App.mk INITIAL_PEOPLE INITIAL_RELATIONSHIPS ManageFamily None None None false.

(** The application holding the family of the grandparent scenario. *)
Definition grandparentApp : App.t :=
  App.mk grandparent_people grandparent_relationships FindChain None None None false.

(** The chain finder with a selection and nothing searched yet. *)
Definition selected (a b : string) : ChainFinder.t :=
  ChainFinder.mk a b None None false None.

(** ** Facts about [find_person] *)

Lemma find_person_Some people pid p :
  find_person people pid = Some p → p ∈ people ∧ Person.id p = pid.
Proof.
  unfold find_person. intros H. apply find_some in H as [Hin Heq].
  split; [by apply list_elem_of_In | by apply String.eqb_eq].
Qed.

Lemma find_person_None people pid :
  find_person people pid = None ↔ ∀ p, p ∈ people → Person.id p ≠ pid.
Proof.
  unfold find_person. split.
  - intros H p Hin Heq. apply list_elem_of_In in Hin.
    pose proof (find_none _ _ H p Hin) as Hn. simpl in Hn.
    apply String.eqb_neq in Hn. done.
  - intros H. induction people as [|q people IH]; [done|]. simpl.
    destruct (String.eqb_spec (Person.id q) pid) as [Heq|Hne].
    + exfalso. eapply H; [|exact Heq]. left.
    + apply IH. intros p Hp. apply H. by right.
Qed.

Lemma find_person_is_Some people pid :
  is_Some (find_person people pid) ↔ ∃ p, p ∈ people ∧ Person.id p = pid.
Proof.
  split.
  - intros [p Hp]. exists p. by apply find_person_Some.
  - intros (p & Hin & Hid). destruct (find_person people pid) eqn:E; [eauto|].
    exfalso. rewrite find_person_None in E. by eapply E.
Qed.

(** ** The builder never throws and lists the entries in input order *)

Lemma adj_init_lookup_gen people (acc : gmap string (list Neighbor.t)) u :
  foldl (fun adj person => <[Person.id person := []]> adj) acc people !! u =
  if find_person people u is Some _ then Some [] else acc !! u.
Proof.
  revert acc. induction people as [|q people IH]; intros acc; [done|].
  simpl. rewrite IH. unfold find_person. simpl.
  destruct (String.eqb_spec (Person.id q) u) as [Heq|Hne].
  - fold (find_person people u). destruct (find_person people u); [done|].
    subst. by rewrite lookup_insert_eq.
  - fold (find_person people u). destruct (find_person people u); [done|].
    by rewrite lookup_insert_ne.
Qed.

Lemma adj_init_lookup people u :
  adj_init people !! u = if find_person people u is Some _ then Some [] else None.
Proof. unfold adj_init. rewrite adj_init_lookup_gen. by rewrite lookup_empty. Qed.

(** The four cases of the [switch] push the same two entries up to the
    label texts. *)
Lemma add_relationship_entries people adj rel :
  add_relationship people adj rel =
  match find_person people (StoredRelationship.fromPersonId rel),
        find_person people (StoredRelationship.toPersonId rel) with
  | Some fromPerson, Some _ =>
      adj1 ← adj_push (StoredRelationship.fromPersonId rel) (forwardEntry rel) adj;
      adj_push (StoredRelationship.toPersonId rel) (reverseEntry rel fromPerson) adj1
  | _, _ => Some adj
  end.
Proof.
  unfold add_relationship, forwardEntry, reverseEntry, forwardLabel, reverseLabel.
  destruct (find_person _ _); [|done]. destruct (find_person _ _); [|done].
  by destruct (StoredRelationship.type rel).
Qed.

Lemma adj_push_holds people f adj k e :
  adj_holds people f adj → is_Some (find_person people k) →
  ∃ adj', adj_push k e adj = Some adj' ∧
    adj_holds people (fun u => f u ++ if decide (k = u) then [e] else []) adj'.
Proof.
  intros Hadj [p Hp]. unfold adj_push. rewrite (Hadj k), Hp.
  eexists; split; [done|]. intros u.
  destruct (decide (k = u)) as [->|Hne].
  - by rewrite lookup_insert_eq, Hp.
  - rewrite lookup_insert_ne by done. rewrite (Hadj u), app_nil_r. done.
Qed.

Lemma add_relationship_holds people f adj rel :
  adj_holds people f adj →
  ∃ adj', add_relationship people adj rel = Some adj' ∧
    adj_holds people (fun u => f u ++ entriesAt people u rel) adj'.
Proof.
  intros Hadj. rewrite add_relationship_entries. unfold entriesAt.
  destruct (find_person people (StoredRelationship.fromPersonId rel)) as [fp|] eqn:Hf;
    [|exists adj; split; [done|]; intros u; rewrite (Hadj u), app_nil_r; done].
  destruct (find_person people (StoredRelationship.toPersonId rel)) as [tp|] eqn:Ht;
    [|exists adj; split; [done|]; intros u; rewrite (Hadj u), app_nil_r; done].
  destruct (adj_push_holds people f adj (StoredRelationship.fromPersonId rel)
              (forwardEntry rel) Hadj) as (adj1 & E1 & H1); [by rewrite Hf|].
  destruct (adj_push_holds people _ adj1 (StoredRelationship.toPersonId rel)
              (reverseEntry rel fp) H1) as (adj2 & E2 & H2); [by rewrite Ht|].
  exists adj2. rewrite E1. simpl. split; [done|].
  intros u. rewrite (H2 u). destruct (find_person people u); [|done].
  by rewrite <- app_assoc.
Qed.

Lemma add_relationships_holds people relationships : ∀ f adj,
  adj_holds people f adj →
  ∃ adj', add_relationships people relationships adj = Some adj' ∧
    adj_holds people (fun u => f u ++ edgesOf people relationships u) adj'.
Proof.
  induction relationships as [|rel rest IH]; intros f adj Hadj.
  - exists adj. split; [done|]. intros u. rewrite (Hadj u).
    unfold edgesOf. by rewrite app_nil_r.
  - destruct (add_relationship_holds people f adj rel Hadj) as (adj1 & E1 & H1).
    destruct (IH _ adj1 H1) as (adj2 & E2 & H2).
    exists adj2. split; [cbn [add_relationships]; by rewrite E1|].
    intros u. rewrite (H2 u). destruct (find_person people u); [|done].
    unfold edgesOf. rewrite bind_cons. by rewrite <- app_assoc.
Qed.

(** The builder always succeeds, and the list it leaves at a known id is the
    concatenation, in the order of the input records, of what each record
    contributes. *)
Lemma buildAdj_total people relationships :
  ∃ adj, buildAdj people relationships = Some adj ∧
    adj_holds people (edgesOf people relationships) adj.
Proof.
  unfold buildAdj.
  destruct (add_relationships_holds people relationships (fun _ => []) (adj_init people))
    as (adj & E & H).
  - intros u. apply adj_init_lookup.
  - exists adj. split; [done|]. intros u. rewrite (H u). done.
Qed.

Lemma buildAdj_lookup people relationships adj u :
  buildAdj people relationships = Some adj →
  adj !! u = if find_person people u is Some _ then Some (edgesOf people relationships u) else None.
Proof.
  intros E. destruct (buildAdj_total people relationships) as (adj' & E' & H).
  rewrite E in E'. injection E' as ->. apply H.
Qed.

(** Every entry of the built adjacency structure leads to a known person. *)
Lemma entriesAt_known people u rel entry :
  entry ∈ entriesAt people u rel →
  is_Some (find_person people (Neighbor.personId entry)) ∧ is_Some (find_person people u).
Proof.
  unfold entriesAt.
  destruct (find_person people (StoredRelationship.fromPersonId rel)) as [fp|] eqn:Hf;
    [|by intros ?%elem_of_nil].
  destruct (find_person people (StoredRelationship.toPersonId rel)) as [tp|] eqn:Ht;
    [|by intros ?%elem_of_nil].
  rewrite elem_of_app. intros [H|H].
  - destruct (decide _) as [<-|]; [|by apply elem_of_nil in H].
    apply list_elem_of_singleton in H as ->. simpl. by rewrite Hf, Ht.
  - destruct (decide _) as [<-|]; [|by apply elem_of_nil in H].
    apply list_elem_of_singleton in H as ->. simpl. by rewrite Hf, Ht.
Qed.

Lemma buildAdj_known people relationships adj u l entry :
  buildAdj people relationships = Some adj →
  adj !! u = Some l → entry ∈ l →
  is_Some (find_person people (Neighbor.personId entry)).
Proof.
  intros E Hl Hin. rewrite (buildAdj_lookup _ _ _ u E) in Hl.
  destruct (find_person people u); [|done]. injection Hl as <-.
  unfold edgesOf in Hin. apply list_elem_of_bind in Hin as (rel & Hin & _).
  by apply entriesAt_known in Hin as [? _].
Qed.

(** ** The inner loop, in closed form *)

Lemma visit_neighbors_fresh people currentPath neighbors : ∀ queue visited,
  visit_neighbors people currentPath neighbors queue visited =
  (queue ++ (fresh visited neighbors ≫= enqueued people currentPath),
   visited ∪ list_to_set (Neighbor.personId <$> fresh visited neighbors)).
Proof.
  induction neighbors as [|n rest IH]; intros queue visited; simpl.
  - rewrite app_nil_r. f_equal. set_solver.
  - destruct (decide (Neighbor.personId n ∈ visited)) as [Hin|Hnin].
    + apply IH.
    + rewrite bind_cons, fmap_cons.
      assert (enqueued people currentPath n =
              match find_person people (Neighbor.personId n) with
              | Some np => [(Neighbor.personId n, extendPath currentPath n np)]
              | None => []
              end) as -> by done.
      destruct (find_person people (Neighbor.personId n)) as [np|].
      * rewrite IH, <- app_assoc. f_equal. set_solver.
      * rewrite IH. f_equal. set_solver.
Qed.

Lemma fresh_elem visited neighbors entry :
  entry ∈ fresh visited neighbors →
  entry ∈ neighbors ∧ Neighbor.personId entry ∉ visited.
Proof.
  revert visited. induction neighbors as [|n rest IH]; intros visited; simpl.
  - by intros ?%elem_of_nil.
  - destruct (decide _) as [Hin|Hnin].
    + intros H. destruct (IH _ H) as [? ?]. split; [by right|done].
    + rewrite elem_of_cons. intros [Heq|H].
      * subst. split; [left|done].
      * destruct (IH _ H) as [? ?]. split; [by right|set_solver].
Qed.

Lemma fresh_cover visited neighbors entry :
  entry ∈ neighbors →
  Neighbor.personId entry ∈
    visited ∪ list_to_set (C := gset string) (Neighbor.personId <$> fresh visited neighbors).
Proof.
  revert visited. induction neighbors as [|n rest IH]; intros visited; simpl.
  - by intros ?%elem_of_nil.
  - rewrite elem_of_cons. destruct (decide _) as [Hin|Hnin].
    + intros [Heq|H]; [subst; set_solver|by apply IH].
    + intros [Heq|H]; [subst; set_solver|].
      pose proof (IH (visited ∪ {[Neighbor.personId n]}) H). set_solver.
Qed.

Lemma fresh_NoDup visited neighbors :
  NoDup (Neighbor.personId <$> fresh visited neighbors).
Proof.
  revert visited. induction neighbors as [|n rest IH]; intros visited; simpl.
  - constructor.
  - destruct (decide _) as [Hin|Hnin]; [apply IH|].
    rewrite fmap_cons. constructor; [|apply IH].
    intros H. apply list_elem_of_fmap in H as (e & Heq & He).
    apply fresh_elem in He as [_ He]. set_solver.
Qed.

Lemma fresh_first visited neighbors entry :
  entry ∈ fresh visited neighbors → first_toward neighbors entry.
Proof.
  revert visited. induction neighbors as [|n rest IH]; intros visited; simpl.
  - by intros ?%elem_of_nil.
  - destruct (decide _) as [Hin|Hnin].
    + intros H. destruct (fresh_elem _ _ _ H) as [_ Hnew].
      destruct (IH _ H) as (l1 & l2 & -> & Hl1). exists (n :: l1), l2.
      split; [done|]. intros earlier [->|He]%elem_of_cons; [|by apply Hl1].
      by intros Heq; rewrite Heq in Hin.
    + rewrite elem_of_cons. intros [->|H].
      * exists [], rest. split; [done|]. by intros ? ?%elem_of_nil.
      * destruct (fresh_elem _ _ _ H) as [_ Hnew].
        destruct (IH _ H) as (l1 & l2 & -> & Hl1). exists (n :: l1), l2.
        split; [done|]. intros earlier [->|He]%elem_of_cons; [|by apply Hl1].
        intros Heq. apply Hnew. rewrite Heq. set_solver.
Qed.

Lemma elem_of_enqueued people currentPath found w path :
  (w, path) ∈ found ≫= enqueued people currentPath ↔
  ∃ entry neighborPerson, entry ∈ found ∧
    find_person people (Neighbor.personId entry) = Some neighborPerson ∧
    w = Neighbor.personId entry ∧
    path = extendPath currentPath entry neighborPerson.
Proof.
  rewrite list_elem_of_bind. unfold enqueued. split.
  - intros (entry & Hin & Hentry).
    destruct (find_person people (Neighbor.personId entry)) as [np|] eqn:E;
      [|by apply elem_of_nil in Hin].
    apply list_elem_of_singleton in Hin. injection Hin as -> ->.
    by exists entry, np.
  - intros (entry & np & Hentry & E & -> & ->). exists entry.
    rewrite E. split; [apply list_elem_of_singleton; done|done].
Qed.

(** ** Extending a path by one hop *)

Lemma extendPath_snoc init lastSegment entry neighborPerson :
  extendPath (init ++ [lastSegment]) entry neighborPerson =
  init ++ [ PathSegment.mk (PathSegment.person lastSegment)
              (Some (Neighbor.relationshipLabel entry))
              (Neighbor.relationshipId entry);
            bareSegment neighborPerson ].
Proof. unfold extendPath. by rewrite last_snoc, removelast_last. Qed.

Lemma extendPath_nonempty path entry neighborPerson :
  extendPath path entry neighborPerson ≠ [].
Proof.
  unfold extendPath. destruct (last path); [|done].
  intros H. apply app_eq_nil in H as [_ H]. done.
Qed.

Lemma hops_extendPath init lastSegment entry neighborPerson :
  hops (extendPath (init ++ [lastSegment]) entry neighborPerson) =
  S (hops (init ++ [lastSegment])).
Proof.
  rewrite extendPath_snoc. unfold hops. rewrite !length_app. simpl. lia.
Qed.

Lemma pathIds_extendPath init lastSegment entry neighborPerson :
  pathIds (extendPath (init ++ [lastSegment]) entry neighborPerson) =
  pathIds (init ++ [lastSegment]) ++ [Person.id neighborPerson].
Proof.
  rewrite extendPath_snoc. unfold pathIds. rewrite !fmap_app. simpl.
  by rewrite <- app_assoc.
Qed.

Lemma segments_linked_extend adj init lastPerson l entry neighborPerson :
  segments_linked adj (init ++ [bareSegment lastPerson]) →
  adj !! Person.id lastPerson = Some l → entry ∈ l → first_toward l entry →
  Neighbor.personId entry = Person.id neighborPerson →
  segments_linked adj
    (init ++ [ PathSegment.mk lastPerson (Some (Neighbor.relationshipLabel entry))
                 (Neighbor.relationshipId entry);
               bareSegment neighborPerson ]).
Proof.
  intros Hlinked Hl Hin Hfirst Hid. induction init as [|seg init IH].
  - simpl. split; [|done]. exists l, entry. done.
  - destruct init as [|seg' init].
    + simpl in *. destruct Hlinked as [Hentry _]. split; [done|].
      split; [|done]. exists l, entry. done.
    + destruct Hlinked as [Hentry Hrest]. split; [done|]. by apply IH.
Qed.

(** ** Lexicographic order and positions in the adjacency lists *)

Lemma lex_lt_trans a b c : lex_lt a b → lex_lt b c → lex_lt a c.
Proof.
  intros Hab. revert c. induction Hab as [y b|x y a b Hxy|x a b Hab IH]; intros c Hbc.
  - inversion Hbc; subst; apply lex_lt_nil.
  - inversion Hbc; subst; apply lex_lt_head; lia.
  - inversion Hbc; subst; [by apply lex_lt_head|]. apply lex_lt_tail. by apply IH.
Qed.

Lemma lex_lt_snoc_prefix a x : lex_lt a (a ++ [x]).
Proof.
  induction a as [|y a IH]; simpl; [apply lex_lt_nil|by apply lex_lt_tail].
Qed.

Lemma lex_lt_app a b x y :
  lex_lt a b → length a = length b → lex_lt (a ++ x) (b ++ y).
Proof.
  induction 1 as [y' b|x' y' a b Hxy|x' a b Hab IH]; simpl; intros Hlen.
  - done.
  - by apply lex_lt_head.
  - apply lex_lt_tail, IH. lia.
Qed.

Lemma lex_lt_snoc_lt a x y : x < y → lex_lt (a ++ [x]) (a ++ [y]).
Proof.
  intros Hxy. induction a as [|z a IH]; simpl;
    [by apply lex_lt_head|by apply lex_lt_tail].
Qed.

Lemma lex_le_snoc a b x :
  lex_le a b → length a = length b → lex_le (a ++ [x]) (b ++ [x]).
Proof.
  intros [->|Hlt] Hlen; [by left|]. right. by apply lex_lt_app.
Qed.

Lemma lex_lt_le_trans a b c : lex_lt a b → lex_le b c → lex_lt a c.
Proof. intros Hab [<-|Hbc]; [done|]. by eapply lex_lt_trans. Qed.

(** The inner loop enqueues the unvisited neighbours by increasing position
    in the adjacency list. *)
Lemma fresh_ranks_sorted neighbors : ∀ visited,
  StronglySorted lt
    ((fun entry => rankIn neighbors (Neighbor.personId entry)) <$>
     fresh visited neighbors).
Proof.
  induction neighbors as [|n rest IH]; intros visited; [constructor|].
  assert (∀ found : list Neighbor.t,
            (∀ entry, entry ∈ found → Neighbor.personId entry ≠ Neighbor.personId n) →
            StronglySorted lt
              ((fun entry => rankIn rest (Neighbor.personId entry)) <$> found) →
            StronglySorted lt
              ((fun entry => rankIn (n :: rest) (Neighbor.personId entry)) <$> found) ∧
            Forall (lt 0)
              ((fun entry => rankIn (n :: rest) (Neighbor.personId entry)) <$> found))
    as Hshift.
  { intros found Hne Hsorted.
    assert ((fun entry => rankIn (n :: rest) (Neighbor.personId entry)) <$> found =
            S <$> ((fun entry => rankIn rest (Neighbor.personId entry)) <$> found))
      as ->.
    { rewrite <- list_fmap_compose. apply list_fmap_ext. intros i entry Hentry. simpl.
      rewrite decide_False; [done|]. intros Heq. eapply Hne; [|by symmetry].
      by eapply list_elem_of_lookup_2. }
    split.
    - eapply StronglySorted_fmap; [|done]. intros; lia.
    - apply Forall_fmap, Forall_forall. intros; simpl; lia. }
  simpl. destruct (decide _) as [Hin|Hnin].
  - apply Hshift; [|apply IH].
    intros entry [_ Hnew]%fresh_elem Heq. by rewrite Heq in Hnew.
  - rewrite fmap_cons. simpl. rewrite decide_True by done.
    destruct (Hshift (fresh (visited ∪ {[Neighbor.personId n]}) rest))
      as [Hsorted Hpos]; [|apply IH|by constructor].
    intros entry [_ Hnew]%fresh_elem Heq. apply Hnew. rewrite Heq. set_solver.
Qed.

(** ** The search loop over a fixed adjacency structure *)

Section Search.

Variable people : list Person.t.
Variable adj : gmap string (list Neighbor.t).
Variable endId : string.

Hypothesis adj_known : ∀ u l entry,
  adj !! u = Some l → entry ∈ l →
  is_Some (find_person people (Neighbor.personId entry)).

Local Abbreviation neighborsOf := (neighborsOf adj).
Local Abbreviation next_queue := (next_queue people adj).
Local Abbreviation next_visited := (next_visited adj).
Local Abbreviation idset := (idset people).
Local Abbreviation expanded := (expanded adj endId).
Local Abbreviation ranks := (ranks adj).

Lemma neighborsOf_known u entry :
  entry ∈ neighborsOf u → is_Some (find_person people (Neighbor.personId entry)).
Proof.
  unfold neighborsOf. destruct (adj !! u) as [l|] eqn:E; simpl.
  - by apply (adj_known u).
  - by intros ?%elem_of_nil.
Qed.

Lemma adjacentIn_neighborsOf u v :
  adjacentIn adj u v ↔ ∃ entry, entry ∈ neighborsOf u ∧ Neighbor.personId entry = v.
Proof.
  unfold adjacentIn, neighborsOf. split.
  - intros (l & entry & -> & Hin & Hv). by exists entry.
  - intros (entry & Hin & Hv). destruct (adj !! u) as [l|]; simpl in Hin.
    + by exists l, entry.
    + by apply elem_of_nil in Hin.
Qed.

Lemma bfs_loop_step fuel u currentPath rest visited :
  u ≠ endId →
  bfs_loop (S fuel) people adj endId ((u, currentPath) :: rest) visited =
  bfs_loop fuel people adj endId (next_queue u currentPath rest visited)
    (next_visited u visited).
Proof.
  intros Hne. simpl. destruct (String.eqb_spec u endId) as [|_]; [done|].
  fold (neighborsOf u). by rewrite visit_neighbors_fresh.
Qed.

Lemma bfs_loop_found fuel currentPath rest visited :
  bfs_loop (S fuel) people adj endId ((endId, currentPath) :: rest) visited =
  Returned (Some currentPath).
Proof. simpl. by rewrite String.eqb_refl. Qed.

(** Loop invariants: whatever holds of the initial queue and visited set and
    is kept by an iteration holds when the loop returns. *)
Lemma bfs_loop_invariant
    (Inv : list (string * RelationshipPath) → gset string → Prop)
    (Post : option RelationshipPath → Prop) :
  (∀ visited, Inv [] visited → Post None) →
  (∀ path rest visited, Inv ((endId, path) :: rest) visited → Post (Some path)) →
  (∀ u path rest visited, u ≠ endId → Inv ((u, path) :: rest) visited →
     Inv (next_queue u path rest visited) (next_visited u visited)) →
  ∀ fuel queue visited r,
    Inv queue visited →
    bfs_loop fuel people adj endId queue visited = Returned r → Post r.
Proof.
  intros Hempty Hfound Hstep fuel.
  induction fuel as [|fuel IH]; intros queue visited r Hinv Hrun; [done|].
  destruct queue as [|[u path] rest].
  - simpl in Hrun. injection Hrun as <-. by eapply Hempty.
  - destruct (decide (u = endId)) as [->|Hne].
    + rewrite bfs_loop_found in Hrun. injection Hrun as <-. by eapply Hfound.
    + rewrite bfs_loop_step in Hrun by done. eapply IH; [|exact Hrun].
      by apply Hstep.
Qed.

(** *** Termination *)

Lemma idset_known u : is_Some (find_person people u) → u ∈ idset.
Proof.
  intros (p & Hin & Hid)%find_person_is_Some. unfold idset.
  apply elem_of_list_to_set, list_elem_of_fmap. by exists p.
Qed.

Lemma size_list_to_set_le (l : list string) :
  size (list_to_set (C := gset string) l) ≤ length l.
Proof.
  induction l as [|x l IH].
  - done.
  - rewrite list_to_set_cons, size_union_alt, size_singleton. simpl.
    assert (list_to_set (C := gset string) l ∖ {[x]} ⊆ list_to_set l) as Hsub
      by set_solver.
    apply subseteq_size in Hsub. apply le_n_S. by etrans.
Qed.

Lemma idset_size : size idset ≤ length people.
Proof.
  unfold idset. etrans; [apply size_list_to_set_le|]. by rewrite length_fmap.
Qed.

Lemma size_unvisited_add (visited : gset string) x :
  x ∈ idset → x ∉ visited →
  S (size (idset ∖ (visited ∪ {[x]}))) = size (idset ∖ visited).
Proof.
  intros Hin Hnin.
  assert (idset ∖ (visited ∪ {[x]}) = (idset ∖ visited) ∖ {[x]}) as -> by set_solver.
  assert ({[x]} ⊆ idset ∖ visited) as Hsub by set_solver.
  rewrite size_difference by done. rewrite size_singleton.
  apply subseteq_size in Hsub. rewrite size_singleton in Hsub. lia.
Qed.

(** Each newly visited id leaves the pool of unvisited ids of the person
    set, so the inner loop does not increase the sum of the queue length and
    of the size of that pool. *)
Lemma fresh_measure neighbors : ∀ visited,
  (∀ entry, entry ∈ neighbors → Neighbor.personId entry ∈ idset) →
  length (fresh visited neighbors) +
    size (idset ∖ (visited ∪ list_to_set (Neighbor.personId <$> fresh visited neighbors)))
  = size (idset ∖ visited).
Proof.
  induction neighbors as [|n rest IH]; intros visited Hknown; simpl.
  - f_equal. set_solver.
  - assert (∀ entry, entry ∈ rest → Neighbor.personId entry ∈ idset) as Hrest
      by (intros; apply Hknown; by right).
    destruct (decide _) as [Hin|Hnin]; [by apply IH|].
    rewrite fmap_cons. simpl.
    rewrite <- (size_unvisited_add visited (Neighbor.personId n));
      [|apply Hknown; left|done].
    rewrite <- (IH (visited ∪ {[Neighbor.personId n]}) Hrest).
    do 2 f_equal. f_equal. set_solver.
Qed.

Lemma length_enqueued currentPath found :
  (∀ entry, entry ∈ found → is_Some (find_person people (Neighbor.personId entry))) →
  length (found ≫= enqueued people currentPath) = length found.
Proof.
  induction found as [|n rest IH]; intros Hknown; [done|].
  rewrite bind_cons, length_app, IH by (intros; apply Hknown; by right).
  unfold enqueued. destruct (Hknown n) as [np ->]; [left|]. done.
Qed.

Lemma next_measure u currentPath rest visited :
  length (next_queue u currentPath rest visited) +
    size (idset ∖ next_visited u visited)
  = length rest + size (idset ∖ visited).
Proof.
  unfold next_queue, next_visited. rewrite length_app, length_enqueued.
  - rewrite <- (fresh_measure (neighborsOf u) visited); [lia|].
    intros entry Hin. by apply idset_known, (neighborsOf_known u).
  - intros entry [Hin _]%fresh_elem. by apply (neighborsOf_known u).
Qed.

Lemma bfs_loop_terminates fuel : ∀ queue visited,
  length queue + size (idset ∖ visited) < fuel →
  ∃ r, bfs_loop fuel people adj endId queue visited = Returned r.
Proof.
  induction fuel as [|fuel IH]; intros queue visited Hfuel; [lia|].
  destruct queue as [|[u path] rest]; [by exists None|].
  destruct (decide (u = endId)) as [->|Hne].
  - rewrite bfs_loop_found. by eexists.
  - rewrite bfs_loop_step by done. apply IH. rewrite next_measure.
    simpl in Hfuel. lia.
Qed.

(** More fuel never changes a result. *)
Lemma bfs_loop_fuel_mono fuel : ∀ fuel' queue visited r,
  fuel ≤ fuel' →
  bfs_loop fuel people adj endId queue visited = Returned r →
  bfs_loop fuel' people adj endId queue visited = Returned r.
Proof.
  induction fuel as [|fuel IH]; intros fuel' queue visited r Hle Hrun; [done|].
  destruct fuel' as [|fuel']; [lia|].
  destruct queue as [|[u path] rest]; [done|].
  destruct (decide (u = endId)) as [->|Hne].
  - by rewrite bfs_loop_found in *.
  - rewrite bfs_loop_step in * by done. eapply IH; [|done]. lia.
Qed.

(** *** Every queued path is a route from the start *)

Section FromStart.

Variable startId : string.
Variable startNode : Person.t.
Hypothesis start_found : find_person people startId = Some startNode.

Local Abbreviation route := (route people adj startId startNode).
Local Abbreviation well_formed := (well_formed people adj startId).
Local Abbreviation queue_inv := (queue_inv people adj startId startNode).
Local Abbreviation dist := (dist adj startId).
Local Abbreviation levels := (levels adj startId).
Local Abbreviation level_inv := (level_inv people adj endId startId startNode).
Local Abbreviation trail := (trail adj startId).
Local Abbreviation least := (least adj startId).
Local Abbreviation first_inv := (first_inv people adj endId startId startNode).

Lemma initial_measure :
  length [ (startId, [ bareSegment startNode ]) ] +
    size (idset ∖ {[ startId ]}) ≤ length people.
Proof.
  simpl. etrans; [|apply idset_size].
  assert ({[ startId ]} ⊆ idset) as Hsub.
  { apply singleton_subseteq_l, idset_known. by rewrite start_found. }
  rewrite size_difference by done. rewrite size_singleton.
  apply subseteq_size in Hsub. rewrite size_singleton in Hsub. lia.
Qed.

Lemma route_last u path :
  route u path →
  ∃ init lastPerson,
    path = init ++ [ bareSegment lastPerson ] ∧ find_person people u = Some lastPerson.
Proof.
  induction 1 as [|u path entry np _ (init & lp & -> & Hlp) Hentry _ Hnp].
  - by exists [], startNode.
  - rewrite extendPath_snoc. eexists (init ++ [_]), np.
    rewrite <- app_assoc. done.
Qed.

Lemma route_hops u path entry neighborPerson :
  route u path →
  hops (extendPath path entry neighborPerson) = S (hops path).
Proof. intros (init & lp & -> & _)%route_last. apply hops_extendPath. Qed.

Lemma route_pathIds u path entry neighborPerson :
  route u path →
  pathIds (extendPath path entry neighborPerson) =
  pathIds path ++ [ Person.id neighborPerson ].
Proof. intros (init & lp & -> & _)%route_last. apply pathIds_extendPath. Qed.

Lemma route_walk u path : route u path → walkIn adj startId u (hops path).
Proof.
  induction 1 as [|u path entry np Hroute IH Hentry _ Hnp].
  - constructor.
  - rewrite (route_hops u) by done. econstructor; [exact IH|].
    apply adjacentIn_neighborsOf. by exists entry.
Qed.

Lemma route_well_formed u path : route u path → well_formed u path.
Proof.
  induction 1 as [|u path entry np Hroute (Hhead & Hlast & Hlinked & Hfound)
                    Hentry Hfirst Hnp];
    unfold well_formed.
  - destruct (find_person_Some _ _ _ start_found) as [_ Hid].
    split; [|split; [|split]]; simpl.
    + by rewrite Hid.
    + by rewrite Hid.
    + done.
    + constructor; [simpl; by rewrite Hid|constructor].
  - destruct (find_person_Some _ _ _ Hnp) as [_ Hid].
    rewrite (route_pathIds u) by done.
    destruct (route_last u path Hroute) as (init & lp & -> & Hlp).
    destruct (find_person_Some _ _ _ Hlp) as [_ Hlpid].
    rewrite extendPath_snoc. split; [|split; [|split]].
    + destruct (pathIds (init ++ [bareSegment lp])); [done|]. done.
    + by rewrite last_snoc, Hid.
    + unfold neighborsOf in Hentry, Hfirst.
      destruct (adj !! u) as [l|] eqn:El; [|by apply elem_of_nil in Hentry].
      apply (segments_linked_extend adj init lp l entry np); try done.
      by rewrite Hlpid.
    + apply Forall_app in Hfound as [Hinit _]. apply Forall_app. split; [done|].
      constructor; [simpl; by rewrite Hlpid|].
      constructor; [simpl; by rewrite Hid|constructor].
Qed.

Lemma queue_inv_initial :
  queue_inv [ (startId, [ bareSegment startNode ]) ] {[ startId ]}.
Proof.
  destruct (find_person_Some _ _ _ start_found) as [_ Hid].
  intros u path Hin. apply list_elem_of_singleton in Hin. injection Hin as -> ->.
  split; [constructor|]. simpl. rewrite Hid. split.
  - apply NoDup_singleton.
  - intros x Hx. apply list_elem_of_singleton in Hx. set_solver.
Qed.

Lemma elem_of_next_queue u path rest visited w path' :
  (w, path') ∈ next_queue u path rest visited ↔
  (w, path') ∈ rest ∨
  ∃ entry neighborPerson,
    entry ∈ fresh visited (neighborsOf u) ∧
    find_person people (Neighbor.personId entry) = Some neighborPerson ∧
    w = Neighbor.personId entry ∧ path' = extendPath path entry neighborPerson.
Proof. unfold next_queue. by rewrite elem_of_app, elem_of_enqueued. Qed.

Lemma next_visited_mono u visited x : x ∈ visited → x ∈ next_visited u visited.
Proof. unfold next_visited. set_solver. Qed.

Lemma next_visited_fresh u visited entry :
  entry ∈ fresh visited (neighborsOf u) →
  Neighbor.personId entry ∈ next_visited u visited.
Proof.
  intros Hin. unfold next_visited. apply elem_of_union_r, elem_of_list_to_set.
  apply list_elem_of_fmap. by exists entry.
Qed.

Lemma queue_inv_step u path rest visited :
  queue_inv ((u, path) :: rest) visited →
  queue_inv (next_queue u path rest visited) (next_visited u visited).
Proof.
  intros Hinv w path' [Hin|(entry & np & Hfresh & Hnp & -> & ->)]%elem_of_next_queue.
  - destruct (Hinv w path') as (Hroute & Hnodup & Hsub); [by right|].
    repeat split; [done..|]. intros x Hx. by apply next_visited_mono, Hsub.
  - destruct (Hinv u path) as (Hroute & Hnodup & Hsub); [left|].
    destruct (fresh_elem _ _ _ Hfresh) as [Hentry Hnew].
    destruct (find_person_Some _ _ _ Hnp) as [_ Hid].
    rewrite (route_pathIds u) by done. repeat split.
    + eapply route_hop; [done..| |done]. by eapply fresh_first.
    + apply NoDup_app. repeat split; [done| |apply NoDup_singleton].
      intros x Hx Hx'. apply list_elem_of_singleton in Hx'. subst x.
      apply Hnew. rewrite <- Hid. by apply Hsub.
    + intros x [Hx|Hx]%elem_of_app.
      * by apply next_visited_mono, Hsub.
      * apply list_elem_of_singleton in Hx. subst x. rewrite Hid.
        by apply next_visited_fresh.
Qed.

(** Whatever path the loop returns is a duplicate-free route to the
    target. *)
Lemma bfs_loop_route fuel path :
  bfs_loop fuel people adj endId
    [ (startId, [ bareSegment startNode ]) ] {[ startId ]} = Returned (Some path) →
  route endId path ∧ NoDup (pathIds path).
Proof.
  intros Hrun.
  refine (bfs_loop_invariant queue_inv
            (fun r => ∀ p, r = Some p → route endId p ∧ NoDup (pathIds p))
            _ _ _ fuel _ _ (Some path) queue_inv_initial Hrun path eq_refl).
  - done.
  - intros p rest visited Hinv p' [= <-].
    destruct (Hinv endId p) as (? & ? & _); [left|done].
  - intros u p rest visited _. apply queue_inv_step.
Qed.

(** *** The queue is ordered by distance: the first path found is shortest *)

Lemma walkIn_zero u w : walkIn adj u w 0 → w = u.
Proof. by inversion 1. Qed.

Lemma walkIn_succ u w n :
  walkIn adj u w (S n) → ∃ v, walkIn adj u v n ∧ adjacentIn adj v w.
Proof. inversion 1; subst. eauto. Qed.

Lemma level_inv_initial :
  level_inv [ (startId, [ bareSegment startNode ]) ] {[ startId ]}.
Proof.
  split; [apply queue_inv_initial|]. split.
  - exists 0, [ (startId, [ bareSegment startNode ]) ], []. split; [done|].
    split; [|split].
    + intros u path Hin. apply list_elem_of_singleton in Hin. injection Hin as -> ->.
      split; [done|]. split; [constructor|lia].
    + by intros u path ?%elem_of_nil.
    + intros w m Hm Hwalk. assert (m = 0) as -> by lia.
      apply walkIn_zero in Hwalk. set_solver.
  - intros w Hw. left. apply elem_of_singleton in Hw as ->. simpl. left.
Qed.

(** When the paths of [k] hops are used up, the queue holds only paths of
    [S k] hops and everything within distance [S k] has been visited. The
    order of the queue entries does not change. *)
Lemma levels_head u path rest visited k q1 q2 :
  expanded ((u, path) :: rest) visited →
  levels ((u, path) :: rest) visited k q1 q2 →
  ∃ k' q1' q2',
    levels ((u, path) :: rest) visited k' ((u, path) :: q1') q2' ∧
    q2' ++ (u, path) :: q1' = q2 ++ q1.
Proof.
  intros Hexp (Heq & H1 & H2 & Hnear).
  destruct q1 as [|x q1].
  - simpl in Heq. subst q2. exists (S k), rest, []. split; [|by rewrite app_nil_r].
    split; [by rewrite app_nil_r|].
    split; [done|]. split; [by intros ? ? ?%elem_of_nil|].
    intros w m Hm Hwalk. destruct (decide (m ≤ k)) as [Hle|Hgt]; [by eapply Hnear|].
    assert (m = S k) as -> by lia.
    apply walkIn_succ in Hwalk as (v & Hwalk & Hadj).
    destruct (Hexp v) as [Hqueued|[_ Hclosed]]; [by eapply Hnear| |by apply Hclosed].
    apply list_elem_of_fmap in Hqueued as ([v' path'] & -> & Hin). simpl in *.
    destruct (H2 v' path' Hin) as [_ [_ Hmin]]. apply Hmin in Hwalk. lia.
  - injection Heq as -> ->. by exists k, q1, q2.
Qed.

(** An iteration appends the newly found paths, all of [S k] hops, behind
    the queue. *)
Lemma levels_step u path rest visited k q1 q2 :
  queue_inv ((u, path) :: rest) visited →
  levels ((u, path) :: rest) visited k ((u, path) :: q1) q2 →
  levels (next_queue u path rest visited) (next_visited u visited) k q1
    (q2 ++ (fresh visited (neighborsOf u) ≫= enqueued people path)).
Proof.
  intros Hq (Heq & H1 & H2 & Hnear). injection Heq as ->.
  destruct (H1 u path) as [Hhops [Hwalk Hmin]]; [left|].
  destruct (Hq u path) as (Hroute & _); [left|].
  split; [unfold next_queue; by rewrite app_assoc|]. split; [|split].
  - intros w p Hin. apply H1. by right.
  - intros w p [Hin|Hin]%elem_of_app; [by apply H2|].
    apply elem_of_enqueued in Hin as (entry & np & Hfresh & Hnp & -> & ->).
    destruct (fresh_elem _ _ _ Hfresh) as [Hentry Hnew].
    rewrite (route_hops u) by done. split; [by rewrite Hhops|]. split.
    + econstructor; [exact Hwalk|]. apply adjacentIn_neighborsOf. by exists entry.
    + intros m Hm. destruct (decide (m ≤ k)) as [Hle|Hgt]; [|lia].
      exfalso. apply Hnew. by eapply Hnear.
  - intros w m Hm Hw. apply next_visited_mono. by eapply Hnear.
Qed.

Lemma expanded_step u path rest visited :
  u ≠ endId →
  expanded ((u, path) :: rest) visited →
  expanded (next_queue u path rest visited) (next_visited u visited).
Proof.
  intros Hne Hexp w Hw. unfold next_visited in Hw.
  apply elem_of_union in Hw as [Hw|Hw].
  - destruct (Hexp w Hw) as [Hqueued|[Hwne Hclosed]].
    + simpl in Hqueued. apply elem_of_cons in Hqueued as [->|Hqueued].
      * right. split; [done|]. intros x (entry & Hentry & <-)%adjacentIn_neighborsOf.
        by apply fresh_cover.
      * left. unfold next_queue. rewrite fmap_app. apply elem_of_app. by left.
    + right. split; [done|]. intros x Hx. by apply next_visited_mono, Hclosed.
  - left. apply elem_of_list_to_set, list_elem_of_fmap in Hw as (entry & -> & Hfresh).
    destruct (fresh_elem _ _ _ Hfresh) as [Hentry _].
    destruct (neighborsOf_known u entry Hentry) as [np Hnp].
    apply list_elem_of_fmap. exists (Neighbor.personId entry, extendPath path entry np).
    split; [done|]. apply elem_of_next_queue. right. by exists entry, np.
Qed.

Lemma level_inv_step u path rest visited :
  u ≠ endId →
  level_inv ((u, path) :: rest) visited →
  level_inv (next_queue u path rest visited) (next_visited u visited).
Proof.
  intros Hne (Hq & (k & q1 & q2 & Hlev) & Hexp).
  destruct (levels_head u path rest visited k q1 q2 Hexp Hlev)
    as (k' & q1' & q2' & Hlev' & _).
  split; [by apply queue_inv_step|]. split; [|by apply expanded_step].
  eexists k', q1', _. by apply levels_step.
Qed.

(** Under the invariant, everything reachable from the start is visited;
    with an empty queue it has all been expanded. *)
Lemma level_inv_empty visited w n :
  level_inv [] visited → walkIn adj startId w n → w ∈ visited ∧ w ≠ endId.
Proof.
  intros (_ & (k & q1 & q2 & _ & _ & _ & Hnear) & Hexp) Hwalk.
  assert (∀ x, x ∈ visited → x ≠ endId ∧ ∀ y, adjacentIn adj x y → y ∈ visited)
    as Hclosed.
  { intros x Hx. destruct (Hexp x Hx) as [Hqueued|?]; [|done].
    by apply elem_of_nil in Hqueued. }
  assert (w ∈ visited) as Hw; [|split; [done|by apply Hclosed]].
  induction Hwalk as [|v w n Hwalk IH Hadj].
  - apply (Hnear startId 0); [lia|constructor].
  - destruct (Hclosed v IH) as [_ Hv]. by apply Hv.
Qed.

(** If the target is reachable at all, the loop returns a path to it, and no
    walk from the start to the target has fewer hops. *)
Lemma bfs_loop_shortest fuel r n :
  walkIn adj startId endId n →
  bfs_loop fuel people adj endId
    [ (startId, [ bareSegment startNode ]) ] {[ startId ]} = Returned r →
  ∃ path, r = Some path ∧ dist endId (hops path).
Proof.
  intros Hreach Hrun.
  refine (bfs_loop_invariant level_inv
            (fun r => ∃ path, r = Some path ∧ dist endId (hops path))
            _ _ _ fuel _ _ r level_inv_initial Hrun).
  - intros visited Hinv. by destruct (level_inv_empty visited endId n Hinv Hreach).
  - intros path rest visited (_ & (k & q1 & q2 & Hlev) & Hexp).
    exists path. split; [done|].
    destruct (levels_head endId path rest visited k q1 q2 Hexp Hlev)
      as (k' & q1' & q2' & (_ & H1 & _) & _).
    destruct (H1 endId path) as [-> ?]; [left|done].
  - intros u path rest visited. apply level_inv_step.
Qed.

(** *** Among the shortest paths the first one explored is returned *)

Lemma ranks_snoc ids u w :
  ranks (ids ++ [ u; w ]) = ranks (ids ++ [ u ]) ++ [ rankIn (neighborsOf u) w ].
Proof.
  induction ids as [|a ids IH]; [done|].
  destruct ids as [|b ids]; [done|].
  change (rankIn (neighborsOf a) b :: ranks ((b :: ids) ++ [u; w]) =
          (rankIn (neighborsOf a) b :: ranks ((b :: ids) ++ [u])) ++
          [rankIn (neighborsOf u) w]).
  by rewrite IH.
Qed.

Lemma length_ranks ids : length (ranks ids) = length ids - 1.
Proof.
  induction ids as [|a ids IH]; [done|].
  destruct ids as [|b ids]; [done|].
  change (S (length (ranks (b :: ids))) = length (a :: b :: ids) - 1).
  rewrite IH. simpl. lia.
Qed.

Lemma trail_walk u rs : trail u rs → walkIn adj startId u (length rs).
Proof.
  induction 1 as [|u w rs _ IH Hadj]; [constructor|].
  rewrite length_app, Nat.add_1_r. by econstructor.
Qed.

Lemma trail_inv w rs r :
  trail w (rs ++ [ r ]) →
  ∃ u, trail u rs ∧ adjacentIn adj u w ∧ r = rankIn (neighborsOf u) w.
Proof.
  intros Htrail. remember (rs ++ [ r ]) as rs' eqn:E.
  destruct Htrail as [|u w rs0 Htrail Hadj].
  - by destruct rs.
  - apply app_inj_tail in E as [-> <-]. by exists u.
Qed.

Lemma route_ranks u path entry neighborPerson :
  route u path →
  find_person people (Neighbor.personId entry) = Some neighborPerson →
  ranks (pathIds (extendPath path entry neighborPerson)) =
  ranks (pathIds path) ++ [ rankIn (neighborsOf u) (Neighbor.personId entry) ].
Proof.
  intros Hroute Hnp. rewrite (route_pathIds u) by done.
  destruct (route_last u path Hroute) as (init & lp & -> & Hlp).
  destruct (find_person_Some _ _ _ Hlp) as [_ Hu].
  destruct (find_person_Some _ _ _ Hnp) as [_ Hw].
  unfold pathIds. rewrite fmap_app. simpl. rewrite Hu, Hw, <- app_assoc. simpl.
  apply ranks_snoc.
Qed.

Lemma route_trail u path : route u path → trail u (ranks (pathIds path)).
Proof.
  induction 1 as [|u path entry np Hroute IH Hentry _ Hnp]; [constructor|].
  rewrite (route_ranks u) by done. constructor; [done|].
  apply adjacentIn_neighborsOf. by exists entry.
Qed.

Lemma route_length_ranks u path :
  route u path → length (ranks (pathIds path)) = hops path.
Proof.
  intros _. rewrite length_ranks. unfold pathIds, hops. by rewrite length_fmap.
Qed.

(** The position sequences of what the inner loop enqueues. *)
Lemma ranks_enqueued u path found :
  route u path →
  (∀ entry, entry ∈ found → is_Some (find_person people (Neighbor.personId entry))) →
  (fun item => ranks (pathIds item.2)) <$> (found ≫= enqueued people path) =
  (fun entry => ranks (pathIds path) ++
                [ rankIn (neighborsOf u) (Neighbor.personId entry) ]) <$> found.
Proof.
  intros Hroute. induction found as [|n rest IH]; intros Hknown; [done|].
  rewrite bind_cons, fmap_app, fmap_cons, IH by (intros; apply Hknown; by right).
  destruct (Hknown n) as [np Hnp]; [left|]. unfold enqueued at 1. rewrite Hnp.
  simpl. by rewrite (route_ranks u).
Qed.

Lemma first_inv_initial :
  first_inv [ (startId, [ bareSegment startNode ]) ] {[ startId ]}.
Proof.
  destruct level_inv_initial as (Hq & _ & Hexp).
  split; [done|]. split; [done|]. split.
  - intros u path rs Hin Htrail Hlen.
    apply list_elem_of_singleton in Hin. injection Hin as -> ->.
    destruct rs; [by left|done].
  - exists 0, [ (startId, [ bareSegment startNode ]) ], []. split.
    + split; [done|]. split; [|split].
      * intros u path Hin. apply list_elem_of_singleton in Hin. injection Hin as -> ->.
        split; [done|]. split; [constructor|lia].
      * by intros u path ?%elem_of_nil.
      * intros w m Hm Hwalk. assert (m = 0) as -> by lia.
        apply walkIn_zero in Hwalk. set_solver.
    + simpl. repeat constructor.
Qed.

Lemma first_inv_step u path rest visited :
  u ≠ endId →
  first_inv ((u, path) :: rest) visited →
  first_inv (next_queue u path rest visited) (next_visited u visited).
Proof.
  intros Hne (Hq & Hexp & Hleast & k0 & q10 & q20 & Hlev0 & Hsorted0).
  destruct (levels_head u path rest visited k0 q10 q20 Hexp Hlev0)
    as (k & q1 & q2 & Hlev & Horder).
  rewrite <- Horder in Hsorted0. clear k0 q10 q20 Hlev0 Horder.
  pose proof Hlev as (Heq & H1 & H2 & Hnear). injection Heq as Hrest.
  destruct (H1 u path) as [Hhops [Hwalk Hmin]]; [left|].
  destruct (Hq u path) as (Hroute & _); [left|].
  assert (∀ entry, entry ∈ fresh visited (neighborsOf u) →
            is_Some (find_person people (Neighbor.personId entry))) as Hknown.
  { intros entry [Hin _]%fresh_elem. by apply (neighborsOf_known u). }
  rewrite fmap_app, fmap_cons in Hsorted0. simpl in Hsorted0.
  apply StronglySorted_app in Hsorted0 as (Hq2u & Hsq2 & Hsu).
  apply StronglySorted_cons in Hsu as [Huq1 Hsq1].
  rewrite Forall_forall in Huq1.
  split; [by apply queue_inv_step|]. split; [by apply expanded_step|]. split.
  - (* the new paths are least *)
    intros w p rs [Hin|(entry & np & Hfresh & Hnp & -> & ->)]%elem_of_next_queue
      Htrail Hlen.
    { apply (Hleast w p); [by right|done..]. }
    destruct (fresh_elem _ _ _ Hfresh) as [Hentry Hnew].
    rewrite (route_hops u) in Hlen by done.
    rewrite (route_ranks u) by done.
    destruct rs as [|r0 rs0] using rev_ind; [done|]. clear IHrs0.
    rewrite length_app, Nat.add_1_r in Hlen. injection Hlen as Hlen.
    apply trail_inv in Htrail as (u' & Htrail & Hadj & ->).
    assert (u' ∈ visited) as Hu'.
    { apply (Hnear u' (length rs0)); [lia|by apply trail_walk]. }
    destruct (Hexp u' Hu') as [Hqueued|[_ Hclosed]]; [|by destruct Hnew; apply Hclosed].
    apply list_elem_of_fmap in Hqueued as ([u'' path'] & -> & Hin). simpl in *.
    rewrite Hrest in Hin. apply elem_of_cons in Hin as [Hin|Hin].
    + injection Hin as -> ->. apply lex_le_snoc.
      * by apply (Hleast u path); [left|..].
      * rewrite (route_length_ranks u) by done. lia.
    + apply elem_of_app in Hin as [Hin|Hin].
      * right. apply lex_lt_app.
        -- eapply lex_lt_le_trans.
           ++ apply Huq1. apply list_elem_of_fmap. by exists (u'', path').
           ++ apply (Hleast u'' path'); [rewrite Hrest; right; apply elem_of_app; by left|done|].
              destruct (H1 u'' path') as [-> _]; [by right|lia].
        -- rewrite (route_length_ranks u) by done. lia.
      * destruct (H2 u'' path' Hin) as [_ [_ Hmin']].
        apply trail_walk, Hmin' in Htrail. lia.
  - (* the queue stays ordered *)
    exists k, q1, (q2 ++ (fresh visited (neighborsOf u) ≫= enqueued people path)).
    split; [by apply levels_step|].
    rewrite !fmap_app, (ranks_enqueued u) by done.
    apply StronglySorted_app_2; [|apply StronglySorted_app_2|done].
    + intros a b [Ha|Ha]%elem_of_app Hb.
      * eapply lex_lt_trans; [apply Hq2u; [done|left]|]. by apply Huq1.
      * apply list_elem_of_fmap in Ha as (entry & -> & _).
        pose proof Hb as Hb'. apply Huq1 in Hb'.
        apply list_elem_of_fmap in Hb as ([w p] & -> & Hin). simpl in *.
        rewrite <- (app_nil_r (ranks (pathIds p))). apply lex_lt_app.
        -- exact Hb'.
        -- rewrite (route_length_ranks u) by done.
           destruct (Hq w p) as (Hroute' & _); [rewrite Hrest; right; apply elem_of_app; by left|].
           rewrite (route_length_ranks w) by done.
           destruct (H1 w p) as [-> _]; [by right|done].
    + intros a b Ha Hb. apply list_elem_of_fmap in Hb as (entry & -> & _).
      eapply lex_lt_trans; [apply Hq2u; [done|left]|]. apply lex_lt_snoc_prefix.
    + done.
    + rewrite (list_fmap_compose
                 (fun entry => rankIn (neighborsOf u) (Neighbor.personId entry))
                 (fun r => ranks (pathIds path) ++ [r])).
      eapply StronglySorted_fmap; [|apply fresh_ranks_sorted].
      intros x y Hxy. by apply lex_lt_snoc_lt.
Qed.

(** The path returned for a reachable target has the least position
    sequence among the walks of as many hops. *)
Lemma bfs_loop_first fuel path :
  bfs_loop fuel people adj endId
    [ (startId, [ bareSegment startNode ]) ] {[ startId ]} = Returned (Some path) →
  trail endId (ranks (pathIds path)) ∧
  ∀ rs, trail endId rs → length rs = hops path → lex_le (ranks (pathIds path)) rs.
Proof.
  intros Hrun.
  refine (bfs_loop_invariant first_inv
            (fun r => ∀ p, r = Some p →
               trail endId (ranks (pathIds p)) ∧
               ∀ rs, trail endId rs → length rs = hops p →
                     lex_le (ranks (pathIds p)) rs)
            _ _ _ fuel _ _ (Some path) first_inv_initial Hrun path eq_refl).
  - done.
  - intros p rest visited (Hq & _ & Hleast & _) p' [= <-]. split.
    + destruct (Hq endId p) as (Hroute & _); [left|]. by apply route_trail.
    + intros rs Htrail Hlen. apply (Hleast endId p); [left|done..].
  - intros u p rest visited. apply first_inv_step.
Qed.

End FromStart.

End Search.

(** ** The graph that the builder builds *)

Lemma elem_of_entriesAt people u rel entry :
  entry ∈ entriesAt people u rel ↔
  ∃ fromPerson,
    find_person people (StoredRelationship.fromPersonId rel) = Some fromPerson ∧
    is_Some (find_person people (StoredRelationship.toPersonId rel)) ∧
    ((StoredRelationship.fromPersonId rel = u ∧ entry = forwardEntry rel) ∨
     (StoredRelationship.toPersonId rel = u ∧ entry = reverseEntry rel fromPerson)).
Proof.
  unfold entriesAt.
  destruct (find_person people (StoredRelationship.fromPersonId rel)) as [fp|] eqn:Hf.
  2: { split; [by intros ?%elem_of_nil|by intros (? & ? & _)]. }
  destruct (find_person people (StoredRelationship.toPersonId rel)) as [tp|] eqn:Ht.
  2: { split; [by intros ?%elem_of_nil|]. intros (? & _ & [? ?] & _). done. }
  rewrite elem_of_app. split.
  - intros [H|H]; destruct (decide _) as [Heq|Hne];
      try (by apply elem_of_nil in H);
      apply list_elem_of_singleton in H; exists fp; eauto.
  - intros (fp' & [= <-] & _ & [[Heq ->]|[Heq ->]]).
    + left. rewrite decide_True by done. by apply list_elem_of_singleton.
    + right. rewrite decide_True by done. by apply list_elem_of_singleton.
Qed.

Lemma adjacentIn_buildAdj people relationships adj u v :
  buildAdj people relationships = Some adj →
  adjacentIn adj u v ↔ linked people relationships u v.
Proof.
  intros E. unfold adjacentIn, linked. rewrite (buildAdj_lookup _ _ _ u E). split.
  - intros (l & entry & Hl & Hin & Hv).
    destruct (find_person people u); [|done]. injection Hl as <-.
    apply list_elem_of_bind in Hin as (rel & Hin & Hrel).
    apply elem_of_entriesAt in Hin as (fp & Hf & Ht & Hcase).
    exists rel. split; [done|]. split; [by rewrite Hf|]. split; [done|].
    destruct Hcase as [[Hu ->]|[Hu ->]]; simpl in Hv; eauto.
  - intros (rel & Hrel & [fp Hf] & Ht & Hcase).
    assert (is_Some (find_person people u)) as [p ->].
    { destruct Hcase as [[<- _]|[<- _]]; [by rewrite Hf|done]. }
    destruct Hcase as [[Hu Hv]|[Hu Hv]].
    + exists (edgesOf people relationships u), (forwardEntry rel).
      split; [done|]. split; [|done]. apply list_elem_of_bind. exists rel.
      split; [|done]. apply elem_of_entriesAt. exists fp. eauto.
    + exists (edgesOf people relationships u), (reverseEntry rel fp).
      split; [done|]. split; [|done]. apply list_elem_of_bind. exists rel.
      split; [|done]. apply elem_of_entriesAt. exists fp. eauto.
Qed.

Lemma adjacent_linked people relationships u v :
  adjacent people relationships u v ↔ linked people relationships u v.
Proof.
  unfold adjacent. split.
  - intros (adj & E & H). by apply (adjacentIn_buildAdj _ _ adj).
  - intros H. destruct (buildAdj_total people relationships) as (adj & E & _).
    exists adj. split; [done|]. by apply (adjacentIn_buildAdj people relationships).
Qed.

Lemma linked_sym people relationships u v :
  linked people relationships u v → linked people relationships v u.
Proof.
  intros (rel & ? & ? & ? & [[? ?]|[? ?]]); exists rel; eauto 10.
Qed.

Lemma walk_here people relationships u : walk people relationships u u 0.
Proof.
  destruct (buildAdj_total people relationships) as (adj & E & _).
  exists adj. split; [done|constructor].
Qed.

Lemma walk_hop people relationships u v w n :
  walk people relationships u v n → linked people relationships v w →
  walk people relationships u w (S n).
Proof.
  intros (adj & E & Hwalk) Hlinked. exists adj. split; [done|].
  econstructor; [exact Hwalk|]. by apply (adjacentIn_buildAdj people relationships).
Qed.

Lemma walkIn_prepend adj u v w n :
  adjacentIn adj u v → walkIn adj v w n → walkIn adj u w (S n).
Proof.
  intros Hadj Hwalk. induction Hwalk as [|x w n Hwalk IH Hxw].
  - econstructor; [constructor|done].
  - econstructor; [exact IH|done].
Qed.

Lemma walkIn_reverse adj u v n :
  (∀ x y, adjacentIn adj x y → adjacentIn adj y x) →
  walkIn adj u v n → walkIn adj v u n.
Proof.
  intros Hsym Hwalk. induction Hwalk as [|x w n Hwalk IH Hxw].
  - constructor.
  - eapply walkIn_prepend; [by apply Hsym|done].
Qed.

Lemma walk_reverse people relationships u v n :
  walk people relationships u v n → walk people relationships v u n.
Proof.
  intros (adj & E & Hwalk). exists adj. split; [done|].
  apply walkIn_reverse; [|done]. intros x y Hxy.
  apply (adjacentIn_buildAdj people relationships adj) in Hxy; [|done].
  apply (adjacentIn_buildAdj people relationships adj); [done|].
  by apply linked_sym.
Qed.

(** A walk that leaves its origin starts at a key of the map. *)
Lemma walkIn_origin adj u v n :
  walkIn adj u v n → v = u ∨ is_Some (adj !! u).
Proof.
  induction 1 as [|x w n Hwalk IH Hxw]; [by left|]. right.
  destruct IH as [->|?]; [|done]. destruct Hxw as (l & _ & -> & _). done.
Qed.

Lemma reachable_start_known people relationships u v :
  u ≠ v → reachable people relationships u v → is_Some (find_person people u).
Proof.
  intros Hne (n & adj & E & Hwalk).
  destruct (walkIn_origin adj u v n Hwalk) as [->|Hkey]; [done|].
  rewrite (buildAdj_lookup _ _ _ u E) in Hkey.
  destruct (find_person people u); [done|]. by destruct Hkey.
Qed.

(** ** The search as a whole *)

(** For distinct ids the search is the loop started on the built map. *)
Lemma findRelationshipPath_fuel_distinct fuel startId endId people relationships :
  startId ≠ endId →
  ∃ adj, buildAdj people relationships = Some adj ∧
    findRelationshipPath_fuel fuel startId endId people relationships =
    match find_person people startId with
    | None => Returned None
    | Some startNode =>
        bfs_loop fuel people adj endId
          [ (startId, [ bareSegment startNode ]) ] {[ startId ]}
    end.
Proof.
  intros Hne. destruct (buildAdj_total people relationships) as (adj & E & _).
  exists adj. split; [done|]. unfold findRelationshipPath_fuel.
  destruct (String.eqb_spec startId endId) as [|_]; [done|]. by rewrite E.
Qed.

(** The fuel never runs out and nothing is thrown. *)
Lemma findRelationshipPath_fuel_returns fuel startId endId people relationships :
  S (length people) ≤ fuel →
  ∃ r, findRelationshipPath_fuel fuel startId endId people relationships = Returned r.
Proof.
  intros Hfuel. destruct (decide (startId = endId)) as [<-|Hne].
  - unfold findRelationshipPath_fuel. rewrite String.eqb_refl.
    destruct (find_person people startId); by eexists.
  - destruct (findRelationshipPath_fuel_distinct fuel startId endId people
                relationships Hne) as (adj & E & ->).
    destruct (find_person people startId) as [startNode|] eqn:Hstart; [|by eexists].
    pose proof (buildAdj_known people relationships adj) as Hknown.
    apply (bfs_loop_terminates people adj endId); [by eauto|].
    pose proof (initial_measure people adj ltac:(by eauto) startId startNode Hstart).
    lia.
Qed.

Lemma findRelationshipPath_returns startId endId people relationships :
  ∃ r, findRelationshipPath startId endId people relationships = Returned r.
Proof. by apply findRelationshipPath_fuel_returns. Qed.

(** Any larger fuel gives the same result. *)
Lemma findRelationshipPath_fuel_enough fuel startId endId people relationships :
  S (length people) ≤ fuel →
  findRelationshipPath_fuel fuel startId endId people relationships =
  findRelationshipPath startId endId people relationships.
Proof.
  intros Hfuel.
  destruct (findRelationshipPath_returns startId endId people relationships) as [r Hr].
  rewrite Hr. unfold findRelationshipPath in Hr.
  destruct (decide (startId = endId)) as [<-|Hne].
  - unfold findRelationshipPath_fuel in *. by rewrite String.eqb_refl in *.
  - destruct (findRelationshipPath_fuel_distinct fuel startId endId people
                relationships Hne) as (adj & E & ->).
    destruct (findRelationshipPath_fuel_distinct (S (length people)) startId endId
                people relationships Hne) as (adj' & E' & Hrun).
    rewrite E in E'. injection E' as <-. rewrite Hrun in Hr.
    destruct (find_person people startId); [|done].
    by eapply bfs_loop_fuel_mono.
Qed.

(** A returned path between distinct ids is a duplicate-free route. *)
Lemma findRelationshipPath_route startId endId people relationships path :
  startId ≠ endId →
  findRelationshipPath startId endId people relationships = Returned (Some path) →
  ∃ adj startNode,
    buildAdj people relationships = Some adj ∧
    find_person people startId = Some startNode ∧
    route people adj startId startNode endId path ∧
    NoDup (pathIds path).
Proof.
  intros Hne Hrun. unfold findRelationshipPath in Hrun.
  destruct (findRelationshipPath_fuel_distinct (S (length people)) startId endId
              people relationships Hne) as (adj & E & Heq).
  rewrite Heq in Hrun.
  destruct (find_person people startId) as [startNode|] eqn:Hstart; [|done].
  exists adj, startNode. split; [done|]. split; [done|].
  pose proof (buildAdj_known people relationships adj) as Hknown.
  by eapply (bfs_loop_route people adj endId ltac:(by eauto) startId startNode Hstart).
Qed.

(** Between distinct ids with the target at some walk's end, the search
    returns a path, and the number of its hops is the distance from start
    to target. *)
Lemma search_distance startId endId people relationships adj n :
  startId ≠ endId →
  buildAdj people relationships = Some adj →
  walkIn adj startId endId n →
  ∃ path,
    findRelationshipPath startId endId people relationships = Returned (Some path) ∧
    dist adj startId endId (hops path).
Proof.
  intros Hne E Hwalk.
  assert (is_Some (find_person people startId)) as [startNode Hstart].
  { apply (reachable_start_known people relationships startId endId Hne).
    by exists n, adj. }
  destruct (findRelationshipPath_returns startId endId people relationships) as [r Hr].
  pose proof Hr as Hrun. unfold findRelationshipPath in Hrun.
  destruct (findRelationshipPath_fuel_distinct (S (length people)) startId endId
              people relationships Hne) as (adj' & E' & Heq).
  rewrite E in E'. injection E' as <-. rewrite Heq, Hstart in Hrun.
  pose proof (buildAdj_known people relationships adj) as Hknown.
  destruct (bfs_loop_shortest people adj endId ltac:(by eauto) startId startNode
              Hstart _ r n Hwalk Hrun) as (path & -> & Hdist).
  by exists path.
Qed.

Lemma walkIn_buildAdj_reverse people relationships adj u v n :
  buildAdj people relationships = Some adj →
  walkIn adj u v n → walkIn adj v u n.
Proof.
  intros E Hwalk. destruct (walk_reverse people relationships u v n) as (adj' & E' & H).
  - by exists adj.
  - rewrite E in E'. by injection E' as <-.
Qed.

Lemma grandparent_search :
  findRelationshipPath "a" "c" grandparent_people grandparent_relationships =
  Returned (Some grandparent_path).
Proof. vm_compute. reflexivity. Qed.

Lemma grandparent_reachable :
  reachable grandparent_people grandparent_relationships "a" "c".
Proof.
  exists 2. apply (walk_hop _ _ "a" "b" "c"); [apply (walk_hop _ _ "a" "a" "b")|].
  - apply walk_here.
  - exists (StoredRelationship.mk "r1" "a" "b" FATHER).
    split; [set_solver|]. split; [by eexists|]. split; [by eexists|]. by left.
  - exists (StoredRelationship.mk "r2" "b" "c" MOTHER).
    split; [set_solver|]. split; [by eexists|]. split; [by eexists|]. by left.
Qed.

(** ** Properties of the search *)

(** C1. For distinct ids with the end person reachable from the start person
    in the adjacency graph built from the relationships, the search returns
    a path, the hops of that path are a connecting walk, and no connecting
    walk has fewer hops. *)
Theorem findRelationshipPath_shortest startId endId people relationships :
  startId ≠ endId →
  reachable people relationships startId endId →
  ∃ path,
    findRelationshipPath startId endId people relationships = Returned (Some path) ∧
    walk people relationships startId endId (hops path) ∧
    ∀ n, walk people relationships startId endId n → hops path ≤ n.
Proof.
  intros Hne (n & adj & E & Hwalk).
  destruct (search_distance startId endId people relationships adj n Hne E Hwalk)
    as (path & Hrun & Hreach & Hmin).
  exists path. split; [done|]. split.
  - by exists adj.
  - intros m (adj' & E' & Hm). rewrite E in E'. injection E' as <-. by apply Hmin.
Qed.

Lemma findRelationshipPath_shortest_witness :
  ∃ path,
    findRelationshipPath "a" "c" grandparent_people grandparent_relationships =
      Returned (Some path) ∧
    walk grandparent_people grandparent_relationships "a" "c" (hops path) ∧
    ∀ n, walk grandparent_people grandparent_relationships "a" "c" n → hops path ≤ n.
Proof.
  apply (findRelationshipPath_shortest "a" "c" grandparent_people grandparent_relationships).
  - discriminate.
  - exact grandparent_reachable.
Defined.

(** C10. A path returned for distinct ids starts at the start person, ends
    at the end person, has at least two segments, repeats no person id,
    carries on every non-final segment the label and relationship id of an
    adjacency entry leading from that segment's person to the next one's
    (the first such entry of that person's list), and carries neither on its
    final segment; each person in it is the one the person set holds under
    that id. *)
Theorem findRelationshipPath_simple_path startId endId people relationships path :
  startId ≠ endId →
  findRelationshipPath startId endId people relationships = Returned (Some path) →
  ∃ adj,
    buildAdj people relationships = Some adj ∧
    head (pathIds path) = Some startId ∧
    last (pathIds path) = Some endId ∧
    2 ≤ length path ∧
    NoDup (pathIds path) ∧
    segments_linked adj path ∧
    Forall (fun seg =>
              find_person people (Person.id (PathSegment.person seg)) =
              Some (PathSegment.person seg)) path.
Proof.
  intros Hne Hrun.
  destruct (findRelationshipPath_route _ _ _ _ _ Hne Hrun)
    as (adj & startNode & E & Hstart & Hroute & Hnodup).
  apply (route_well_formed people adj startId startNode Hstart) in Hroute
    as (Hhead & Hlast & Hlinked & Hfound).
  exists adj. repeat (split; [done|]). split; [|done].
  destruct path as [|s1 [|s2 rest]]; simpl in *; [done| |lia].
  congruence.
Qed.

Lemma findRelationshipPath_simple_path_witness :
  ∃ adj,
    buildAdj grandparent_people grandparent_relationships = Some adj ∧
    head (pathIds grandparent_path) = Some "a" ∧
    last (pathIds grandparent_path) = Some "c" ∧
    2 ≤ length grandparent_path ∧
    NoDup (pathIds grandparent_path) ∧
    segments_linked adj grandparent_path ∧
    Forall (fun seg =>
              find_person grandparent_people (Person.id (PathSegment.person seg)) =
              Some (PathSegment.person seg)) grandparent_path.
Proof.
  apply (findRelationshipPath_simple_path "a" "c" grandparent_people
           grandparent_relationships grandparent_path).
  - discriminate.
  - vm_compute. reflexivity.
Defined.

(** C6. For a connected pair of distinct people the two searches, from
    either end, both return a path, and the two paths have the same number
    of hops. *)
Theorem findRelationshipPath_symmetric_hops a b people relationships :
  a ≠ b →
  reachable people relationships a b →
  ∃ forth back,
    findRelationshipPath a b people relationships = Returned (Some forth) ∧
    findRelationshipPath b a people relationships = Returned (Some back) ∧
    hops forth = hops back.
Proof.
  intros Hne (n & adj & E & Hwalk).
  pose proof (walkIn_buildAdj_reverse people relationships adj a b n E Hwalk) as Hback.
  destruct (search_distance a b people relationships adj n Hne E Hwalk)
    as (forth & Hforth & Hwf & Hminf).
  destruct (search_distance b a people relationships adj n ltac:(done) E Hback)
    as (back & Hbackrun & Hwb & Hminb).
  exists forth, back. split; [done|]. split; [done|].
  apply (walkIn_buildAdj_reverse people relationships adj) in Hwf, Hwb; [|done..].
  apply Hminf in Hwb. apply Hminb in Hwf. lia.
Qed.

Lemma findRelationshipPath_symmetric_hops_witness :
  ∃ forth back,
    findRelationshipPath "a" "c" grandparent_people grandparent_relationships =
      Returned (Some forth) ∧
    findRelationshipPath "c" "a" grandparent_people grandparent_relationships =
      Returned (Some back) ∧
    hops forth = hops back.
Proof.
  apply (findRelationshipPath_symmetric_hops "a" "c" grandparent_people
           grandparent_relationships).
  - discriminate.
  - exact grandparent_reachable.
Defined.

(** C5. Searching from a person to the same person returns the one-segment
    path holding that person, without label or relationship id, exactly
    when a person with that id exists; otherwise it returns null. *)
Theorem findRelationshipPath_reflexive x people relationships :
  ((∃ p, p ∈ people ∧ Person.id p = x) ↔
   (∃ p, p ∈ people ∧ Person.id p = x ∧
      findRelationshipPath x x people relationships =
      Returned (Some [ PathSegment.mk p None None ]))) ∧
  ((¬ ∃ p, p ∈ people ∧ Person.id p = x) ↔
   findRelationshipPath x x people relationships = Returned None).
Proof.
  unfold findRelationshipPath, findRelationshipPath_fuel. rewrite String.eqb_refl.
  destruct (find_person people x) as [p|] eqn:E.
  - destruct (find_person_Some _ _ _ E) as [Hin Hid]. split; split.
    + intros _. by exists p.
    + intros (q & ? & ? & _). by exists q.
    + intros Hno. exfalso. apply Hno. by exists p.
    + done.
  - rewrite find_person_None in E. split; split.
    + intros (q & Hq & Hid). by destruct (E q Hq).
    + intros (q & _ & _ & ?). done.
    + done.
    + intros _ (q & Hq & Hid). by destruct (E q Hq).
Qed.

(** *** Relationships that do not change the search *)

Lemma fresh_filter (P : Neighbor.t → Prop) `{∀ x, Decision (P x)} neighbors :
  ∀ visited,
    (∀ entry, entry ∈ neighbors → ¬ P entry → Neighbor.personId entry ∈ visited) →
    fresh visited (filter P neighbors) = fresh visited neighbors.
Proof.
  induction neighbors as [|n rest IH]; intros visited Hskip; [done|].
  rewrite filter_cons. destruct (decide (P n)) as [HP|HP]; simpl.
  - destruct (decide _) as [Hin|Hnin].
    + apply IH. intros entry Hentry. apply Hskip. by right.
    + f_equal. apply IH. intros entry Hentry Hn.
      apply elem_of_union_l, Hskip; [by right|done].
  - rewrite decide_True by (apply Hskip; [left|done]).
    apply IH. intros entry Hentry. apply Hskip. by right.
Qed.

(** Two adjacency structures on which the inner loop finds the same
    unvisited neighbours drive the search to the same result. *)
Lemma bfs_loop_same_fresh people adj1 adj2 endId :
  (∀ u visited, u ∈ visited →
     fresh visited (neighborsOf adj1 u) = fresh visited (neighborsOf adj2 u)) →
  ∀ fuel queue visited,
    (∀ u, u ∈ queue.*1 → u ∈ visited) →
    bfs_loop fuel people adj1 endId queue visited =
    bfs_loop fuel people adj2 endId queue visited.
Proof.
  intros Hsame fuel. induction fuel as [|fuel IH]; intros queue visited Hq; [done|].
  destruct queue as [|[u path] rest]; [done|].
  destruct (decide (u = endId)) as [->|Hne].
  - by rewrite !bfs_loop_found.
  - rewrite !bfs_loop_step by done.
    assert (u ∈ visited) as Hu by (apply Hq; left).
    unfold next_queue, next_visited. rewrite <- (Hsame u visited Hu). apply IH.
    intros w Hw. rewrite fmap_app in Hw. apply elem_of_app in Hw as [Hw|Hw].
    + apply elem_of_union_l, Hq. by right.
    + apply list_elem_of_fmap in Hw as ([w' p] & -> & Hin).
      apply elem_of_enqueued in Hin as (entry & np & Hfresh & _ & -> & _).
      apply elem_of_union_r, elem_of_list_to_set, list_elem_of_fmap. by exists entry.
Qed.

Lemma entriesAt_self people u rel :
  StoredRelationship.fromPersonId rel = StoredRelationship.toPersonId rel →
  filter (fun entry => Neighbor.personId entry ≠ u) (entriesAt people u rel) = [].
Proof.
  intros Hself. unfold entriesAt. rewrite <- Hself.
  destruct (find_person _ _); [|done].
  destruct (decide _) as [Heq|Hne]; [|done]. simpl.
  rewrite filter_cons, decide_False by (simpl; intros Hn; apply Hn; congruence).
  rewrite filter_cons, decide_False by (simpl; intros Hn; apply Hn; congruence).
  done.
Qed.

Lemma entriesAt_no_self people u rel :
  StoredRelationship.fromPersonId rel ≠ StoredRelationship.toPersonId rel →
  filter (fun entry => Neighbor.personId entry ≠ u) (entriesAt people u rel) =
  entriesAt people u rel.
Proof.
  intros Hne. unfold entriesAt.
  destruct (find_person _ _); [|done]. destruct (find_person _ _); [|done].
  destruct (decide (StoredRelationship.fromPersonId rel = u)) as [Hf|Hf];
    destruct (decide (StoredRelationship.toPersonId rel = u)) as [Ht|Ht]; simpl.
  - congruence.
  - rewrite filter_cons, decide_True by (simpl; congruence). done.
  - rewrite filter_cons, decide_True by (simpl; congruence). done.
  - done.
Qed.

Lemma edgesOf_no_self people relationships u :
  edgesOf people
    (filter (fun rel => StoredRelationship.fromPersonId rel ≠
                        StoredRelationship.toPersonId rel) relationships) u =
  filter (fun entry => Neighbor.personId entry ≠ u) (edgesOf people relationships u).
Proof.
  unfold edgesOf. induction relationships as [|rel rest IH]; [done|].
  rewrite filter_cons, bind_cons, filter_app, <- IH.
  destruct (decide _) as [Hne|Hself].
  - by rewrite bind_cons, entriesAt_no_self.
  - rewrite entriesAt_self; [done|].
    by destruct (decide (StoredRelationship.fromPersonId rel =
                         StoredRelationship.toPersonId rel)).
Qed.

(** Self-edges never change the outcome of a search. *)
Lemma findRelationshipPath_no_self startId endId people relationships :
  findRelationshipPath startId endId people
    (filter (fun rel => StoredRelationship.fromPersonId rel ≠
                        StoredRelationship.toPersonId rel) relationships) =
  findRelationshipPath startId endId people relationships.
Proof.
  unfold findRelationshipPath. destruct (decide (startId = endId)) as [<-|Hne].
  - unfold findRelationshipPath_fuel. by rewrite String.eqb_refl.
  - destruct (findRelationshipPath_fuel_distinct (S (length people)) startId endId
                people relationships Hne) as (adj & E & ->).
    destruct (findRelationshipPath_fuel_distinct (S (length people)) startId endId
                people
                (filter (fun rel => StoredRelationship.fromPersonId rel ≠
                                    StoredRelationship.toPersonId rel) relationships)
                Hne) as (adj' & E' & ->).
    destruct (find_person people startId) as [startNode|]; [|done].
    apply bfs_loop_same_fresh.
    + intros u visited Hu. unfold neighborsOf.
      rewrite (buildAdj_lookup _ _ _ u E), (buildAdj_lookup _ _ _ u E').
      destruct (find_person people u); [|done]. simpl.
      rewrite edgesOf_no_self. apply fresh_filter.
      intros entry _ Hentry. by apply dec_stable in Hentry as ->.
    + intros u Hu. apply list_elem_of_singleton in Hu. set_solver.
Qed.

(** C9. The search returns on every input: the loop finishes within the
    fuel that [findRelationshipPath] gives it, any larger fuel yields the
    same result, and removing the self-edges from the relationship set does
    not change the result, whatever cycles the set contains. *)
Theorem findRelationshipPath_terminates startId endId people relationships :
  (∃ r, findRelationshipPath startId endId people relationships = Returned r) ∧
  (∀ fuel, S (length people) ≤ fuel →
     findRelationshipPath_fuel fuel startId endId people relationships =
     findRelationshipPath startId endId people relationships) ∧
  findRelationshipPath startId endId people
    (filter (fun rel => StoredRelationship.fromPersonId rel ≠
                        StoredRelationship.toPersonId rel) relationships) =
  findRelationshipPath startId endId people relationships.
Proof.
  split; [apply findRelationshipPath_returns|]. split.
  - intros fuel. apply findRelationshipPath_fuel_enough.
  - apply findRelationshipPath_no_self.
Qed.







Lemma findRelationshipPath_disconnected startId endId people relationships :
  ¬ reachable people relationships startId endId →
  findRelationshipPath startId endId people relationships = Returned None.
Proof.
  intros Hno.
  destruct (findRelationshipPath_returns startId endId people relationships)
    as [[path|] Hr]; [|done]. exfalso. apply Hno.
  destruct (decide (startId = endId)) as [->|Hne]; [exists 0; apply walk_here|].
  destruct (findRelationshipPath_route _ _ _ _ _ Hne Hr)
    as (adj & startNode & E & Hstart & Hroute & _).
  exists (hops path), adj. split; [done|].
  by apply (route_walk people adj startId startNode Hstart).
Qed.


(** ** Properties of the builder *)

(** C3. For a relationship of the input whose two endpoints exist, the built
    map holds, in the list of the source person, the forward entry to the
    target with the label of the kind, and in the list of the target person
    the reverse entry to the source: for FATHER and MOTHER the child-of label
    that names the parent as found in the person set, for SPOUSE and
    SIBLING the same label as forward. Both entries carry the id of the
    relationship. *)
Theorem buildAdj_both_directions people relationships rel fromPerson toPerson :
  rel ∈ relationships →
  find_person people (StoredRelationship.fromPersonId rel) = Some fromPerson →
  find_person people (StoredRelationship.toPersonId rel) = Some toPerson →
  ∃ adj fromList toList,
    buildAdj people relationships = Some adj ∧
    adj !! StoredRelationship.fromPersonId rel = Some fromList ∧
    adj !! StoredRelationship.toPersonId rel = Some toList ∧
    Neighbor.mk (StoredRelationship.toPersonId rel)
      match StoredRelationship.type rel with
      | FATHER => "is father of"
      | MOTHER => "is mother of"
      | SPOUSE => "is spouse of"
      | SIBLING => "is sibling of"
      end
      (Some (StoredRelationship.id rel)) ∈ fromList ∧
    Neighbor.mk (StoredRelationship.fromPersonId rel)
      match StoredRelationship.type rel with
      | FATHER => "is child of (father: " +:+ Person.name fromPerson +:+ ")"
      | MOTHER => "is child of (mother: " +:+ Person.name fromPerson +:+ ")"
      | SPOUSE => "is spouse of"
      | SIBLING => "is sibling of"
      end
      (Some (StoredRelationship.id rel)) ∈ toList.
Proof.
  intros Hrel Hf Ht.
  destruct (buildAdj_total people relationships) as (adj & E & H).
  exists adj, (edgesOf people relationships (StoredRelationship.fromPersonId rel)),
    (edgesOf people relationships (StoredRelationship.toPersonId rel)).
  split; [done|]. rewrite !H, Hf, Ht. split; [done|]. split; [done|]. split.
  - apply list_elem_of_bind. exists rel. split; [|done].
    apply elem_of_entriesAt. exists fromPerson. split; [done|].
    split; [by rewrite Ht|]. left. split; [done|].
    unfold forwardEntry, forwardLabel. by destruct (StoredRelationship.type rel).
  - apply list_elem_of_bind. exists rel. split; [|done].
    apply elem_of_entriesAt. exists fromPerson. split; [done|].
    split; [by rewrite Ht|]. right. split; [done|].
    unfold reverseEntry, reverseLabel. by destruct (StoredRelationship.type rel).
Qed.

Lemma buildAdj_both_directions_witness :
  ∃ adj fromList toList,
    buildAdj grandparent_people grandparent_relationships = Some adj ∧
    adj !! "a" = Some fromList ∧
    adj !! "b" = Some toList ∧
    Neighbor.mk "b" "is father of" (Some "r1") ∈ fromList ∧
    Neighbor.mk "a" "is child of (father: A)" (Some "r1") ∈ toList.
Proof.
  apply (buildAdj_both_directions grandparent_people grandparent_relationships
           (StoredRelationship.mk "r1" "a" "b" FATHER) personA personB).
  - left.
  - reflexivity.
  - reflexivity.
Defined.

(** ** Properties of the classifier *)












(** C4, as stated, fails on a path of two segments whose hop label is the
    empty string: that label is neither a child-of nor a sibling label, so
    the claim asks for the echo "A  B.", but the guard
    [if (p1Segment.relationshipToNext)] takes the empty string, like an
    absent label, as false and the classifier falls through to null. *)
Lemma deriveComplexRelationship_empty_label :
  startsWith "" "is child of" = false ∧
  includes "" "is sibling of" = false ∧
  direct_sentence personA personB "" = "A  B." ∧
  deriveComplexRelationship
    (Some [ PathSegment.mk personA (Some "") None; bareSegment personB ]) [] = None ∧
  deriveComplexRelationship
    (Some [ PathSegment.mk personA (Some "") None; bareSegment personB ]) [] ≠
  Some (direct_sentence personA personB "") ∧
  deriveComplexRelationship (Some [ bareSegment personA; bareSegment personB ]) [] = None.
Proof. repeat split; done. Qed.

(** C4, amended. On a path of two segments whose first segment carries a
    non-empty label, the classifier answers "X is child of Y." when the label
    starts with the child-of text, otherwise "X and Y are siblings." when it
    contains the sibling text, otherwise the names with the label between
    them; when the label is absent or empty it answers none. *)
Theorem deriveComplexRelationship_two_segments s1 s2 allPeople :
  (∀ label,
     PathSegment.relationshipToNext s1 = Some label → label ≠ "" →
     deriveComplexRelationship (Some [ s1; s2 ]) allPeople =
     Some (if startsWith label "is child of" then
             Person.name (PathSegment.person s1) +:+ " is child of " +:+
             Person.name (PathSegment.person s2) +:+ "."
           else if includes label "is sibling of" then
             Person.name (PathSegment.person s1) +:+ " and " +:+
             Person.name (PathSegment.person s2) +:+ " are siblings."
           else
             Person.name (PathSegment.person s1) +:+ " " +:+ label +:+ " " +:+
             Person.name (PathSegment.person s2) +:+ ".")) ∧
  (PathSegment.relationshipToNext s1 = None ∨
   PathSegment.relationshipToNext s1 = Some "" →
   deriveComplexRelationship (Some [ s1; s2 ]) allPeople = None).
Proof.
  split.
  - intros label Hlabel Hne. unfold deriveComplexRelationship. rewrite Hlabel.
    destruct label as [|c label]; [done|]. simpl truthy. cbv iota.
    by repeat (match goal with
               | |- context [if ?b then _ else _] => destruct b eqn:?
               end).
  - intros [H|H]; unfold deriveComplexRelationship; by rewrite H.
Qed.

Lemma deriveComplexRelationship_two_segments_witness :
  deriveComplexRelationship
    (Some [ PathSegment.mk personA (Some "is father of") (Some "r1");
            bareSegment personB ]) [] =
  Some "A is father of B.".
Proof.
  apply (proj1 (deriveComplexRelationship_two_segments
                  (PathSegment.mk personA (Some "is father of") (Some "r1"))
                  (bareSegment personB) []) "is father of").
  - reflexivity.
  - discriminate.
Defined.

(** The labels of the builder pass the tests of the classifier that are
    meant for them, whatever the name of the parent. *)
Lemma builder_labels_classified parentName :
  isParentLabel (Some (forwardLabel FATHER)) = true ∧
  isParentLabel (Some (forwardLabel MOTHER)) = true ∧
  isSpouseLabel (Some (forwardLabel SPOUSE)) = true ∧
  isSiblingLabel (Some (forwardLabel SIBLING)) = true ∧
  isChildLabel (Some (reverseLabel FATHER parentName)) = true ∧
  isChildLabel (Some (reverseLabel MOTHER parentName)) = true ∧
  isSpouseLabel (Some (reverseLabel SPOUSE parentName)) = true ∧
  isSiblingLabel (Some (reverseLabel SIBLING parentName)) = true.
Proof. repeat split. Qed.

(** ** Tie-breaking among equally short paths *)

(** C7, as stated, fails: the builder runs through the records once, in
    input order, whatever their kinds. Here the sibling entry of A precedes
    its father entry, and the search returns the path through the sibling;
    with FATHER edges first it would return the path through the child. *)
Lemma tie_not_broken_by_kind :
  (buildAdj tie_people tie_relationships ≫= (.!! "a")) =
    Some [ Neighbor.mk "b" "is sibling of" (Some "s1");
           Neighbor.mk "c" "is father of" (Some "f1") ] ∧
  (buildAdj tie_people (kindOrder tie_relationships) ≫= (.!! "a")) =
    Some [ Neighbor.mk "c" "is father of" (Some "f1");
           Neighbor.mk "b" "is sibling of" (Some "s1") ] ∧
  findRelationshipPath "a" "d" tie_people tie_relationships =
    Returned (Some [ PathSegment.mk personA (Some "is sibling of") (Some "s1");
                     PathSegment.mk personB (Some "is spouse of") (Some "p1");
                     PathSegment.mk personD None None ]) ∧
  findRelationshipPath "a" "d" tie_people (kindOrder tie_relationships) =
    Returned (Some [ PathSegment.mk personA (Some "is father of") (Some "f1");
                     PathSegment.mk personC (Some "is spouse of") (Some "p2");
                     PathSegment.mk personD None None ]) ∧
  findRelationshipPath "a" "d" tie_people tie_relationships ≠
  findRelationshipPath "a" "d" tie_people (kindOrder tie_relationships).
Proof. repeat split; try (vm_compute; reflexivity). vm_compute. discriminate. Qed.

(** C7, amended. The adjacency list of a known person holds the entries of
    the records in the order of the input relationship set, whatever their
    kinds. A path returned for distinct ids takes, at every hop, the first
    entry of the current person's list that leads to the next person, and
    the sequence of the positions of these entries is lexicographically
    least among the position sequences of all walks of as many hops from
    start to end: it is the first one explored. *)
Theorem findRelationshipPath_first_explored startId endId people relationships path :
  startId ≠ endId →
  findRelationshipPath startId endId people relationships = Returned (Some path) →
  ∃ adj,
    buildAdj people relationships = Some adj ∧
    (∀ u, is_Some (find_person people u) →
       adj !! u = Some (relationships ≫= entriesAt people u)) ∧
    segments_linked adj path ∧
    trail adj startId endId (ranks adj (pathIds path)) ∧
    ∀ rs, trail adj startId endId rs → length rs = hops path →
          lex_le (ranks adj (pathIds path)) rs.
Proof.
  intros Hne Hrun.
  destruct (findRelationshipPath_route _ _ _ _ _ Hne Hrun)
    as (adj & startNode & E & Hstart & Hroute & _).
  exists adj. split; [done|]. split.
  { intros u [p Hp]. by rewrite (buildAdj_lookup _ _ _ u E), Hp. }
  split.
  { by apply (route_well_formed people adj startId startNode Hstart) in Hroute
      as (_ & _ & ? & _). }
  unfold findRelationshipPath in Hrun.
  destruct (findRelationshipPath_fuel_distinct (S (length people)) startId endId
              people relationships Hne) as (adj' & E' & Heq).
  rewrite E in E'. injection E' as <-. rewrite Heq, Hstart in Hrun.
  pose proof (buildAdj_known people relationships adj) as Hknown.
  by eapply (bfs_loop_first people adj endId ltac:(by eauto) startId startNode Hstart).
Qed.

Lemma findRelationshipPath_first_explored_witness :
  ∃ adj,
    buildAdj tie_people tie_relationships = Some adj ∧
    (∀ u, is_Some (find_person tie_people u) →
       adj !! u = Some (tie_relationships ≫= entriesAt tie_people u)) ∧
    segments_linked adj
      [ PathSegment.mk personA (Some "is sibling of") (Some "s1");
        PathSegment.mk personB (Some "is spouse of") (Some "p1");
        PathSegment.mk personD None None ] ∧
    trail adj "a" "d"
      (ranks adj (pathIds
         [ PathSegment.mk personA (Some "is sibling of") (Some "s1");
           PathSegment.mk personB (Some "is spouse of") (Some "p1");
           PathSegment.mk personD None None ])) ∧
    ∀ rs, trail adj "a" "d" rs →
          length rs = hops [ PathSegment.mk personA (Some "is sibling of") (Some "s1");
                             PathSegment.mk personB (Some "is spouse of") (Some "p1");
                             PathSegment.mk personD None None ] →
          lex_le (ranks adj (pathIds
                    [ PathSegment.mk personA (Some "is sibling of") (Some "s1");
                      PathSegment.mk personB (Some "is spouse of") (Some "p1");
                      PathSegment.mk personD None None ])) rs.
Proof.
  apply (findRelationshipPath_first_explored "a" "d" tie_people tie_relationships).
  - discriminate.
  - vm_compute. reflexivity.
Defined.

(** ** The scenarios of the specification *)

Example scenario_grandparent :
  findRelationshipPath "a" "c" grandparent_people grandparent_relationships =
    Returned (Some grandparent_path) ∧
  deriveComplexRelationship (Some grandparent_path) grandparent_people =
    Some "A is grandfather of C.".
Proof. split; [vm_compute; reflexivity|reflexivity]. Qed.

Example scenario_siblings :
  let relationships := [ StoredRelationship.mk "s" "a" "b" SIBLING ] in
  ∃ path,
    findRelationshipPath "a" "b" grandparent_people relationships =
      Returned (Some path) ∧
    length path = 2 ∧
    deriveComplexRelationship (Some path) grandparent_people =
      Some "A and B are siblings.".
Proof. eexists. split; [vm_compute; reflexivity|]. split; reflexivity. Qed.

Example scenario_in_law :
  let relationships := [ StoredRelationship.mk "r1" "a" "b" FATHER;
                         StoredRelationship.mk "r2" "b" "c" SPOUSE ] in
  ∃ path,
    findRelationshipPath "a" "c" grandparent_people relationships =
      Returned (Some path) ∧
    pathIds path = [ "a"; "b"; "c" ] ∧
    deriveComplexRelationship (Some path) grandparent_people =
      Some "A is father-in-law of C.".
Proof. eexists. split; [vm_compute; reflexivity|]. split; reflexivity. Qed.

Example scenario_long_chain :
  let relationships := [ StoredRelationship.mk "r1" "a" "b" FATHER;
                         StoredRelationship.mk "r2" "b" "c" MOTHER;
                         StoredRelationship.mk "r3" "c" "d" FATHER ] in
  ∃ path,
    findRelationshipPath "a" "d" grandparent_people relationships =
      Returned (Some path) ∧
    pathIds path = [ "a"; "b"; "c"; "d" ] ∧
    deriveComplexRelationship (Some path) grandparent_people = None.
Proof. eexists. split; [vm_compute; reflexivity|]. split; reflexivity. Qed.

Example scenario_disconnected :
  findRelationshipPath "a" "d" grandparent_people grandparent_relationships =
  Returned None.
Proof. vm_compute. reflexivity. Qed.

(** The sibling triangle of the sample data does not trap the search: an id
    that nobody carries is looked for through the whole family, in vain. *)
Example scenario_cycle :
  findRelationshipPath "3" "8" INITIAL_PEOPLE INITIAL_RELATIONSHIPS = Returned None ∧
  (∃ path,
     findRelationshipPath "7" "6" INITIAL_PEOPLE INITIAL_RELATIONSHIPS =
       Returned (Some path) ∧
     pathIds path = [ "7"; "4"; "6" ]).
Proof.
  split; [vm_compute; reflexivity|].
  eexists. split; [vm_compute; reflexivity|reflexivity].
Qed.

Example scenario_self_edge :
  let relationships := [ StoredRelationship.mk "x" "a" "a" SIBLING;
                         StoredRelationship.mk "r1" "a" "b" FATHER ] in
  (buildAdj grandparent_people relationships ≫= (.!! "a")) =
    Some [ Neighbor.mk "a" "is sibling of" (Some "x");
           Neighbor.mk "a" "is sibling of" (Some "x");
           Neighbor.mk "b" "is father of" (Some "r1") ] ∧
  findRelationshipPath "a" "b" grandparent_people relationships =
    Returned (Some [ PathSegment.mk personA (Some "is father of") (Some "r1");
                     PathSegment.mk personB None None ]).
Proof. split; vm_compute; reflexivity. Qed.

(** * The rest of the application *)

(** ** Looking up the id of a relationship *)

Lemma find_is_Some {A : Type} (f : A → bool) (l : list A) x :
  x ∈ l → f x = true → is_Some (find f l).
Proof.
  intros Hin Hf. induction l as [|y l IH]; [by apply elem_of_nil in Hin|].
  simpl. destruct (f y) eqn:Hy; [done|].
  apply elem_of_cons in Hin as [->|Hin]; [congruence|by apply IH].
Qed.

Lemma find_elem_of {A : Type} (f : A → bool) (l : list A) x :
  find f l = Some x → x ∈ l ∧ f x = true.
Proof. intros [Hin Hf]%find_some. split; [by apply list_elem_of_In|done]. Qed.

(** What a match of the predicate tells about the record. *)
Lemma relationshipMatches_true p1Id p2Id typePrefix r :
  relationshipMatches p1Id p2Id typePrefix r = true →
  includes typePrefix (typeLowerCase (StoredRelationship.type r)) = true ∧
  if startsWith typePrefix "is child of" then
    StoredRelationship.toPersonId r = p1Id ∧ StoredRelationship.fromPersonId r = p2Id
  else
    (StoredRelationship.fromPersonId r = p1Id ∧ StoredRelationship.toPersonId r = p2Id) ∨
    (StoredRelationship.type r = SIBLING ∧
     StoredRelationship.fromPersonId r = p2Id ∧ StoredRelationship.toPersonId r = p1Id).
Proof.
  unfold relationshipMatches. intros H. split.
  - destruct (StoredRelationship.type r); simpl in *;
      repeat (match type of H with
              | context [includes typePrefix ?n] =>
                  destruct (includes typePrefix n) eqn:?; simpl in H
              end);
      done.
  - destruct (negb _); [done|].
    destruct (startsWith typePrefix "is child of").
    + apply andb_true_iff in H as [?%String.eqb_eq ?%String.eqb_eq]. done.
    + destruct (bool_decide (StoredRelationship.type r = SIBLING)) eqn:Hs.
      * apply bool_decide_eq_true in Hs.
        apply orb_true_iff in H
          as [[?%String.eqb_eq ?%String.eqb_eq]%andb_true_iff
             |[?%String.eqb_eq ?%String.eqb_eq]%andb_true_iff]; eauto.
      * apply andb_true_iff in H as [?%String.eqb_eq ?%String.eqb_eq]. eauto.
Qed.

(** X1. An id returned by [findRelationshipId] is the id of a record of the
    list that joins the two given people, in the direction that the label
    tells (child labels: stored from the second to the first person; sibling
    records: either way; otherwise from the first to the second), and whose
    kind is named in the label. *)
Theorem findRelationshipId_sound p1Id p2Id typePrefix relationships relId :
  findRelationshipId p1Id p2Id typePrefix relationships = Some relId →
  ∃ r, r ∈ relationships ∧ StoredRelationship.id r = relId ∧
    includes typePrefix (typeLowerCase (StoredRelationship.type r)) = true ∧
    if startsWith typePrefix "is child of" then
      StoredRelationship.toPersonId r = p1Id ∧ StoredRelationship.fromPersonId r = p2Id
    else
      (StoredRelationship.fromPersonId r = p1Id ∧ StoredRelationship.toPersonId r = p2Id) ∨
      (StoredRelationship.type r = SIBLING ∧
       StoredRelationship.fromPersonId r = p2Id ∧ StoredRelationship.toPersonId r = p1Id).
Proof.
  unfold findRelationshipId. intros H.
  destruct (find _ relationships) as [r|] eqn:E; [|done]. injection H as <-.
  apply find_elem_of in E as [Hin Hm]. exists r. split; [done|]. split; [done|].
  by apply relationshipMatches_true.
Qed.

Lemma findRelationshipId_sound_witness :
  ∃ r, r ∈ INITIAL_RELATIONSHIPS ∧ StoredRelationship.id r = "r4" ∧
    includes "is child of (mother: Jane Smith)"
      (typeLowerCase (StoredRelationship.type r)) = true ∧
    if startsWith "is child of (mother: Jane Smith)" "is child of" then
      StoredRelationship.toPersonId r = "3" ∧ StoredRelationship.fromPersonId r = "2"
    else
      (StoredRelationship.fromPersonId r = "3" ∧ StoredRelationship.toPersonId r = "2") ∨
      (StoredRelationship.type r = SIBLING ∧
       StoredRelationship.fromPersonId r = "2" ∧ StoredRelationship.toPersonId r = "3").
Proof.
  apply (findRelationshipId_sound "3" "2" "is child of (mother: Jane Smith)"
           INITIAL_RELATIONSHIPS "r4").
  vm_compute. reflexivity.
Defined.

(** The record itself matches the label that the builder gives to its
    forward entry. *)
Lemma relationshipMatches_forward rel :
  relationshipMatches (StoredRelationship.fromPersonId rel)
    (StoredRelationship.toPersonId rel)
    (forwardLabel (StoredRelationship.type rel)) rel = true.
Proof.
  unfold relationshipMatches.
  destruct (StoredRelationship.type rel); simpl; by rewrite !String.eqb_refl.
Qed.

Lemma forwardLabel_names_kind ty ty' :
  includes (forwardLabel ty) (typeLowerCase ty') = true → ty' = ty.
Proof. by destruct ty, ty'. Qed.

(** X2. For every record of the list, looking up its two people in stored
    order under the forward label of its kind ("is father of", "is mother
    of", "is spouse of", "is sibling of") finds a record of the same kind
    that joins the same two people (a sibling record possibly stored the
    other way round). *)
Theorem findRelationshipId_forward relationships rel :
  rel ∈ relationships →
  ∃ r, r ∈ relationships ∧
    findRelationshipId (StoredRelationship.fromPersonId rel)
      (StoredRelationship.toPersonId rel)
      (forwardLabel (StoredRelationship.type rel)) relationships =
      Some (StoredRelationship.id r) ∧
    StoredRelationship.type r = StoredRelationship.type rel ∧
    ((StoredRelationship.fromPersonId r = StoredRelationship.fromPersonId rel ∧
      StoredRelationship.toPersonId r = StoredRelationship.toPersonId rel) ∨
     (StoredRelationship.type rel = SIBLING ∧
      StoredRelationship.fromPersonId r = StoredRelationship.toPersonId rel ∧
      StoredRelationship.toPersonId r = StoredRelationship.fromPersonId rel)).
Proof.
  intros Hin. unfold findRelationshipId.
  destruct (find_is_Some _ relationships rel Hin (relationshipMatches_forward rel))
    as [r E].
  rewrite E. apply find_elem_of in E as [Hr Hm].
  apply relationshipMatches_true in Hm as [Hkind Hdir].
  apply forwardLabel_names_kind in Hkind.
  exists r. split; [done|]. split; [done|]. split; [done|].
  assert (startsWith (forwardLabel (StoredRelationship.type rel)) "is child of" = false)
    as Hf by (by destruct (StoredRelationship.type rel)).
  rewrite Hf in Hdir. destruct Hdir as [?|(Hs & ? & ?)]; [by left|].
  right. by rewrite <- Hkind, Hs.
Qed.

Lemma findRelationshipId_forward_witness :
  ∃ r, r ∈ INITIAL_RELATIONSHIPS ∧
    findRelationshipId "4" "7" "is sibling of" INITIAL_RELATIONSHIPS =
      Some (StoredRelationship.id r) ∧
    StoredRelationship.type r = SIBLING ∧
    ((StoredRelationship.fromPersonId r = "4" ∧ StoredRelationship.toPersonId r = "7") ∨
     (SIBLING = SIBLING ∧
      StoredRelationship.fromPersonId r = "7" ∧ StoredRelationship.toPersonId r = "4")).
Proof.
  apply (findRelationshipId_forward INITIAL_RELATIONSHIPS
           (StoredRelationship.mk "s3" "4" "7" SIBLING)).
  set_solver.
Defined.

(** X3. For every FATHER or MOTHER record of the list and whatever the name
    of the parent, looking up child and parent under the child-of label that
    the builder makes for the record finds a record stored from that parent
    to that child. *)
Theorem findRelationshipId_child_label relationships rel parentName :
  rel ∈ relationships →
  StoredRelationship.type rel = FATHER ∨ StoredRelationship.type rel = MOTHER →
  ∃ r, r ∈ relationships ∧
    findRelationshipId (StoredRelationship.toPersonId rel)
      (StoredRelationship.fromPersonId rel)
      (reverseLabel (StoredRelationship.type rel) parentName) relationships =
      Some (StoredRelationship.id r) ∧
    StoredRelationship.fromPersonId r = StoredRelationship.fromPersonId rel ∧
    StoredRelationship.toPersonId r = StoredRelationship.toPersonId rel.
Proof.
  intros Hin Hkind. unfold findRelationshipId.
  assert (startsWith (reverseLabel (StoredRelationship.type rel) parentName)
            "is child of" = true) as Hchild.
  { by destruct Hkind as [-> | ->]. }
  assert (relationshipMatches (StoredRelationship.toPersonId rel)
            (StoredRelationship.fromPersonId rel)
            (reverseLabel (StoredRelationship.type rel) parentName) rel = true) as Hm.
  { unfold relationshipMatches. rewrite Hchild, !String.eqb_refl.
    destruct Hkind as [-> | ->]; simpl.
    - done.
    - by destruct (includes _ "father"). }
  destruct (find_is_Some _ relationships rel Hin Hm) as [r E].
  rewrite E. apply find_elem_of in E as [Hr Hm'].
  apply relationshipMatches_true in Hm' as [_ Hdir]. rewrite Hchild in Hdir.
  exists r. by destruct Hdir.
Qed.

Lemma findRelationshipId_child_label_witness :
  ∃ r, r ∈ INITIAL_RELATIONSHIPS ∧
    findRelationshipId "6" "5" "is child of (father: Robert Roe)"
      INITIAL_RELATIONSHIPS = Some (StoredRelationship.id r) ∧
    StoredRelationship.fromPersonId r = "5" ∧
    StoredRelationship.toPersonId r = "6".
Proof.
  apply (findRelationshipId_child_label INITIAL_RELATIONSHIPS
           (StoredRelationship.mk "r7" "5" "6" FATHER) "Robert Roe").
  - set_solver.
  - by left.
Defined.

(** X4. Under the label "is spouse of" a lookup succeeds exactly when a
    SPOUSE record is stored from the first person to the second: a spouse
    record is not found from its target side. Under "is sibling of" it
    succeeds exactly when a SIBLING record joins the two people either
    way. *)
Theorem findRelationshipId_direction p1Id p2Id relationships :
  (is_Some (findRelationshipId p1Id p2Id "is spouse of" relationships) ↔
   ∃ r, r ∈ relationships ∧ StoredRelationship.type r = SPOUSE ∧
     StoredRelationship.fromPersonId r = p1Id ∧ StoredRelationship.toPersonId r = p2Id) ∧
  (is_Some (findRelationshipId p1Id p2Id "is sibling of" relationships) ↔
   ∃ r, r ∈ relationships ∧ StoredRelationship.type r = SIBLING ∧
     ((StoredRelationship.fromPersonId r = p1Id ∧ StoredRelationship.toPersonId r = p2Id) ∨
      (StoredRelationship.fromPersonId r = p2Id ∧ StoredRelationship.toPersonId r = p1Id))).
Proof.
  unfold findRelationshipId. split; split.
  - intros [i Hi]. destruct (find _ relationships) as [r|] eqn:E; [|done].
    apply find_elem_of in E as [Hin Hm].
    apply relationshipMatches_true in Hm as [Hkind Hdir].
    apply (forwardLabel_names_kind SPOUSE) in Hkind. simpl in Hdir.
    exists r. destruct Hdir as [[? ?]|[? _]]; [done|congruence].
  - intros (r & Hin & Hty & Hf & Ht).
    destruct (find_is_Some (relationshipMatches p1Id p2Id "is spouse of")
                relationships r Hin) as [r' ->]; [|by eexists].
    unfold relationshipMatches. rewrite Hty, Hf, Ht. simpl. by rewrite !String.eqb_refl.
  - intros [i Hi]. destruct (find _ relationships) as [r|] eqn:E; [|done].
    apply find_elem_of in E as [Hin Hm].
    apply relationshipMatches_true in Hm as [Hkind Hdir].
    apply (forwardLabel_names_kind SIBLING) in Hkind. simpl in Hdir.
    exists r. destruct Hdir as [[? ?]|(_ & ? & ?)]; eauto.
  - intros (r & Hin & Hty & Hdir).
    destruct (find_is_Some (relationshipMatches p1Id p2Id "is sibling of")
                relationships r Hin) as [r' ->]; [|by eexists].
    unfold relationshipMatches. rewrite Hty. simpl.
    destruct Hdir as [[-> ->]|[-> ->]]; rewrite !String.eqb_refl; simpl;
      [done|by rewrite orb_true_r].
Qed.

(** ** The hops of a found path and the stored records *)

Lemma segments_linked_hop adj l1 seg next l2 :
  segments_linked adj (l1 ++ seg :: next :: l2) →
  ∃ l entry,
    adj !! Person.id (PathSegment.person seg) = Some l ∧ entry ∈ l ∧
    Neighbor.personId entry = Person.id (PathSegment.person next) ∧
    PathSegment.relationshipToNext seg = Some (Neighbor.relationshipLabel entry) ∧
    PathSegment.relationshipId seg = Neighbor.relationshipId entry.
Proof.
  induction l1 as [|a l1 IH]; simpl.
  - intros [(l & entry & ? & ? & _ & ? & ? & ?) _]. by exists l, entry.
  - destruct (l1 ++ seg :: next :: l2) eqn:E; [by destruct l1|].
    intros [_ H]. by apply IH.
Qed.

Lemma segments_linked_last adj l seg :
  segments_linked adj (l ++ [ seg ]) →
  PathSegment.relationshipToNext seg = None ∧ PathSegment.relationshipId seg = None.
Proof.
  induction l as [|a l IH]; simpl; [done|].
  destruct (l ++ [seg]) eqn:E; [by destruct l|]. intros [_ H]. by apply IH.
Qed.

(** A found path between distinct ids, with what the loop invariant tells
    about it. *)
Lemma findRelationshipPath_linked startId endId people relationships path :
  startId ≠ endId →
  findRelationshipPath startId endId people relationships = Returned (Some path) →
  ∃ adj,
    buildAdj people relationships = Some adj ∧
    head (pathIds path) = Some startId ∧
    last (pathIds path) = Some endId ∧
    NoDup (pathIds path) ∧
    segments_linked adj path ∧
    Forall (fun seg =>
              find_person people (Person.id (PathSegment.person seg)) =
              Some (PathSegment.person seg)) path.
Proof.
  intros Hne Hrun.
  destruct (findRelationshipPath_route _ _ _ _ _ Hne Hrun)
    as (adj & startNode & E & Hstart & Hroute & Hnodup).
  apply (route_well_formed people adj startId startNode Hstart) in Hroute
    as (Hhead & Hlast & Hlinked & Hfound).
  by exists adj.
Qed.

(** The adjacency entry behind a hop, and the record behind the entry. *)
Lemma findRelationshipPath_hop_entry
    startId endId people relationships before seg next after :
  startId ≠ endId →
  findRelationshipPath startId endId people relationships =
    Returned (Some (before ++ seg :: next :: after)) →
  ∃ rel fromPerson entry,
    rel ∈ relationships ∧
    find_person people (StoredRelationship.fromPersonId rel) = Some fromPerson ∧
    ((StoredRelationship.fromPersonId rel = Person.id (PathSegment.person seg) ∧
      entry = forwardEntry rel) ∨
     (StoredRelationship.toPersonId rel = Person.id (PathSegment.person seg) ∧
      entry = reverseEntry rel fromPerson)) ∧
    Neighbor.personId entry = Person.id (PathSegment.person next) ∧
    PathSegment.relationshipToNext seg = Some (Neighbor.relationshipLabel entry) ∧
    PathSegment.relationshipId seg = Neighbor.relationshipId entry ∧
    find_person people (Person.id (PathSegment.person next)) =
      Some (PathSegment.person next).
Proof.
  intros Hne Hrun.
  destruct (findRelationshipPath_linked _ _ _ _ _ Hne Hrun)
    as (adj & E & _ & _ & _ & Hlinked & Hfound).
  apply segments_linked_hop in Hlinked as (l & entry & Hl & Hin & Hnext & Hlabel & Hid).
  rewrite (buildAdj_lookup _ _ _ _ E) in Hl.
  destruct (find_person people (Person.id (PathSegment.person seg))); [|done].
  injection Hl as <-. apply list_elem_of_bind in Hin as (rel & Hin & Hrel).
  apply elem_of_entriesAt in Hin as (fp & Hf & _ & Hcase).
  exists rel, fp, entry. repeat (split; [done|]).
  rewrite Forall_forall in Hfound. apply Hfound. set_solver.
Qed.

(** X5. Every hop of a path found between distinct ids stands for a stored
    record: the segment carries the id of a relationship of the input that
    joins its person and the next one, and its label is the forward label of
    the record's kind when the hop goes from source to target, the reverse
    label naming the next person of the path when it goes from target to
    source. *)
Theorem findRelationshipPath_hop_record
    startId endId people relationships before seg next after :
  startId ≠ endId →
  findRelationshipPath startId endId people relationships =
    Returned (Some (before ++ seg :: next :: after)) →
  ∃ rel, rel ∈ relationships ∧
    PathSegment.relationshipId seg = Some (StoredRelationship.id rel) ∧
    ((StoredRelationship.fromPersonId rel = Person.id (PathSegment.person seg) ∧
      StoredRelationship.toPersonId rel = Person.id (PathSegment.person next) ∧
      PathSegment.relationshipToNext seg =
        Some (forwardLabel (StoredRelationship.type rel))) ∨
     (StoredRelationship.toPersonId rel = Person.id (PathSegment.person seg) ∧
      StoredRelationship.fromPersonId rel = Person.id (PathSegment.person next) ∧
      PathSegment.relationshipToNext seg =
        Some (reverseLabel (StoredRelationship.type rel)
                (Person.name (PathSegment.person next))))).
Proof.
  intros Hne Hrun.
  destruct (findRelationshipPath_hop_entry _ _ _ _ _ _ _ _ Hne Hrun)
    as (rel & fp & entry & Hin & Hf & Hcase & Hnext & Hlabel & Hid & Hfound).
  exists rel. split; [done|].
  destruct Hcase as [[Hu ->]|[Hu ->]]; simpl in *.
  - split; [done|]. left. by rewrite Hlabel.
  - split; [done|]. right. split; [done|]. split; [done|].
    rewrite Hnext, Hfound in Hf. injection Hf as <-. by rewrite Hlabel.
Qed.

Lemma findRelationshipPath_hop_record_witness :
  ∃ rel, rel ∈ grandparent_relationships ∧
    Some "r2" = Some (StoredRelationship.id rel) ∧
    ((StoredRelationship.fromPersonId rel = "b" ∧
      StoredRelationship.toPersonId rel = "c" ∧
      Some "is mother of" = Some (forwardLabel (StoredRelationship.type rel))) ∨
     (StoredRelationship.toPersonId rel = "b" ∧
      StoredRelationship.fromPersonId rel = "c" ∧
      Some "is mother of" = Some (reverseLabel (StoredRelationship.type rel) "C"))).
Proof.
  apply (findRelationshipPath_hop_record "a" "c" grandparent_people
           grandparent_relationships
           [ PathSegment.mk personA (Some "is father of") (Some "r1") ]
           (PathSegment.mk personB (Some "is mother of") (Some "r2"))
           (PathSegment.mk personC None None) []).
  - discriminate.
  - vm_compute. reflexivity.
Defined.

(** No segment of a found path carries a relationship id that is not the id
    of a record of the input. *)
Lemma findRelationshipPath_relationshipId startId endId people relationships path seg relId :
  findRelationshipPath startId endId people relationships = Returned (Some path) →
  seg ∈ path → PathSegment.relationshipId seg = Some relId →
  ∃ rel, rel ∈ relationships ∧ StoredRelationship.id rel = relId.
Proof.
  intros Hrun Hseg Hid. destruct (decide (startId = endId)) as [<-|Hne].
  - unfold findRelationshipPath, findRelationshipPath_fuel in Hrun.
    rewrite String.eqb_refl in Hrun.
    destruct (find_person people startId); [|done]. injection Hrun as <-.
    apply list_elem_of_singleton in Hseg as ->. done.
  - apply list_elem_of_split in Hseg as (before & rest & ->).
    destruct rest as [|next after].
    + destruct (findRelationshipPath_linked _ _ _ _ _ Hne Hrun)
        as (adj & _ & _ & _ & _ & Hlinked & _).
      apply segments_linked_last in Hlinked as [_ Hnone]. congruence.
    + destruct (findRelationshipPath_hop_entry startId endId people relationships
                  before seg next after Hne Hrun)
        as (rel & fp & entry & Hin & _ & Hcase & _ & _ & Hentry & _).
      exists rel. split; [done|]. rewrite Hentry in Hid.
      destruct Hcase as [[_ ->]|[_ ->]]; simpl in Hid; congruence.
Qed.

(** ** Highlighting a path on the graph *)

Lemma collectSegment_spec acc seg :
  (∀ x, x ∈ (collectSegment acc seg).1 ↔
        x ∈ acc.1 ∨ x = Person.id (PathSegment.person seg)) ∧
  (∀ x, x ∈ (collectSegment acc seg).2 ↔
        x ∈ acc.2 ∨ (PathSegment.relationshipId seg = Some x ∧ x ≠ "")).
Proof.
  unfold collectSegment.
  destruct (PathSegment.relationshipId seg) as [[|c i]|]; simpl; split; intros x;
    rewrite ?elem_of_union, ?elem_of_singleton; naive_solver.
Qed.

Lemma foldl_collectSegment path : ∀ acc,
  (∀ x, x ∈ (foldl collectSegment acc path).1 ↔ x ∈ acc.1 ∨ x ∈ pathIds path) ∧
  (∀ x, x ∈ (foldl collectSegment acc path).2 ↔
        x ∈ acc.2 ∨
        ∃ seg, seg ∈ path ∧ PathSegment.relationshipId seg = Some x ∧ x ≠ "").
Proof.
  induction path as [|seg path IH]; intros acc; simpl.
  - split; intros x; [set_solver|]. split; [by left|].
    intros [?|(seg & ?%elem_of_nil & _)]; done.
  - destruct (IH (collectSegment acc seg)) as [IH1 IH2].
    destruct (collectSegment_spec acc seg) as [S1 S2]. split; intros x.
    + rewrite IH1, S1, elem_of_cons. naive_solver.
    + rewrite IH2, S2. split.
      * intros [[?|?]|(s' & ? & ?)]; [by left|..].
        -- right. exists seg. split; [left|done].
        -- right. exists s'. split; [by right|done].
      * intros [?|(s' & [->|?]%elem_of_cons & ?)]; [by left; left|by left; right|].
        right. by exists s'.
Qed.

(** What [handleHighlightPath] puts in the two sets for a path of two or
    more segments. *)
Lemma highlight_sets path st :
  2 ≤ length path →
  ∃ info,
    App.highlightedPathInfo (handleHighlightPath (Some path) st) = Some info ∧
    (∀ x, x ∈ HighlightedPathInfo.nodeIds info ↔ x ∈ pathIds path) ∧
    (∀ x, x ∈ HighlightedPathInfo.linkIds info ↔
          ∃ seg, seg ∈ path ∧ PathSegment.relationshipId seg = Some x ∧ x ≠ "").
Proof.
  intros Hlen. destruct path as [|s1 [|s2 rest]]; simpl in Hlen; [lia..|].
  unfold handleHighlightPath.
  destruct (foldl_collectSegment (s1 :: s2 :: rest) (∅, ∅)) as [H1 H2].
  destruct (foldl collectSegment (∅, ∅) (s1 :: s2 :: rest)) as [nodeIds linkIds] eqn:E.
  simpl in H1, H2. eexists. split; [done|]. simpl.
  split; [intros x; rewrite H1; set_solver|]. intros x; rewrite H2; set_solver.
Qed.

(** X6. Highlighting a path of two or more segments marks exactly the ids of
    the people of the path and exactly the non-empty relationship ids that
    its segments carry, switches to the tree view and leaves people and
    relationships alone. *)
Theorem handleHighlightPath_marks path st :
  2 ≤ length path →
  ∃ info,
    App.highlightedPathInfo (handleHighlightPath (Some path) st) = Some info ∧
    (∀ x, x ∈ HighlightedPathInfo.nodeIds info ↔ x ∈ pathIds path) ∧
    (∀ x, x ∈ HighlightedPathInfo.linkIds info ↔
          ∃ seg, seg ∈ path ∧ PathSegment.relationshipId seg = Some x ∧ x ≠ "") ∧
    App.activeView (handleHighlightPath (Some path) st) = ManageFamily ∧
    App.people (handleHighlightPath (Some path) st) = App.people st ∧
    App.relationships (handleHighlightPath (Some path) st) = App.relationships st.
Proof.
  intros Hlen. destruct (highlight_sets path st Hlen) as (info & Hinfo & H1 & H2).
  exists info. repeat (split; [done|]).
  destruct path as [|s1 [|s2 rest]]; simpl in Hlen; [lia..|].
  unfold handleHighlightPath.
  by destruct (foldl collectSegment (∅, ∅) (s1 :: s2 :: rest)).
Qed.

Lemma handleHighlightPath_marks_witness :
  ∃ info,
    App.highlightedPathInfo (handleHighlightPath (Some grandparent_path) initialApp) =
      Some info ∧
    (∀ x, x ∈ HighlightedPathInfo.nodeIds info ↔ x ∈ pathIds grandparent_path) ∧
    (∀ x, x ∈ HighlightedPathInfo.linkIds info ↔
          ∃ seg, seg ∈ grandparent_path ∧
            PathSegment.relationshipId seg = Some x ∧ x ≠ "") ∧
    App.activeView (handleHighlightPath (Some grandparent_path) initialApp) =
      ManageFamily ∧
    App.people (handleHighlightPath (Some grandparent_path) initialApp) =
      App.people initialApp ∧
    App.relationships (handleHighlightPath (Some grandparent_path) initialApp) =
      App.relationships initialApp.
Proof.
  apply (handleHighlightPath_marks grandparent_path initialApp). simpl. lia.
Defined.

(** X7. A null or empty path clears the highlight and does not change the
    view; a path of one segment marks its person and no relationship, even
    when the segment carries a relationship id. *)
Theorem handleHighlightPath_short st seg :
  handleHighlightPath None st = App.setHighlightedPathInfo None st ∧
  handleHighlightPath (Some []) st = App.setHighlightedPathInfo None st ∧
  App.activeView (handleHighlightPath None st) = App.activeView st ∧
  App.highlightedPathInfo (handleHighlightPath (Some [ seg ]) st) =
    Some (HighlightedPathInfo.mk {[ Person.id (PathSegment.person seg) ]} ∅).
Proof.
  repeat split. unfold handleHighlightPath. simpl.
  assert ((∅ : gset string) ∪ {[Person.id (PathSegment.person seg)]} =
          {[Person.id (PathSegment.person seg)]}) as Hn by set_solver.
  unfold collectSegment. simpl.
  destruct (PathSegment.relationshipId seg) as [[|c i]|]; simpl; by rewrite Hn.
Qed.

(** X8. Highlighting a path that the search found between distinct ids marks
    as many people as the path has segments, the start and the end among
    them; every marked relationship id is the id of a stored relationship;
    the nodes handed to the renderer are flagged exactly when their id is on
    the path, a link only when a segment carries its id; and the highlight
    counts as active. *)
Theorem highlight_found_path startId endId st path :
  startId ≠ endId →
  findRelationshipPath startId endId (App.people st) (App.relationships st) =
    Returned (Some path) →
  ∃ info,
    App.highlightedPathInfo (handleHighlightPath (Some path) st) = Some info ∧
    size (HighlightedPathInfo.nodeIds info) = length path ∧
    startId ∈ HighlightedPathInfo.nodeIds info ∧
    endId ∈ HighlightedPathInfo.nodeIds info ∧
    (∀ x, x ∈ HighlightedPathInfo.linkIds info →
          ∃ rel, rel ∈ App.relationships st ∧ StoredRelationship.id rel = x) ∧
    (∀ node, node ∈ graphNodes (handleHighlightPath (Some path) st) →
             (GraphNode.isHighlighted node = true ↔ GraphNode.id node ∈ pathIds path)) ∧
    (∀ link, link ∈ graphLinks (handleHighlightPath (Some path) st) →
             GraphLink.isHighlighted link = true →
             ∃ seg, seg ∈ path ∧
               PathSegment.relationshipId seg = Some (GraphLink.id link)) ∧
    hasHighlight (handleHighlightPath (Some path) st) = true.
Proof.
  intros Hne Hrun.
  destruct (findRelationshipPath_linked _ _ _ _ _ Hne Hrun)
    as (adj & _ & Hhead & Hlast & Hnodup & _ & _).
  assert (2 ≤ length path) as Hlen.
  { destruct path as [|s1 [|s2 rest]]; simpl in *; [done|congruence|lia]. }
  destruct (highlight_sets path st Hlen) as (info & Hinfo & Hnodes & Hlinks).
  assert (HighlightedPathInfo.nodeIds info = list_to_set (pathIds path)) as Hset.
  { apply set_eq. intros x. rewrite Hnodes. set_solver. }
  exists info. split; [done|]. split.
  { rewrite Hset, size_list_to_set by done. unfold pathIds. by rewrite length_fmap. }
  split.
  { apply Hnodes. destruct (pathIds path) as [|x l]; [done|].
    injection Hhead as ->. left. }
  split.
  { apply Hnodes. apply last_Some in Hlast as [l ->]. set_solver. }
  split.
  { intros x (seg & Hseg & Hid & _)%Hlinks.
    by eapply findRelationshipPath_relationshipId. }
  split.
  { intros node (p & -> & _)%list_elem_of_fmap.
    cbn [GraphNode.isHighlighted GraphNode.id].
    unfold nodeHighlighted. rewrite Hinfo, bool_decide_eq_true. apply Hnodes. }
  split.
  { intros link (r & -> & _)%list_elem_of_fmap.
    cbn [GraphLink.isHighlighted GraphLink.id].
    unfold linkHighlighted. rewrite Hinfo, bool_decide_eq_true.
    intros (seg & ? & ? & _)%Hlinks. by exists seg. }
  unfold hasHighlight. rewrite Hinfo.
  apply orb_true_iff. left. apply Nat.ltb_lt.
  rewrite Hset, size_list_to_set by done. unfold pathIds. rewrite length_fmap. lia.
Qed.

Lemma highlight_found_path_witness :
  ∃ info,
    App.highlightedPathInfo (handleHighlightPath (Some grandparent_path) grandparentApp) =
      Some info ∧
    size (HighlightedPathInfo.nodeIds info) = length grandparent_path ∧
    "a" ∈ HighlightedPathInfo.nodeIds info ∧
    "c" ∈ HighlightedPathInfo.nodeIds info ∧
    (∀ x, x ∈ HighlightedPathInfo.linkIds info →
          ∃ rel, rel ∈ App.relationships grandparentApp ∧ StoredRelationship.id rel = x) ∧
    (∀ node, node ∈ graphNodes (handleHighlightPath (Some grandparent_path) grandparentApp) →
             (GraphNode.isHighlighted node = true ↔
              GraphNode.id node ∈ pathIds grandparent_path)) ∧
    (∀ link, link ∈ graphLinks (handleHighlightPath (Some grandparent_path) grandparentApp) →
             GraphLink.isHighlighted link = true →
             ∃ seg, seg ∈ grandparent_path ∧
               PathSegment.relationshipId seg = Some (GraphLink.id link)) ∧
    hasHighlight (handleHighlightPath (Some grandparent_path) grandparentApp) = true.
Proof.
  apply (highlight_found_path "a" "c" grandparentApp grandparent_path).
  - discriminate.
  - vm_compute. reflexivity.
Defined.

(** ** Deleting people and relationships *)

Lemma find_person_filter people x u :
  u ≠ x →
  find_person (filter (fun p => Person.id p ≠ x) people) u = find_person people u.
Proof.
  intros Hne. induction people as [|p people IH]; [done|].
  rewrite filter_cons. unfold find_person in *. simpl.
  destruct (decide (Person.id p ≠ x)) as [Hp|Hp]; simpl.
  - by rewrite IH.
  - rewrite IH. apply dec_stable in Hp.
    destruct (String.eqb_spec (Person.id p) u); [congruence|done].
Qed.

Lemma find_person_filter_gone people x :
  find_person (filter (fun p => Person.id p ≠ x) people) x = None.
Proof.
  apply find_person_None. intros p Hp. by apply list_elem_of_filter in Hp as [? _].
Qed.

(** X9. After a confirmed deletion of a person, looking up the deleted id
    finds nobody, looking up any other id finds the same person as before,
    and no remaining relationship has the deleted id at either end. *)
Theorem deletePerson_lookup st personId :
  find_person (App.people (deletePerson true st personId)) personId = None ∧
  (∀ u, u ≠ personId →
     find_person (App.people (deletePerson true st personId)) u =
     find_person (App.people st) u) ∧
  (∀ r, r ∈ App.relationships (deletePerson true st personId) ↔
        r ∈ App.relationships st ∧
        StoredRelationship.fromPersonId r ≠ personId ∧
        StoredRelationship.toPersonId r ≠ personId).
Proof.
  unfold deletePerson. simpl. split; [apply find_person_filter_gone|]. split.
  - intros u Hu. by apply find_person_filter.
  - intros r. rewrite list_elem_of_filter. naive_solver.
Qed.

(** X10. Deleting a person keeps the relationships consistent with the
    people: if both ends of every relationship named an existing person
    before, they still do afterwards, whether the deletion was confirmed or
    not. *)
Theorem deletePerson_keeps_endpoints confirmed st personId :
  (∀ r, r ∈ App.relationships st → endpoints_known (App.people st) r) →
  ∀ r, r ∈ App.relationships (deletePerson confirmed st personId) →
       endpoints_known (App.people (deletePerson confirmed st personId)) r.
Proof.
  intros Hknown r. unfold deletePerson. destruct confirmed; simpl; [|apply Hknown].
  intros (Hends & Hr)%list_elem_of_filter. destruct Hends as [Hf Ht].
  destruct (Hknown r Hr) as [Kf Kt]. unfold endpoints_known.
  by rewrite !find_person_filter.
Qed.

Lemma deletePerson_keeps_endpoints_witness :
  endpoints_known (App.people (deletePerson true grandparentApp "c"))
    (StoredRelationship.mk "r1" "a" "b" FATHER).
Proof.
  apply (deletePerson_keeps_endpoints true grandparentApp "c").
  - intros r Hr. unfold endpoints_known.
    repeat (apply elem_of_cons in Hr as [->|Hr]; [split; by eexists|]).
    by apply elem_of_nil in Hr.
  - vm_compute. set_solver.
Defined.

(** X11. After a confirmed deletion of a person, no search returns a path
    through that person, whatever the two ids asked for. *)
Theorem deletePerson_off_paths st personId startId endId path :
  findRelationshipPath startId endId
    (App.people (deletePerson true st personId))
    (App.relationships (deletePerson true st personId)) = Returned (Some path) →
  personId ∉ pathIds path.
Proof.
  intros Hrun Hin. apply list_elem_of_fmap in Hin as (seg & Hid & Hseg).
  assert (find_person (App.people (deletePerson true st personId))
            (Person.id (PathSegment.person seg)) = Some (PathSegment.person seg))
    as Hfound.
  { destruct (decide (startId = endId)) as [<-|Hne].
    - unfold findRelationshipPath, findRelationshipPath_fuel in Hrun.
      rewrite String.eqb_refl in Hrun.
      destruct (find_person _ startId) as [p|] eqn:Hp; [|done]. injection Hrun as <-.
      apply list_elem_of_singleton in Hseg as ->. simpl.
      destruct (find_person_Some _ _ _ Hp) as [_ ->]. done.
    - destruct (findRelationshipPath_linked _ _ _ _ _ Hne Hrun)
        as (adj & _ & _ & _ & _ & _ & Hfound).
      rewrite Forall_forall in Hfound. by apply Hfound. }
  rewrite <- Hid in Hfound. unfold deletePerson in Hfound. simpl in Hfound.
  by rewrite find_person_filter_gone in Hfound.
Qed.

Lemma deletePerson_off_paths_witness :
  "4" ∉ pathIds
    [ PathSegment.mk (Person.mk "5" "Robert Roe" male (Some "1996-07-01") None)
        (Some "is father of") (Some "r7");
      PathSegment.mk (Person.mk "6" "Emily Poe" female (Some "2020-03-03") None)
        None None ].
Proof.
  apply (deletePerson_off_paths initialApp "4" "5" "6").
  vm_compute. reflexivity.
Defined.

(** X12. Once a person is deleted, asking to edit that person reports that
    the person cannot be found and opens nothing. *)
Theorem deletePerson_then_edit st personId :
  App.error (handleOpenEditModal (deletePerson true st personId) personId) =
    Some "Could not find person to edit." ∧
  App.isEditModalOpen (handleOpenEditModal (deletePerson true st personId) personId) =
    false ∧
  App.editingPerson (handleOpenEditModal (deletePerson true st personId) personId) = None.
Proof.
  unfold handleOpenEditModal.
  assert (find_person (App.people (deletePerson true st personId)) personId = None)
    as -> by apply find_person_filter_gone.
  done.
Qed.

(** X13. After a confirmed deletion of a relationship, no record carries its
    id any more, the other records are kept in their order, and no search
    returns a path with a segment that carries the deleted id. *)
Theorem deleteRelationship_off_paths st relationshipId :
  App.relationships (deleteRelationship true st relationshipId) =
    filter (fun r => StoredRelationship.id r ≠ relationshipId) (App.relationships st) ∧
  App.people (deleteRelationship true st relationshipId) = App.people st ∧
  ∀ startId endId path seg,
    findRelationshipPath startId endId (App.people st)
      (App.relationships (deleteRelationship true st relationshipId)) =
      Returned (Some path) →
    seg ∈ path → PathSegment.relationshipId seg ≠ Some relationshipId.
Proof.
  split; [done|]. split; [done|]. intros startId endId path seg Hrun Hseg Hid.
  destruct (findRelationshipPath_relationshipId _ _ _ _ _ _ _ Hrun Hseg Hid)
    as (rel & Hrel & Heq).
  unfold deleteRelationship in Hrel. simpl in Hrel.
  by apply list_elem_of_filter in Hrel as [? _].
Qed.

(** ** Editing a relationship *)

(** Splits a membership in a list given by its elements into the cases. *)
Ltac elem_cases H :=
  repeat (first [ apply elem_of_nil in H; destruct H
                | apply elem_of_cons in H as [->|H] ]).

Lemma find_None_elem_of {A : Type} (f : A → bool) (l : list A) x :
  find f l = None → x ∈ l → f x = false.
Proof. intros Hnone Hin. apply (find_none f l Hnone). by apply list_elem_of_In. Qed.

(** A refused update: an error is shown and nothing else changes. *)
Lemma updateRelationship_refused st id fromPersonId toPersonId type st' :
  updateRelationship st id fromPersonId toPersonId type = (false, st') →
  ∃ message, st' = App.setError (Some message) st.
Proof.
  unfold updateRelationship. intros H.
  destruct (String.eqb fromPersonId toPersonId); [injection H as <-; by eexists|].
  destruct (find (duplicates _ _ _ _) _); [injection H as <-; by eexists|].
  match type of H with (if ?c then _ else _) = _ => destruct c end;
    [injection H as <-; by eexists|done].
Qed.

(** An accepted update: what the checks have established, and the state. *)
Lemma updateRelationship_accepted st id fromPersonId toPersonId type st' :
  updateRelationship st id fromPersonId toPersonId type = (true, st') →
  fromPersonId ≠ toPersonId ∧
  (∀ r, r ∈ App.relationships st →
        duplicates id fromPersonId toPersonId type r = false) ∧
  (type = FATHER ∨ type = MOTHER →
   ∀ r, r ∈ App.relationships st → otherParent id toPersonId type r = false) ∧
  st' = App.setHighlightedPathInfo None
          (App.setRelationships
             (rewriteRelationship id fromPersonId toPersonId type <$>
              App.relationships st) (App.setError None st)).
Proof.
  unfold updateRelationship. intros H.
  destruct (String.eqb_spec fromPersonId toPersonId) as [|Hne]; [done|].
  cbn [App.relationships App.setError] in H.
  destruct (find (duplicates _ _ _ _) _) eqn:Hdup; [done|].
  split; [done|]. split; [intros r; by apply find_None_elem_of|].
  destruct (bool_decide (type = FATHER) || bool_decide (type = MOTHER)) eqn:Hparent.
  - destruct (find (otherParent _ _ _) _) as [existing|] eqn:Hother.
    + destruct (String.eqb_spec (StoredRelationship.fromPersonId existing) fromPersonId)
        as [Hsame|]; [|done].
      exfalso. apply find_elem_of in Hother as [Hin Hm].
      pose proof (find_None_elem_of _ _ existing Hdup Hin) as Hd.
      unfold otherParent in Hm. unfold duplicates in Hd.
      apply andb_true_iff in Hm as [[Hid Hto]%andb_true_iff Hty].
      rewrite Hid, Hto, Hty, Hsame, String.eqb_refl in Hd. done.
    + injection H as <-. split; [|done]. intros _ r. by apply find_None_elem_of.
  - injection H as <-. split; [|done]. intros [-> | ->]; done.
Qed.

Lemma elem_of_rewritten id fromPersonId toPersonId type
    (relationships : list StoredRelationship.t) r :
  r ∈ rewriteRelationship id fromPersonId toPersonId type <$> relationships →
  (r ∈ relationships ∧ StoredRelationship.id r ≠ id) ∨
  (r = StoredRelationship.mk id fromPersonId toPersonId type ∧
   ∃ r0, r0 ∈ relationships ∧ StoredRelationship.id r0 = id).
Proof.
  intros (r0 & -> & Hin)%list_elem_of_fmap. unfold rewriteRelationship.
  destruct (String.eqb_spec (StoredRelationship.id r0) id) as [Heq|Hne].
  - right. rewrite Heq. eauto.
  - by left.
Qed.

(** X14. An update of a relationship that is refused shows an error and
    changes neither people, relationships nor highlight; an update that is
    accepted clears the error and the highlight and changes no person. An
    update that would relate a person to themselves is always refused. *)
Theorem updateRelationship_outcome st id fromPersonId toPersonId type :
  ((updateRelationship st id fromPersonId toPersonId type).1 = false →
   is_Some (App.error (updateRelationship st id fromPersonId toPersonId type).2) ∧
   App.relationships (updateRelationship st id fromPersonId toPersonId type).2 =
     App.relationships st ∧
   App.people (updateRelationship st id fromPersonId toPersonId type).2 =
     App.people st ∧
   App.highlightedPathInfo (updateRelationship st id fromPersonId toPersonId type).2 =
     App.highlightedPathInfo st) ∧
  ((updateRelationship st id fromPersonId toPersonId type).1 = true →
   App.error (updateRelationship st id fromPersonId toPersonId type).2 = None ∧
   App.highlightedPathInfo (updateRelationship st id fromPersonId toPersonId type).2 =
     None ∧
   App.people (updateRelationship st id fromPersonId toPersonId type).2 =
     App.people st) ∧
  (fromPersonId = toPersonId →
   (updateRelationship st id fromPersonId toPersonId type).1 = false).
Proof.
  split; [|split].
  - destruct (updateRelationship st id fromPersonId toPersonId type)
      as [[|] st'] eqn:E; [done|]. intros _. simpl.
    by apply updateRelationship_refused in E as [message ->].
  - destruct (updateRelationship st id fromPersonId toPersonId type)
      as [[|] st'] eqn:E; [|done]. intros _. simpl.
    by apply updateRelationship_accepted in E as (_ & _ & _ & ->).
  - intros ->. unfold updateRelationship. by rewrite String.eqb_refl.
Qed.

Lemma rewriteRelationship_id id fromPersonId toPersonId type r :
  StoredRelationship.id (rewriteRelationship id fromPersonId toPersonId type r) =
    StoredRelationship.id r.
Proof.
  unfold rewriteRelationship.
  by destruct (String.eqb_spec (StoredRelationship.id r) id).
Qed.

Lemma rewriteRelationship_other id fromPersonId toPersonId type r :
  StoredRelationship.id r ≠ id →
  rewriteRelationship id fromPersonId toPersonId type r = r.
Proof.
  unfold rewriteRelationship.
  by destruct (String.eqb_spec (StoredRelationship.id r) id).
Qed.

(** X15. An update, accepted or refused, keeps the ids of the stored
    relationships and their order, and leaves every record with another id
    as it was; so an update under an id that no record carries changes no
    relationship. After an accepted update, every record with the given id
    holds the new pair of people and the new kind. *)
Theorem updateRelationship_by_id st id fromPersonId toPersonId type :
  StoredRelationship.id <$>
    App.relationships (updateRelationship st id fromPersonId toPersonId type).2 =
    StoredRelationship.id <$> App.relationships st ∧
  (∀ i r, App.relationships st !! i = Some r → StoredRelationship.id r ≠ id →
     App.relationships (updateRelationship st id fromPersonId toPersonId type).2 !! i =
       Some r) ∧
  ((∀ r, r ∈ App.relationships st → StoredRelationship.id r ≠ id) →
   App.relationships (updateRelationship st id fromPersonId toPersonId type).2 =
     App.relationships st) ∧
  ((updateRelationship st id fromPersonId toPersonId type).1 = true →
   ∀ r, r ∈ App.relationships
              (updateRelationship st id fromPersonId toPersonId type).2 →
        StoredRelationship.id r = id →
        r = StoredRelationship.mk id fromPersonId toPersonId type).
Proof.
  destruct (updateRelationship st id fromPersonId toPersonId type)
    as [[|] st'] eqn:E; simpl.
  - apply updateRelationship_accepted in E as (_ & _ & _ & ->). simpl.
    repeat split.
    + rewrite <- list_fmap_compose. apply list_fmap_ext.
      intros i r _. apply rewriteRelationship_id.
    + intros i r Hi Hne. rewrite list_lookup_fmap, Hi. simpl.
      by rewrite rewriteRelationship_other.
    + intros Hnone. rewrite <- (list_fmap_id (App.relationships st)) at 2.
      apply list_fmap_ext. intros i r Hi. apply rewriteRelationship_other.
      apply Hnone. by eapply list_elem_of_lookup_2.
    + intros _ r Hin Hid. apply elem_of_rewritten in Hin as [[_ ?]|[? _]]; done.
  - apply updateRelationship_refused in E as [message ->]. by repeat split.
Qed.

(** X16. If nobody is related to themselves before an update of a
    relationship, nobody is afterwards, whether the update was accepted or
    refused. *)
Theorem updateRelationship_no_self_edges st id fromPersonId toPersonId type :
  no_self_edges (App.relationships st) →
  no_self_edges
    (App.relationships (updateRelationship st id fromPersonId toPersonId type).2).
Proof.
  intros Hinv.
  destruct (updateRelationship st id fromPersonId toPersonId type)
    as [[|] st'] eqn:E; simpl.
  - apply updateRelationship_accepted in E as (Hne & _ & _ & ->). simpl.
    intros r [[Hin _]|[-> _]]%elem_of_rewritten; [by apply Hinv|done].
  - by apply updateRelationship_refused in E as [message ->].
Qed.

Lemma updateRelationship_no_self_edges_witness :
  no_self_edges
    (App.relationships (updateRelationship grandparentApp "r1" "b" "a" FATHER).2).
Proof.
  apply (updateRelationship_no_self_edges grandparentApp "r1" "b" "a" FATHER).
  intros r Hr. vm_compute in Hr. elem_cases Hr; done.
Defined.

Lemma duplicates_false id fromPersonId toPersonId type r :
  duplicates id fromPersonId toPersonId type r = false →
  StoredRelationship.id r ≠ id →
  ¬ (StoredRelationship.type r = type ∧
     ((StoredRelationship.fromPersonId r = fromPersonId ∧
       StoredRelationship.toPersonId r = toPersonId) ∨
      ((type = SPOUSE ∨ type = SIBLING) ∧
       StoredRelationship.fromPersonId r = toPersonId ∧
       StoredRelationship.toPersonId r = fromPersonId))).
Proof.
  unfold duplicates. intros Hd Hid [Hty Hlink].
  destruct (String.eqb_spec (StoredRelationship.id r) id); [done|]. simpl in Hd.
  rewrite (bool_decide_eq_true_2 _ Hty) in Hd.
  destruct Hlink as [[Hf Ht] | (Hsym & Hf & Ht)]; rewrite Hf, Ht in Hd.
  - by rewrite !String.eqb_refl in Hd.
  - rewrite !String.eqb_refl, !andb_true_r in Hd.
    apply orb_false_iff in Hd as [_ Hd].
    destruct Hsym as [Hs | Hs]; by rewrite Hs in Hd.
Qed.

Lemma otherParent_false id toPersonId type r :
  otherParent id toPersonId type r = false →
  StoredRelationship.id r ≠ id →
  StoredRelationship.type r = type →
  StoredRelationship.toPersonId r ≠ toPersonId.
Proof.
  unfold otherParent. intros Hp Hid Hty Hto.
  destruct (String.eqb_spec (StoredRelationship.id r) id); [done|].
  by rewrite Hto, String.eqb_refl, (bool_decide_eq_true_2 _ Hty) in Hp.
Qed.

(** X17. If no two records with different ids state the same relationship
    (same kind and same two people, in either order for spouses and
    siblings) before an update, none do afterwards. *)
Theorem updateRelationship_no_duplicates st id fromPersonId toPersonId type :
  no_duplicates (App.relationships st) →
  no_duplicates
    (App.relationships (updateRelationship st id fromPersonId toPersonId type).2).
Proof.
  intros Hinv.
  destruct (updateRelationship st id fromPersonId toPersonId type)
    as [[|] st'] eqn:E; simpl.
  - apply updateRelationship_accepted in E as (_ & Hdup & _ & ->). simpl.
    intros r r' [[Hin Hid]|[-> _]]%elem_of_rewritten
                [[Hin' Hid']|[-> _]]%elem_of_rewritten Hne Hsame.
    + by apply (Hinv r r').
    + apply (duplicates_false _ _ _ _ r (Hdup r Hin) Hid).
      destruct Hsame as [Hty Hlink]. simpl in Hty, Hlink. split; [done|].
      destruct Hlink as [[-> ->] | (Hsym & -> & ->)]; [by left|right].
      rewrite Hty. done.
    + by apply (duplicates_false _ _ _ _ r' (Hdup r' Hin') Hid').
    + done.
  - by apply updateRelationship_refused in E as [message ->].
Qed.

Lemma updateRelationship_no_duplicates_witness :
  no_duplicates
    (App.relationships (updateRelationship grandparentApp "r1" "b" "a" FATHER).2).
Proof.
  apply (updateRelationship_no_duplicates grandparentApp "r1" "b" "a" FATHER).
  intros r r' Hr Hr' Hid [Hty _]. vm_compute in Hr, Hr'.
  elem_cases Hr; elem_cases Hr'; done.
Defined.

(** X18. If the FATHER records of every child all carry one id, and so do
    the MOTHER records, before an update, the same holds afterwards: editing
    relationships never gives a child a second father or mother. *)
Theorem updateRelationship_single_parents st id fromPersonId toPersonId type :
  single_parents (App.relationships st) →
  single_parents
    (App.relationships (updateRelationship st id fromPersonId toPersonId type).2).
Proof.
  intros Hinv.
  destruct (updateRelationship st id fromPersonId toPersonId type)
    as [[|] st'] eqn:E; simpl.
  - apply updateRelationship_accepted in E as (_ & _ & Hother & ->). simpl.
    intros r r' [[Hin Hid]|[-> _]]%elem_of_rewritten
                [[Hin' Hid']|[-> _]]%elem_of_rewritten Hparent Hty Hto.
    + by apply (Hinv r r').
    + simpl in *. subst type. specialize (Hother Hparent r Hin).
      by destruct (otherParent_false _ _ _ r Hother Hid).
    + simpl in *. specialize (Hother Hparent r' Hin').
      by destruct (otherParent_false _ _ _ r' Hother Hid').
    + done.
  - by apply updateRelationship_refused in E as [message ->].
Qed.

Lemma updateRelationship_single_parents_witness :
  single_parents
    (App.relationships (updateRelationship grandparentApp "r1" "b" "a" FATHER).2).
Proof.
  apply (updateRelationship_single_parents grandparentApp "r1" "b" "a" FATHER).
  intros r r' Hr Hr' _ Hty Hto. vm_compute in Hr, Hr'.
  elem_cases Hr; elem_cases Hr'; done.
Defined.

(** ** The relationships of the edited person *)

Lemma find_None_intro {A : Type} (f : A → bool) (l : list A) :
  (∀ x, x ∈ l → f x = false) → find f l = None.
Proof.
  induction l as [|a l IH]; [done|]. intros Hall. simpl.
  rewrite (Hall a) by (apply elem_of_cons; by left).
  apply IH. intros x Hx. apply Hall. apply elem_of_cons. by right.
Qed.

Lemma duplicates_true id fromPersonId toPersonId type r :
  duplicates id fromPersonId toPersonId type r = true →
  StoredRelationship.id r ≠ id ∧
  StoredRelationship.type r = type ∧
  ((StoredRelationship.fromPersonId r = fromPersonId ∧
    StoredRelationship.toPersonId r = toPersonId) ∨
   ((type = SPOUSE ∨ type = SIBLING) ∧
    StoredRelationship.fromPersonId r = toPersonId ∧
    StoredRelationship.toPersonId r = fromPersonId)).
Proof.
  unfold duplicates. intros [Hid Hlink]%andb_true_iff.
  split; [by destruct (String.eqb_spec (StoredRelationship.id r) id)|].
  apply orb_true_iff in Hlink as [H|H].
  - apply andb_true_iff in H as [[Hf Ht]%andb_true_iff Hty].
    apply String.eqb_eq in Hf, Ht. apply bool_decide_eq_true in Hty.
    split; [done|]. by left.
  - apply andb_true_iff in H as [[[Hs Hf]%andb_true_iff Ht]%andb_true_iff Hty].
    apply String.eqb_eq in Hf, Ht. apply bool_decide_eq_true in Hty.
    split; [done|]. right. split; [|done].
    apply orb_true_iff in Hs as [Hs|Hs]; apply bool_decide_eq_true in Hs; eauto.
Qed.

Lemma otherParent_true id toPersonId type r :
  otherParent id toPersonId type r = true →
  StoredRelationship.id r ≠ id ∧
  StoredRelationship.toPersonId r = toPersonId ∧
  StoredRelationship.type r = type.
Proof.
  unfold otherParent. intros [[Hid Hto]%andb_true_iff Hty]%andb_true_iff.
  split; [by destruct (String.eqb_spec (StoredRelationship.id r) id)|].
  apply bool_decide_eq_true in Hty. by apply String.eqb_eq in Hto.
Qed.

(** An update that passes the checks is carried out. *)
Lemma updateRelationship_accepts st id fromPersonId toPersonId type :
  fromPersonId ≠ toPersonId →
  (∀ r, r ∈ App.relationships st →
        duplicates id fromPersonId toPersonId type r = false) →
  (type = FATHER ∨ type = MOTHER →
   ∀ r, r ∈ App.relationships st → otherParent id toPersonId type r = false) →
  updateRelationship st id fromPersonId toPersonId type =
    (true,
     App.setHighlightedPathInfo None
       (App.setRelationships
          (rewriteRelationship id fromPersonId toPersonId type <$>
           App.relationships st) (App.setError None st))).
Proof.
  intros Hne Hdup Hother. unfold updateRelationship.
  destruct (String.eqb_spec fromPersonId toPersonId); [done|].
  cbn [App.relationships App.setError].
  rewrite (find_None_intro _ _ Hdup).
  destruct (bool_decide (type = FATHER) || bool_decide (type = MOTHER)) eqn:Hparent;
    [|done].
  rewrite find_None_intro; [done|]. apply Hother.
  apply orb_true_iff in Hparent as [H|H]; apply bool_decide_eq_true in H; eauto.
Qed.

Lemma NoDup_fmap_eq {A B : Type} (f : A → B) (l : list A) x y :
  NoDup (f <$> l) → x ∈ l → y ∈ l → f x = f y → x = y.
Proof.
  induction l as [|a l IH]; intros Hnd Hx Hy Heq; [by apply elem_of_nil in Hx|].
  rewrite fmap_cons in Hnd. apply NoDup_cons in Hnd as [Hnotin Hnd].
  apply elem_of_cons in Hx as [->|Hx]; apply elem_of_cons in Hy as [->|Hy].
  - done.
  - destruct Hnotin. rewrite Heq. by apply list_elem_of_fmap_2.
  - destruct Hnotin. rewrite <- Heq. by apply list_elem_of_fmap_2.
  - by apply IH.
Qed.

(** What saving amounts to, for an entry seen from its source side and for
    one seen from its target side. *)
Lemma saveUnchanged_source personToEdit people r other st :
  StoredRelationship.fromPersonId r = Person.id personToEdit →
  find_person people (StoredRelationship.toPersonId r) = Some other →
  saveUnchanged personToEdit (viewRelationship personToEdit people r) st =
    ((if (updateRelationship st (StoredRelationship.id r)
            (StoredRelationship.fromPersonId r) (StoredRelationship.toPersonId r)
            (StoredRelationship.type r)).1
      then None else Some (StoredRelationship.id r)),
     (updateRelationship st (StoredRelationship.id r)
        (StoredRelationship.fromPersonId r) (StoredRelationship.toPersonId r)
        (StoredRelationship.type r)).2).
Proof.
  intros Hfrom Hother. destruct (find_person_Some _ _ _ Hother) as [_ Hid].
  unfold saveUnchanged, startEditingRel, saveRelEdit, viewRelationship,
    onUpdateRelationship.
  cbn [PersonRelationship.isFrom PersonRelationship.otherPerson
       PersonRelationship.id PersonRelationship.type].
  rewrite Hfrom, String.eqb_refl, Hother, Hid.
  by destruct (updateRelationship _ _ _ _ _) as [[|] st'].
Qed.

Lemma saveUnchanged_target personToEdit people r other st :
  StoredRelationship.fromPersonId r ≠ Person.id personToEdit →
  find_person people (StoredRelationship.fromPersonId r) = Some other →
  let fromId :=
    if bool_decide (StoredRelationship.type r = FATHER) ||
       bool_decide (StoredRelationship.type r = MOTHER)
    then StoredRelationship.fromPersonId r else Person.id personToEdit in
  let toId :=
    if bool_decide (StoredRelationship.type r = FATHER) ||
       bool_decide (StoredRelationship.type r = MOTHER)
    then Person.id personToEdit else StoredRelationship.fromPersonId r in
  let type :=
    if bool_decide (StoredRelationship.type r = FATHER) ||
       bool_decide (StoredRelationship.type r = MOTHER)
    then (if bool_decide (Person.gender other = female) then MOTHER else FATHER)
    else StoredRelationship.type r in
  saveUnchanged personToEdit (viewRelationship personToEdit people r) st =
    ((if (updateRelationship st (StoredRelationship.id r) fromId toId type).1
      then None else Some (StoredRelationship.id r)),
     (updateRelationship st (StoredRelationship.id r) fromId toId type).2).
Proof.
  intros Hfrom Hother. destruct (find_person_Some _ _ _ Hother) as [_ Hid].
  unfold saveUnchanged, startEditingRel, saveRelEdit, viewRelationship,
    onUpdateRelationship.
  cbn [PersonRelationship.isFrom PersonRelationship.otherPerson
       PersonRelationship.id PersonRelationship.type].
  destruct (String.eqb_spec (StoredRelationship.fromPersonId r) (Person.id personToEdit));
    [done|].
  rewrite Hother, Hid.
  destruct (bool_decide (StoredRelationship.type r = FATHER) ||
            bool_decide (StoredRelationship.type r = MOTHER)); simpl.
  - destruct (Person.gender other); simpl;
      by destruct (updateRelationship _ _ _ _ _) as [[|] st'].
  - by destruct (updateRelationship _ _ _ _ _) as [[|] st'].
Qed.

(** X19. The editor lists exactly the stored relationships that the edited
    person takes part in, in the stored order; an entry is seen from the
    source side exactly when the person is the source of the record, and the
    other person it shows, if any, is the known person at the other end. With
    no person to edit the list is empty. *)
Theorem personRelationships_involving personToEdit relationships people :
  PersonRelationship.id <$> personRelationships (Some personToEdit) relationships people =
    StoredRelationship.id <$>
      filter (fun r => StoredRelationship.fromPersonId r = Person.id personToEdit ∨
                       StoredRelationship.toPersonId r = Person.id personToEdit)
        relationships ∧
  (∀ rel, rel ∈ personRelationships (Some personToEdit) relationships people →
     StoredRelationship.mk (PersonRelationship.id rel)
       (PersonRelationship.fromPersonId rel) (PersonRelationship.toPersonId rel)
       (PersonRelationship.type rel) ∈ relationships ∧
     (PersonRelationship.isFrom rel = true ↔
      PersonRelationship.fromPersonId rel = Person.id personToEdit) ∧
     (PersonRelationship.isFrom rel = false →
      PersonRelationship.toPersonId rel = Person.id personToEdit) ∧
     ∀ other, PersonRelationship.otherPerson rel = Some other →
       other ∈ people ∧
       Person.id other =
         (if PersonRelationship.isFrom rel then PersonRelationship.toPersonId rel
          else PersonRelationship.fromPersonId rel)) ∧
  personRelationships None relationships people = [].
Proof.
  split; [|split; [|done]].
  - unfold personRelationships. rewrite <- list_fmap_compose. by apply list_fmap_ext.
  - intros rel (r & -> & [Hinv Hin]%list_elem_of_filter)%list_elem_of_fmap.
    unfold viewRelationship.
    cbn [PersonRelationship.id PersonRelationship.fromPersonId
         PersonRelationship.toPersonId PersonRelationship.type
         PersonRelationship.isFrom PersonRelationship.otherPerson].
    split; [by destruct r|].
    destruct (String.eqb_spec (StoredRelationship.fromPersonId r)
                (Person.id personToEdit)) as [Heq|Hne].
    + split; [done|]. split; [done|]. intros other. apply find_person_Some.
    + split; [by split|]. split; [by destruct Hinv|].
      intros other. apply find_person_Some.
Qed.

(** The checks pass for the record a stored relationship already holds, and
    for its reverse when it is symmetric. *)
Lemma duplicates_of_stored relationships r r' :
  no_duplicates relationships → r ∈ relationships → r' ∈ relationships →
  duplicates (StoredRelationship.id r) (StoredRelationship.fromPersonId r)
    (StoredRelationship.toPersonId r) (StoredRelationship.type r) r' = false.
Proof.
  intros Hinv Hr Hr'.
  destruct (duplicates _ _ _ _ r') eqn:Hd; [|done]. exfalso.
  apply duplicates_true in Hd as (Hid & Hty & Hlink).
  by apply (Hinv r r' Hr Hr' Hid).
Qed.

Lemma duplicates_of_reversed relationships r r' :
  no_duplicates relationships → r ∈ relationships → r' ∈ relationships →
  StoredRelationship.type r = SPOUSE ∨ StoredRelationship.type r = SIBLING →
  duplicates (StoredRelationship.id r) (StoredRelationship.toPersonId r)
    (StoredRelationship.fromPersonId r) (StoredRelationship.type r) r' = false.
Proof.
  intros Hinv Hr Hr' Hsym.
  destruct (duplicates _ _ _ _ r') eqn:Hd; [|done]. exfalso.
  apply duplicates_true in Hd as (Hid & Hty & Hlink).
  apply (Hinv r r' Hr Hr' Hid). split; [done|].
  destruct Hlink as [[Hf Ht] | (_ & Hf & Ht)]; [right|left]; done.
Qed.

(** X20. Opening a relationship from the side of its source and saving it
    unchanged is accepted and changes no relationship, provided the ids of
    the records are distinct, the record links two different people, the
    other person is known, and the records hold no duplicate and no second
    father or mother. *)
Theorem saveUnchanged_from_source st personToEdit r other :
  NoDup (StoredRelationship.id <$> App.relationships st) →
  no_duplicates (App.relationships st) →
  single_parents (App.relationships st) →
  r ∈ App.relationships st →
  StoredRelationship.fromPersonId r = Person.id personToEdit →
  StoredRelationship.toPersonId r ≠ Person.id personToEdit →
  find_person (App.people st) (StoredRelationship.toPersonId r) = Some other →
  (saveUnchanged personToEdit (viewRelationship personToEdit (App.people st) r) st).1 =
    None ∧
  App.relationships
    (saveUnchanged personToEdit (viewRelationship personToEdit (App.people st) r) st).2 =
    App.relationships st ∧
  App.error
    (saveUnchanged personToEdit (viewRelationship personToEdit (App.people st) r) st).2 =
    None.
Proof.
  intros Hids Hdup Hpar Hr Hfrom Hto Hother.
  rewrite (saveUnchanged_source _ _ _ _ _ Hfrom Hother).
  rewrite updateRelationship_accepts.
  - cbn [fst snd App.relationships App.setHighlightedPathInfo App.setRelationships
         App.error App.setError].
    split; [done|]. split; [|done].
    rewrite <- (list_fmap_id (App.relationships st)) at 2.
    apply list_fmap_ext. intros i r' Hi. apply list_elem_of_lookup_2 in Hi.
    unfold rewriteRelationship.
    destruct (String.eqb_spec (StoredRelationship.id r') (StoredRelationship.id r))
      as [Heq|Hne]; [|done].
    rewrite (NoDup_fmap_eq _ _ r' r Hids Hi Hr Heq). by destruct r.
  - congruence.
  - intros r' Hr'. by apply (duplicates_of_stored (App.relationships st)).
  - intros Hparent r' Hr'.
    destruct (otherParent _ _ _ r') eqn:Hp; [|done]. exfalso.
    apply otherParent_true in Hp as (Hid & Hto' & Hty).
    by apply Hid, (Hpar r r').
Qed.

Lemma saveUnchanged_from_source_witness :
  (saveUnchanged personA (viewRelationship personA (App.people grandparentApp)
                            (StoredRelationship.mk "r1" "a" "b" FATHER))
     grandparentApp).1 = None ∧
  App.relationships
    (saveUnchanged personA (viewRelationship personA (App.people grandparentApp)
                              (StoredRelationship.mk "r1" "a" "b" FATHER))
       grandparentApp).2 = App.relationships grandparentApp ∧
  App.error
    (saveUnchanged personA (viewRelationship personA (App.people grandparentApp)
                              (StoredRelationship.mk "r1" "a" "b" FATHER))
       grandparentApp).2 = None.
Proof.
  apply (saveUnchanged_from_source grandparentApp personA
           (StoredRelationship.mk "r1" "a" "b" FATHER) personB).
  - vm_compute. repeat constructor; set_solver.
  - intros r r' Hr Hr' Hid [Hty _]. vm_compute in Hr, Hr'.
    elem_cases Hr; elem_cases Hr'; done.
  - intros r r' Hr Hr' _ Hty Hto. vm_compute in Hr, Hr'.
    elem_cases Hr; elem_cases Hr'; done.
  - vm_compute. set_solver.
  - reflexivity.
  - discriminate.
  - reflexivity.
Defined.

(** X21. Opening a SPOUSE or SIBLING relationship from the side of its
    target and saving it unchanged is accepted when the records hold no
    duplicate, and turns the record round: the edited person becomes its
    source and the other person its target. *)
Theorem saveUnchanged_from_target st personToEdit r other :
  no_duplicates (App.relationships st) →
  r ∈ App.relationships st →
  StoredRelationship.type r = SPOUSE ∨ StoredRelationship.type r = SIBLING →
  StoredRelationship.toPersonId r = Person.id personToEdit →
  StoredRelationship.fromPersonId r ≠ Person.id personToEdit →
  find_person (App.people st) (StoredRelationship.fromPersonId r) = Some other →
  (saveUnchanged personToEdit (viewRelationship personToEdit (App.people st) r) st).1 =
    None ∧
  App.relationships
    (saveUnchanged personToEdit (viewRelationship personToEdit (App.people st) r) st).2 =
    rewriteRelationship (StoredRelationship.id r) (StoredRelationship.toPersonId r)
      (StoredRelationship.fromPersonId r) (StoredRelationship.type r) <$>
    App.relationships st ∧
  StoredRelationship.mk (StoredRelationship.id r) (StoredRelationship.toPersonId r)
    (StoredRelationship.fromPersonId r) (StoredRelationship.type r) ∈
  App.relationships
    (saveUnchanged personToEdit (viewRelationship personToEdit (App.people st) r) st).2.
Proof.
  intros Hdup Hr Hsym Hto Hfrom Hother.
  rewrite (saveUnchanged_target _ _ _ _ _ Hfrom Hother).
  assert (bool_decide (StoredRelationship.type r = FATHER) ||
          bool_decide (StoredRelationship.type r = MOTHER) = false) as ->.
  { by destruct Hsym as [-> | ->]. }
  rewrite <- Hto. rewrite updateRelationship_accepts.
  - cbn [fst snd App.relationships App.setHighlightedPathInfo App.setRelationships].
    split; [done|]. split; [done|].
    apply list_elem_of_fmap. exists r. split; [|done].
    unfold rewriteRelationship. by rewrite String.eqb_refl.
  - congruence.
  - intros r' Hr'. by apply (duplicates_of_reversed (App.relationships st)).
  - intros [Hty|Hty] r' Hr'; destruct Hsym as [Hs|Hs]; congruence.
Qed.

Lemma saveUnchanged_from_target_witness :
  let st := App.mk tie_people tie_relationships ManageFamily None None None false in
  let r := StoredRelationship.mk "s1" "a" "b" SIBLING in
  (saveUnchanged personB (viewRelationship personB (App.people st) r) st).1 = None ∧
  App.relationships
    (saveUnchanged personB (viewRelationship personB (App.people st) r) st).2 =
    rewriteRelationship "s1" "b" "a" SIBLING <$> App.relationships st ∧
  StoredRelationship.mk "s1" "b" "a" SIBLING ∈
  App.relationships
    (saveUnchanged personB (viewRelationship personB (App.people st) r) st).2.
Proof.
  intros st r. apply (saveUnchanged_from_target st personB r personA).
  - intros x x' Hx Hx' Hid [Hty Hlink]. vm_compute in Hx, Hx'.
    elem_cases Hx; elem_cases Hx'; try done;
      destruct Hlink as [[? ?] | (_ & ? & ?)]; done.
  - vm_compute. set_solver.
  - by right.
  - reflexivity.
  - discriminate.
  - reflexivity.
Defined.

(** X22. Opening a FATHER or MOTHER relationship from the side of the child
    and saving it unchanged asks for the kind that the gender of the parent
    gives, MOTHER for a female parent and FATHER for any other, not for the
    stored kind: when the save is accepted the record holds that kind, with
    the same two people; when it is refused the editor stays on the record,
    an error is shown and no relationship changes. *)
Theorem saveUnchanged_from_child st personToEdit r other :
  StoredRelationship.type r = FATHER ∨ StoredRelationship.type r = MOTHER →
  r ∈ App.relationships st →
  StoredRelationship.toPersonId r = Person.id personToEdit →
  StoredRelationship.fromPersonId r ≠ Person.id personToEdit →
  find_person (App.people st) (StoredRelationship.fromPersonId r) = Some other →
  ((saveUnchanged personToEdit (viewRelationship personToEdit (App.people st) r) st).1 =
     None ∧
   StoredRelationship.mk (StoredRelationship.id r) (StoredRelationship.fromPersonId r)
     (StoredRelationship.toPersonId r)
     (if bool_decide (Person.gender other = female) then MOTHER else FATHER) ∈
   App.relationships
     (saveUnchanged personToEdit (viewRelationship personToEdit (App.people st) r) st).2 ∧
   ∀ r', r' ∈ App.relationships
                (saveUnchanged personToEdit
                   (viewRelationship personToEdit (App.people st) r) st).2 →
         StoredRelationship.id r' = StoredRelationship.id r →
         StoredRelationship.type r' =
           (if bool_decide (Person.gender other = female) then MOTHER else FATHER)) ∨
  ((saveUnchanged personToEdit (viewRelationship personToEdit (App.people st) r) st).1 =
     Some (StoredRelationship.id r) ∧
   is_Some (App.error
              (saveUnchanged personToEdit
                 (viewRelationship personToEdit (App.people st) r) st).2) ∧
   App.relationships
     (saveUnchanged personToEdit (viewRelationship personToEdit (App.people st) r) st).2 =
     App.relationships st).
Proof.
  intros Hparent Hr Hto Hfrom Hother.
  rewrite (saveUnchanged_target _ _ _ _ _ Hfrom Hother).
  assert (bool_decide (StoredRelationship.type r = FATHER) ||
          bool_decide (StoredRelationship.type r = MOTHER) = true) as ->.
  { by destruct Hparent as [-> | ->]. }
  rewrite <- Hto.
  destruct (updateRelationship st _ _ _ _) as [[|] st'] eqn:E;
    cbn [fst snd]; [left|right].
  - apply updateRelationship_accepted in E as (_ & _ & _ & ->).
    cbn [App.relationships App.setHighlightedPathInfo App.setRelationships].
    split; [done|]. split.
    + apply list_elem_of_fmap. exists r. split; [|done].
      unfold rewriteRelationship. by rewrite String.eqb_refl.
    + intros r' [[_ Hid]|[-> _]]%elem_of_rewritten Heq; done.
  - apply updateRelationship_refused in E as [message ->]. by eauto.
Qed.

Lemma saveUnchanged_from_child_witness :
  let st := App.mk [ personC; personD ]
              [ StoredRelationship.mk "m" "d" "c" MOTHER ] ManageFamily None None None
              false in
  let r := StoredRelationship.mk "m" "d" "c" MOTHER in
  ((saveUnchanged personC (viewRelationship personC (App.people st) r) st).1 = None ∧
   StoredRelationship.mk "m" "d" "c" FATHER ∈
   App.relationships
     (saveUnchanged personC (viewRelationship personC (App.people st) r) st).2 ∧
   ∀ r', r' ∈ App.relationships
                (saveUnchanged personC (viewRelationship personC (App.people st) r) st).2 →
         StoredRelationship.id r' = "m" → StoredRelationship.type r' = FATHER) ∨
  ((saveUnchanged personC (viewRelationship personC (App.people st) r) st).1 = Some "m" ∧
   is_Some (App.error
              (saveUnchanged personC (viewRelationship personC (App.people st) r) st).2) ∧
   App.relationships
     (saveUnchanged personC (viewRelationship personC (App.people st) r) st).2 =
     App.relationships st).
Proof.
  intros st r. apply (saveUnchanged_from_child st personC r personD).
  - by right.
  - vm_compute. set_solver.
  - reflexivity.
  - discriminate.
  - reflexivity.
Defined.

(** ** The chain finder *)

(** The handler on a complete selection of two different people, by the
    result of the search. *)
Lemma handleFindPath_distinct {S : Type} (onHighlightPath : option RelationshipPath → S → S)
    people relationships fs outer r :
  ChainFinder.personAId fs ≠ "" → ChainFinder.personBId fs ≠ "" →
  ChainFinder.personAId fs ≠ ChainFinder.personBId fs →
  findRelationshipPath (ChainFinder.personAId fs) (ChainFinder.personBId fs)
    people relationships = Returned r →
  handleFindPath onHighlightPath people relationships fs outer =
    Returned
      (ChainFinder.mk (ChainFinder.personAId fs) (ChainFinder.personBId fs) r
         (if r is Some _ then deriveComplexRelationship r people else None)
         false
         (if r is Some _ then None
          else Some "No relationship path found between the selected individuals."),
       onHighlightPath None outer).
Proof.
  intros Ha Hb Hne Hrun. unfold handleFindPath.
  destruct (String.eqb_spec (ChainFinder.personAId fs) "") as [|_]; [done|].
  destruct (String.eqb_spec (ChainFinder.personBId fs) "") as [|_]; [done|].
  cbn [orb resetSearch ChainFinder.personAId ChainFinder.personBId
       ChainFinder.setIsLoading ChainFinder.setError
       ChainFinder.setDerivedRelationship ChainFinder.setFoundPath].
  destruct (String.eqb_spec (ChainFinder.personAId fs) (ChainFinder.personBId fs));
    [done|].
  rewrite Hrun. by destruct r.
Qed.

(** Closes the parts of a goal about cells that hold [None] or [Some]. *)
Ltac settled :=
  repeat split; try done;
  try (by intros [[? ?] _]); try (by intros [_ [? ?]]); try (by intros [? ?]);
  try (by eauto).

(** X23. Whatever the selection and the data, the handler of the search
    completes: it clears the highlight through its callback, keeps the
    selection, leaves the loading flag off on a complete selection, never
    leaves a path together with an error, and leaves a sentence only
    together with a path. *)
Theorem handleFindPath_settles {S : Type}
    (onHighlightPath : option RelationshipPath → S → S) people relationships fs outer :
  ∃ fs',
    handleFindPath onHighlightPath people relationships fs outer =
      Returned (fs', onHighlightPath None outer) ∧
    ChainFinder.personAId fs' = ChainFinder.personAId fs ∧
    ChainFinder.personBId fs' = ChainFinder.personBId fs ∧
    (ChainFinder.personAId fs ≠ "" → ChainFinder.personBId fs ≠ "" →
     ChainFinder.isLoading fs' = false) ∧
    ¬ (is_Some (ChainFinder.foundPath fs') ∧ is_Some (ChainFinder.error fs')) ∧
    (is_Some (ChainFinder.derivedRelationship fs') → is_Some (ChainFinder.foundPath fs')).
Proof.
  destruct (decide (ChainFinder.personAId fs = "")) as [Ha|Ha];
    [|destruct (decide (ChainFinder.personBId fs = "")) as [Hb|Hb]].
  - unfold handleFindPath. rewrite Ha. simpl. eexists. split; [done|]. simpl.
    settled.
  - unfold handleFindPath. rewrite Hb, orb_true_r. eexists. split; [done|]. simpl.
    settled.
  - destruct (decide (ChainFinder.personAId fs = ChainFinder.personBId fs)) as [Heq|Hne].
    + unfold handleFindPath.
      destruct (String.eqb_spec (ChainFinder.personAId fs) "") as [|_]; [done|].
      destruct (String.eqb_spec (ChainFinder.personBId fs) "") as [|_]; [done|].
      cbn [orb resetSearch ChainFinder.personAId ChainFinder.personBId
           ChainFinder.setIsLoading ChainFinder.setError
           ChainFinder.setDerivedRelationship ChainFinder.setFoundPath].
      rewrite <- Heq, String.eqb_refl.
      destruct (find_person people (ChainFinder.personAId fs)) as [person|];
        (eexists; split; [done|]; simpl; settled).
    + destruct (findRelationshipPath_returns (ChainFinder.personAId fs)
                  (ChainFinder.personBId fs) people relationships) as [r Hr].
      rewrite (handleFindPath_distinct onHighlightPath _ _ _ outer r Ha Hb Hne Hr).
      eexists. split; [done|]. simpl. destruct r; settled.
Qed.

(** X24. With person A or person B not selected the handler ends with no
    error message: the message it sets is cleared by the reset that follows
    it. No path and no sentence are left either. *)
Theorem handleFindPath_incomplete_selection {S : Type}
    (onHighlightPath : option RelationshipPath → S → S) people relationships fs outer :
  ChainFinder.personAId fs = "" ∨ ChainFinder.personBId fs = "" →
  handleFindPath onHighlightPath people relationships fs outer =
    Returned
      (ChainFinder.mk (ChainFinder.personAId fs) (ChainFinder.personBId fs) None None
         (ChainFinder.isLoading fs) None,
       onHighlightPath None outer).
Proof.
  intros Hsel. unfold handleFindPath.
  assert (String.eqb (ChainFinder.personAId fs) "" ||
          String.eqb (ChainFinder.personBId fs) "" = true) as ->; [|done].
  destruct Hsel as [-> | ->]; [done|]. by rewrite orb_true_r.
Qed.

Lemma handleFindPath_incomplete_selection_witness :
  handleFindPath handleHighlightPath (App.people initialApp)
    (App.relationships initialApp) (selected "1" "") initialApp =
  Returned (ChainFinder.mk "1" "" None None false None,
            handleHighlightPath None initialApp).
Proof.
  apply (handleFindPath_incomplete_selection handleHighlightPath
           (App.people initialApp) (App.relationships initialApp)
           (selected "1" "") initialApp).
  by right.
Defined.

(** X25. On a selection of two different people the handler leaves a path
    exactly when the two are connected: then the path runs from person A to
    person B in the least number of hops, no error is shown and the sentence
    is the one derived from that path; otherwise no path and no sentence are
    left and the error says that no path was found. *)
Theorem handleFindPath_two_people {S : Type}
    (onHighlightPath : option RelationshipPath → S → S) people relationships fs outer :
  ChainFinder.personAId fs ≠ "" → ChainFinder.personBId fs ≠ "" →
  ChainFinder.personAId fs ≠ ChainFinder.personBId fs →
  ∃ fs',
    handleFindPath onHighlightPath people relationships fs outer =
      Returned (fs', onHighlightPath None outer) ∧
    (reachable people relationships (ChainFinder.personAId fs) (ChainFinder.personBId fs) →
     ∃ path,
       ChainFinder.foundPath fs' = Some path ∧
       head (pathIds path) = Some (ChainFinder.personAId fs) ∧
       last (pathIds path) = Some (ChainFinder.personBId fs) ∧
       (∀ n, walk people relationships (ChainFinder.personAId fs)
               (ChainFinder.personBId fs) n → hops path ≤ n) ∧
       ChainFinder.derivedRelationship fs' = deriveComplexRelationship (Some path) people ∧
       ChainFinder.error fs' = None) ∧
    (¬ reachable people relationships (ChainFinder.personAId fs)
         (ChainFinder.personBId fs) →
     ChainFinder.foundPath fs' = None ∧
     ChainFinder.derivedRelationship fs' = None ∧
     ChainFinder.error fs' =
       Some "No relationship path found between the selected individuals.").
Proof.
  intros Ha Hb Hne.
  destruct (findRelationshipPath_returns (ChainFinder.personAId fs)
              (ChainFinder.personBId fs) people relationships) as [r Hr].
  rewrite (handleFindPath_distinct onHighlightPath _ _ _ outer r Ha Hb Hne Hr).
  eexists. split; [done|]. cbn [ChainFinder.foundPath ChainFinder.error
                                ChainFinder.derivedRelationship]. split.
  - intros (n & adj & E & Hwalk).
    destruct (search_distance _ _ _ _ adj n Hne E Hwalk) as (path & Hrun & _ & Hmin).
    rewrite Hrun in Hr. injection Hr as <-. exists path.
    destruct (findRelationshipPath_linked _ _ _ _ _ Hne Hrun)
      as (adj' & E' & Hhead & Hlast & _).
    repeat split; try done.
    intros m (adj'' & E'' & Hwalk'). apply Hmin. congruence.
  - intros Hno. rewrite (findRelationshipPath_disconnected _ _ _ _ Hno) in Hr.
    by injection Hr as <-.
Qed.

Lemma handleFindPath_two_people_witness :
  ∃ fs',
    handleFindPath handleHighlightPath grandparent_people grandparent_relationships
      (selected "a" "c") grandparentApp =
      Returned (fs', handleHighlightPath None grandparentApp) ∧
    (reachable grandparent_people grandparent_relationships "a" "c" →
     ∃ path,
       ChainFinder.foundPath fs' = Some path ∧
       head (pathIds path) = Some "a" ∧
       last (pathIds path) = Some "c" ∧
       (∀ n, walk grandparent_people grandparent_relationships "a" "c" n →
             hops path ≤ n) ∧
       ChainFinder.derivedRelationship fs' =
         deriveComplexRelationship (Some path) grandparent_people ∧
       ChainFinder.error fs' = None) ∧
    (¬ reachable grandparent_people grandparent_relationships "a" "c" →
     ChainFinder.foundPath fs' = None ∧
     ChainFinder.derivedRelationship fs' = None ∧
     ChainFinder.error fs' =
       Some "No relationship path found between the selected individuals.").
Proof.
  apply (handleFindPath_two_people handleHighlightPath grandparent_people
           grandparent_relationships (selected "a" "c") grandparentApp);
    discriminate.
Defined.

(** X26. When the same known person is selected twice, the handler leaves
    the path of that single person, which is also what the search returns
    for the two ids, and the sentence that the person is themselves, which
    it composes itself: the derivation gives no sentence for that path. When
    the id selected twice is of no known person, it leaves nothing, and no
    error either. *)
Theorem handleFindPath_same_person {S : Type}
    (onHighlightPath : option RelationshipPath → S → S) people relationships fs outer :
  ChainFinder.personAId fs ≠ "" →
  ChainFinder.personBId fs = ChainFinder.personAId fs →
  (∀ person, find_person people (ChainFinder.personAId fs) = Some person →
     handleFindPath onHighlightPath people relationships fs outer =
       Returned
         (ChainFinder.mk (ChainFinder.personAId fs) (ChainFinder.personBId fs)
            (Some [ bareSegment person ])
            (Some (Person.name person +:+ " is themselves.")) false None,
          onHighlightPath None outer) ∧
     findRelationshipPath (ChainFinder.personAId fs) (ChainFinder.personBId fs)
       people relationships = Returned (Some [ bareSegment person ]) ∧
     deriveComplexRelationship (Some [ bareSegment person ]) people = None) ∧
  (find_person people (ChainFinder.personAId fs) = None →
   handleFindPath onHighlightPath people relationships fs outer =
     Returned
       (ChainFinder.mk (ChainFinder.personAId fs) (ChainFinder.personBId fs)
          None None false None,
        onHighlightPath None outer)).
Proof.
  intros Ha Hb.
  assert (∀ found,
    find_person people (ChainFinder.personAId fs) = found →
    handleFindPath onHighlightPath people relationships fs outer =
      Returned
        (ChainFinder.mk (ChainFinder.personAId fs) (ChainFinder.personBId fs)
           ((fun person => [ bareSegment person ]) <$> found)
           ((fun person => Person.name person +:+ " is themselves.") <$> found)
           false None,
         onHighlightPath None outer)) as Hrun.
  { intros found Hfound. unfold handleFindPath.
    destruct fs as [a b path sentence loading message]. simpl in *. subst b.
    destruct (String.eqb_spec a "") as [|_]; [done|]. simpl.
    rewrite String.eqb_refl, Hfound. by destruct found. }
  split.
  - intros person Hperson. split; [by rewrite (Hrun _ Hperson)|]. split; [|done].
    rewrite Hb. unfold findRelationshipPath, findRelationshipPath_fuel.
    by rewrite String.eqb_refl, Hperson.
  - intros Hnone. by rewrite (Hrun _ Hnone).
Qed.

Lemma handleFindPath_same_person_witness :
  (∀ person, find_person grandparent_people "a" = Some person →
     handleFindPath handleHighlightPath grandparent_people grandparent_relationships
       (selected "a" "a") grandparentApp =
       Returned
         (ChainFinder.mk "a" "a" (Some [ bareSegment person ])
            (Some (Person.name person +:+ " is themselves.")) false None,
          handleHighlightPath None grandparentApp) ∧
     findRelationshipPath "a" "a" grandparent_people grandparent_relationships =
       Returned (Some [ bareSegment person ]) ∧
     deriveComplexRelationship (Some [ bareSegment person ]) grandparent_people = None) ∧
  (find_person grandparent_people "a" = None →
   handleFindPath handleHighlightPath grandparent_people grandparent_relationships
     (selected "a" "a") grandparentApp =
     Returned (ChainFinder.mk "a" "a" None None false None,
               handleHighlightPath None grandparentApp)).
Proof.
  apply (handleFindPath_same_person handleHighlightPath grandparent_people
           grandparent_relationships (selected "a" "a") grandparentApp);
    [discriminate | reflexivity].
Defined.

(** Highlighting touches neither people nor relationships, and a path
    with a segment brings up the family view. *)
Lemma handleHighlightPath_keeps path st :
  App.people (handleHighlightPath path st) = App.people st ∧
  App.relationships (handleHighlightPath path st) = App.relationships st ∧
  (∀ seg rest, path = Some (seg :: rest) →
     App.activeView (handleHighlightPath path st) = ManageFamily).
Proof.
  unfold handleHighlightPath. destruct path as [[|seg rest]|]; try done.
  destruct (foldl collectSegment (∅, ∅) (seg :: rest)) as [nodeIds linkIds].
  done.
Qed.

(** X27. A search between two different connected people followed by "show
    on graph" switches to the family view and marks both selected people,
    and no more people than any connection between the two passes, and
    changes neither people nor relationships; after a search that found
    no path, "show on graph" leaves the application without highlight, in
    the view it was in. *)
Theorem show_found_path_on_graph st fs :
  ChainFinder.personAId fs ≠ "" → ChainFinder.personBId fs ≠ "" →
  ChainFinder.personAId fs ≠ ChainFinder.personBId fs →
  ∃ fs' st',
    handleFindPath handleHighlightPath (App.people st) (App.relationships st) fs st =
      Returned (fs', st') ∧
    App.people (handleShowOnGraphClick handleHighlightPath fs' st') = App.people st ∧
    App.relationships (handleShowOnGraphClick handleHighlightPath fs' st') =
      App.relationships st ∧
    (∀ n, walk (App.people st) (App.relationships st) (ChainFinder.personAId fs)
            (ChainFinder.personBId fs) n →
       App.activeView (handleShowOnGraphClick handleHighlightPath fs' st') =
         ManageFamily ∧
       ∃ info,
         App.highlightedPathInfo (handleShowOnGraphClick handleHighlightPath fs' st') =
           Some info ∧
         ChainFinder.personAId fs ∈ HighlightedPathInfo.nodeIds info ∧
         ChainFinder.personBId fs ∈ HighlightedPathInfo.nodeIds info ∧
         size (HighlightedPathInfo.nodeIds info) ≤ S n) ∧
    (¬ reachable (App.people st) (App.relationships st) (ChainFinder.personAId fs)
         (ChainFinder.personBId fs) →
     App.activeView (handleShowOnGraphClick handleHighlightPath fs' st') =
       App.activeView st ∧
     App.highlightedPathInfo (handleShowOnGraphClick handleHighlightPath fs' st') = None).
Proof.
  intros Ha Hb Hne.
  destruct (findRelationshipPath_returns (ChainFinder.personAId fs)
              (ChainFinder.personBId fs) (App.people st) (App.relationships st))
    as [r Hr].
  rewrite (handleFindPath_distinct handleHighlightPath _ _ _ st r Ha Hb Hne Hr).
  eexists _, _. split; [done|].
  unfold handleShowOnGraphClick. cbn [ChainFinder.foundPath].
  destruct r as [path|].
  - destruct (findRelationshipPath_linked _ _ _ _ _ Hne Hr)
      as (adj & E & Hhead & Hlast & Hnodup & _ & _).
    assert (2 ≤ length path) as Hlen.
    { destruct path as [|s1 [|s2 rest]]; simpl in *; [done|congruence|lia]. }
    destruct (highlight_sets path (handleHighlightPath None st) Hlen)
      as (info & Hinfo & Hnodes & _).
    assert (HighlightedPathInfo.nodeIds info = list_to_set (pathIds path)) as Hset.
    { apply set_eq. intros x. rewrite Hnodes. set_solver. }
    destruct path as [|s1 [|s2 rest]]; [simpl in Hlen; lia..|].
    destruct (handleHighlightPath_keeps (Some (s1 :: s2 :: rest))
                (handleHighlightPath None st)) as (Hpeople & Hrels & Hview).
    split; [done|]. split; [done|]. split.
    + intros n (adj' & E' & Hwalk). split; [by eapply Hview|].
      exists info. split; [done|]. split.
      { apply Hnodes. simpl in Hhead. injection Hhead as <-. by left. }
      split.
      { apply Hnodes. apply last_Some in Hlast as [l ->]. set_solver. }
      destruct (search_distance _ _ _ _ adj' n Hne E' Hwalk)
        as (path' & Hrun & _ & Hmin).
      rewrite Hrun in Hr. injection Hr as ->.
      rewrite Hset, size_list_to_set by done. unfold pathIds. rewrite length_fmap.
      specialize (Hmin n Hwalk). unfold hops in Hmin. lia.
    + intros Hno. destruct Hno.
      destruct (findRelationshipPath_route _ _ _ _ _ Hne Hr)
        as (adj' & startNode & E' & Hstart & Hroute & _).
      exists (hops (s1 :: s2 :: rest)), adj'. split; [done|].
      by apply (route_walk (App.people st) adj' _ startNode Hstart).
  - split; [done|]. split; [done|]. split; [|done].
    intros n (adj & E & Hwalk).
    destruct (search_distance _ _ _ _ adj n Hne E Hwalk) as (path' & Hrun & _).
    congruence.
Qed.

Lemma show_found_path_on_graph_witness :
  ∃ fs' st',
    handleFindPath handleHighlightPath (App.people grandparentApp)
      (App.relationships grandparentApp) (selected "a" "c") grandparentApp =
      Returned (fs', st') ∧
    App.people (handleShowOnGraphClick handleHighlightPath fs' st') =
      App.people grandparentApp ∧
    App.relationships (handleShowOnGraphClick handleHighlightPath fs' st') =
      App.relationships grandparentApp ∧
    (∀ n, walk (App.people grandparentApp) (App.relationships grandparentApp)
            "a" "c" n →
       App.activeView (handleShowOnGraphClick handleHighlightPath fs' st') =
         ManageFamily ∧
       ∃ info,
         App.highlightedPathInfo (handleShowOnGraphClick handleHighlightPath fs' st') =
           Some info ∧
         "a" ∈ HighlightedPathInfo.nodeIds info ∧
         "c" ∈ HighlightedPathInfo.nodeIds info ∧
         size (HighlightedPathInfo.nodeIds info) ≤ S n) ∧
    (¬ reachable (App.people grandparentApp) (App.relationships grandparentApp)
         "a" "c" →
     App.activeView (handleShowOnGraphClick handleHighlightPath fs' st') =
       App.activeView grandparentApp ∧
     App.highlightedPathInfo (handleShowOnGraphClick handleHighlightPath fs' st') = None).
Proof.
  apply (show_found_path_on_graph grandparentApp (selected "a" "c")); discriminate.
Defined.

(** ** Search and derivation together *)

(** X28. For two different known people joined by a stored relationship,
    the search returns the path of just the two of them, and the derivation
    puts it in a sentence about a stored relationship between them: read
    from its source, "X is father of Y." and the like or "X and Y are
    siblings."; read from its target, "X is child of Y.", "X is spouse of
    Y." or "X and Y are siblings.". *)
Theorem direct_relationship_sentence people relationships a b :
  a ≠ b → linked people relationships a b →
  ∃ pa pb rel path,
    find_person people a = Some pa ∧ find_person people b = Some pb ∧
    findRelationshipPath a b people relationships = Returned (Some path) ∧
    PathSegment.person <$> path = [ pa; pb ] ∧
    rel ∈ relationships ∧
    ((StoredRelationship.fromPersonId rel = a ∧ StoredRelationship.toPersonId rel = b ∧
      deriveComplexRelationship (Some path) people =
        Some (forwardSentence (StoredRelationship.type rel) pa pb)) ∨
     (StoredRelationship.toPersonId rel = a ∧ StoredRelationship.fromPersonId rel = b ∧
      deriveComplexRelationship (Some path) people =
        Some (reverseSentence (StoredRelationship.type rel) pa pb))).
Proof.
  intros Hne Hlinked.
  destruct (buildAdj_total people relationships) as (adj & E & _).
  assert (walkIn adj a b 1) as Hwalk.
  { econstructor; [constructor|]. by apply (adjacentIn_buildAdj people relationships). }
  destruct (search_distance _ _ _ _ adj 1 Hne E Hwalk) as (path & Hrun & _ & Hmin).
  specialize (Hmin 1 Hwalk). unfold hops in Hmin.
  destruct (findRelationshipPath_linked _ _ _ _ _ Hne Hrun)
    as (adj' & _ & Hhead & Hlast & _ & _ & Hfound).
  destruct path as [|s1 [|s2 [|s3 rest]]]; simpl in Hhead, Hlast, Hmin;
    [done|congruence| |lia].
  injection Hhead as Ha. injection Hlast as Hb.
  apply Forall_cons in Hfound as [H1 [H2 _]%Forall_cons].
  rewrite Ha in H1. rewrite Hb in H2.
  destruct (findRelationshipPath_hop_entry a b people relationships [] s1 s2 [] Hne Hrun)
    as (rel & fromPerson & entry & Hrel & Hfrom & Hcase & Hnext & Hlabel & _).
  exists (PathSegment.person s1), (PathSegment.person s2), rel, [ s1; s2 ].
  split; [done|]. split; [done|]. split; [done|]. split; [done|]. split; [done|].
  unfold deriveComplexRelationship. rewrite Hlabel.
  destruct Hcase as [[Hs ->] | [Hs ->]]; simpl in Hnext; [left|right].
  - split; [congruence|]. split; [congruence|].
    unfold forwardSentence, forwardEntry. cbn [Neighbor.relationshipLabel].
    by destruct (StoredRelationship.type rel).
  - split; [congruence|]. split; [congruence|].
    unfold reverseSentence, reverseEntry. cbn [Neighbor.relationshipLabel].
    by destruct (StoredRelationship.type rel).
Qed.

Lemma direct_relationship_sentence_witness :
  ∃ pa pb rel path,
    find_person grandparent_people "b" = Some pa ∧
    find_person grandparent_people "a" = Some pb ∧
    findRelationshipPath "b" "a" grandparent_people grandparent_relationships =
      Returned (Some path) ∧
    PathSegment.person <$> path = [ pa; pb ] ∧
    rel ∈ grandparent_relationships ∧
    ((StoredRelationship.fromPersonId rel = "b" ∧ StoredRelationship.toPersonId rel = "a" ∧
      deriveComplexRelationship (Some path) grandparent_people =
        Some (forwardSentence (StoredRelationship.type rel) pa pb)) ∨
     (StoredRelationship.toPersonId rel = "b" ∧ StoredRelationship.fromPersonId rel = "a" ∧
      deriveComplexRelationship (Some path) grandparent_people =
        Some (reverseSentence (StoredRelationship.type rel) pa pb))).
Proof.
  apply (direct_relationship_sentence grandparent_people grandparent_relationships
           "b" "a"); [discriminate|].
  exists (StoredRelationship.mk "r1" "a" "b" FATHER).
  split; [vm_compute; set_solver|]. split; [by eexists|]. split; [by eexists|].
  by right.
Defined.

(** X29. After an accepted update of a stored relationship to a pair of
    known people, the search joins the two directly, in either direction: it
    returns a path of exactly two segments from the one to the other. *)
Theorem updateRelationship_then_search st id fromPersonId toPersonId type r :
  r ∈ App.relationships st → StoredRelationship.id r = id →
  is_Some (find_person (App.people st) fromPersonId) →
  is_Some (find_person (App.people st) toPersonId) →
  (updateRelationship st id fromPersonId toPersonId type).1 = true →
  ∀ a b, (a = fromPersonId ∧ b = toPersonId) ∨ (a = toPersonId ∧ b = fromPersonId) →
    ∃ path,
      findRelationshipPath a b
        (App.people (updateRelationship st id fromPersonId toPersonId type).2)
        (App.relationships (updateRelationship st id fromPersonId toPersonId type).2) =
        Returned (Some path) ∧
      pathIds path = [ a; b ].
Proof.
  intros Hr Hid Hfrom Hto Hok a b Hab.
  destruct (updateRelationship st id fromPersonId toPersonId type)
    as [[|] st'] eqn:E; [|done]. clear Hok.
  apply updateRelationship_accepted in E as (Hne & _ & _ & ->).
  cbn [snd App.people App.relationships App.setHighlightedPathInfo
       App.setRelationships App.setError].
  set (relationships := rewriteRelationship id fromPersonId toPersonId type <$>
                        App.relationships st).
  assert (linked (App.people st) relationships a b) as Hlinked.
  { exists (StoredRelationship.mk id fromPersonId toPersonId type).
    split.
    { apply list_elem_of_fmap. exists r. split; [|done].
      unfold rewriteRelationship. by rewrite Hid, String.eqb_refl. }
    split; [done|]. split; [done|]. simpl.
    destruct Hab as [[-> ->] | [-> ->]]; eauto. }
  assert (a ≠ b) as Hab' by (destruct Hab as [[-> ->] | [-> ->]]; done).
  destruct (buildAdj_total (App.people st) relationships) as (adj & Eadj & _).
  assert (walkIn adj a b 1) as Hwalk.
  { econstructor; [constructor|].
    by apply (adjacentIn_buildAdj (App.people st) relationships). }
  destruct (search_distance _ _ _ _ adj 1 Hab' Eadj Hwalk) as (path & Hrun & _ & Hmin).
  specialize (Hmin 1 Hwalk). unfold hops in Hmin.
  destruct (findRelationshipPath_linked _ _ _ _ _ Hab' Hrun)
    as (adj' & _ & Hhead & Hlast & _).
  exists path. split; [done|].
  destruct path as [|s1 [|s2 [|s3 rest]]]; simpl in Hhead, Hlast, Hmin;
    [done|congruence| |lia].
  simpl. congruence.
Qed.

Lemma updateRelationship_then_search_witness :
  ∃ path,
    findRelationshipPath "c" "a"
      (App.people (updateRelationship grandparentApp "r1" "a" "c" FATHER).2)
      (App.relationships (updateRelationship grandparentApp "r1" "a" "c" FATHER).2) =
      Returned (Some path) ∧
    pathIds path = [ "c"; "a" ].
Proof.
  apply (updateRelationship_then_search grandparentApp "r1" "a" "c" FATHER
           (StoredRelationship.mk "r1" "a" "b" FATHER)).
  - vm_compute. set_solver.
  - reflexivity.
  - by eexists.
  - by eexists.
  - reflexivity.
  - by right.
Defined.
